(** * Gas Town: the Witness supervision loop and mail addressing

    A shallow embedding of the parts of [internal/witness/manager.go] and
    [internal/mail/types.go] that the specification's testable properties
    talk about, together with the proofs that settle them.

    Conventions.
    - Go strings are byte strings: Rocq's [string].  Every comparison the
      embedded code makes is against ASCII bytes, so a byte-level reading
      gives the same answers as Go's rune-level iteration.
    - Go's [int], [time.Time] and [time.Duration] are [Z]; the wrap-around
      of [x++] and the saturation of [time.Time.Sub] are written out.
    - A Go [map[string]T] is a [gmap string T]; a nil map reads as the
      empty map.
    - The outside world (tmux, git, the issue store, the clock, the
      file system) answers through an [Env] record of oracles.  Every
      oracle sees the history of actions that the supervisor has carried out
      so far, so the world may react to them in any deterministic way;
      between two actions it answers the same question the same way.
    - Go's own libraries ([time], [encoding/json], [regexp]) are embedded
      as far as the code's behaviour depends on them, and are oracles
      otherwise.
    - Lines printed to standard output are left out. *)

From Stdlib Require Import ZArith Ascii Bool Lia.
From Stdlib Require String DecimalString.
From stdpp Require Import base list gmap strings sorting.

Local Open Scope Z_scope.

(** ** Go's [strings] package, as far as the code uses it *)

Module GoStrings.

(** [len(s)] *)
Definition len (s : string) : nat := String.length s.

(** [s[len(s)-1]], when [len(s) > 0] *)
Fixpoint lastByte (s : string) : option ascii :=
  match s with
  | EmptyString => None
  | String c r =>
      match lastByte r with
      | Some l => Some l
      | None => Some c
      end
  end.

(** [s[:len(s)-1]] *)
Fixpoint dropLast (s : string) : string :=
  match s with
  | EmptyString => EmptyString
  | String c r =>
      match r with
      | EmptyString => EmptyString
      | String _ _ => String c (dropLast r)
      end
  end.

(** [s[n:]] *)
Fixpoint dropBytes (n : nat) (s : string) : string :=
  match n, s with
  | O, _ => s
  | S n', String _ r => dropBytes n' r
  | S _, EmptyString => EmptyString
  end.

(** [strings.HasPrefix(s, p)] *)
Definition HasPrefix (s p : string) : bool := String.prefix p s.

(** [strings.Contains(s, sub)] *)
Fixpoint Contains (s sub : string) : bool :=
  String.prefix sub s ||
  match s with
  | EmptyString => false
  | String _ r => Contains r sub
  end.

(** [strings.Split(s, sep)] for a one-byte separator.  As in Go, the
    result always has at least one element: [Split("", "/")] is [[""]]. *)
Fixpoint Split (s : string) (sep : ascii) : list string :=
  match s with
  | EmptyString => [EmptyString]
  | String c r =>
      if Ascii.eqb c sep then EmptyString :: Split r sep
      else match Split r sep with
           | p :: ps => String c p :: ps
           | [] => [String c EmptyString]
           end
  end.

(** [strings.IndexByte(s, c)], [None] for Go's [-1] *)
Fixpoint IndexByte (s : string) (c : ascii) : option nat :=
  match s with
  | EmptyString => None
  | String a r =>
      if Ascii.eqb a c then Some O
      else match IndexByte r c with
           | Some i => Some (S i)
           | None => None
           end
  end.

(** ASCII white space, the part of [unicode.IsSpace] that one byte can
    hit: tab, line feed, vertical tab, form feed, carriage return, space. *)
Definition isSpace (c : ascii) : bool :=
  let n := nat_of_ascii c in
  ((9 <=? n)%nat && (n <=? 13)%nat) || (n =? 32)%nat.

Fixpoint trimLeft (s : string) : string :=
  match s with
  | EmptyString => EmptyString
  | String c r => if isSpace c then trimLeft r else s
  end.

Fixpoint trimRight (s : string) : string :=
  match s with
  | EmptyString => EmptyString
  | String c r =>
      match trimRight r with
      | EmptyString => if isSpace c then EmptyString else String c EmptyString
      | r' => String c r'
      end
  end.

(** [strings.TrimSpace(s)] on ASCII white space *)
Definition TrimSpace (s : string) : string := trimRight (trimLeft s).

(** [s] has no byte [c]. *)
Definition noByte (c : ascii) (s : string) : Prop := IndexByte s c = None.

(** [strings.Join(ps, sep)] for a one-byte separator *)
Fixpoint Join (ps : list string) (sep : ascii) : string :=
  match ps with
  | [] => EmptyString
  | [p] => p
  | p :: ps' => p +:+ String sep (Join ps' sep)
  end.

End GoStrings.

(** ** Mail addresses ([internal/mail/types.go]) *)

Module Mail.
Import GoStrings.

Definition slash : ascii := "/"%char.

(** [addressToIdentity] converts an address to the identity under which
    the issue store files the mail. *)
Definition addressToIdentity (address : string) : string :=
  if String.eqb address "mayor" || String.eqb address "mayor/" then "mayor/"
  else if String.eqb address "deacon" || String.eqb address "deacon/" then "deacon/"
  else
    let address :=
      if (0 <? len address)%nat &&
         match lastByte address with Some c => Ascii.eqb c slash | None => false end
      then dropLast address
      else address in
    match Split address slash with
    | [p0; p1; p2] =>
        if String.eqb p1 "crew" || String.eqb p1 "polecats"
        then p0 +:+ "/" +:+ p2
        else address
    | _ => address
    end.

(** [identityToAddress] converts an identity back to an address. *)
Definition identityToAddress (identity : string) : string :=
  if String.eqb identity "mayor" || String.eqb identity "mayor/" then "mayor/"
  else if String.eqb identity "deacon" || String.eqb identity "deacon/" then "deacon/"
  else
    match Split identity slash with
    | [p0; p1; p2] =>
        if String.eqb p1 "crew" || String.eqb p1 "polecats"
        then p0 +:+ "/" +:+ p2
        else identity
    | _ => identity
    end.

(** The specification's [canonicalize]: the mailbox view files and looks
    up mail under [addressToIdentity] of the address. *)
Definition canonicalize (a : string) : string := addressToIdentity a.

(** [strings.HasSuffix(s, suf)] *)
Fixpoint HasSuffix (s suf : string) : bool :=
  String.eqb s suf ||
  match s with
  | EmptyString => false
  | String _ r => HasSuffix r suf
  end.

(** *** The two steps of [addressToIdentity], named for the proofs *)

Definition trimSlash (a : string) : string :=
  if (0 <? len a)%nat &&
     match lastByte a with Some c => Ascii.eqb c slash | None => false end
  then dropLast a
  else a.

Definition collapse (a : string) : string :=
  match Split a slash with
  | [p0; p1; p2] =>
      if String.eqb p1 "crew" || String.eqb p1 "polecats"
      then p0 +:+ "/" +:+ p2
      else a
  | _ => a
  end.

Definition townLevel (a : string) : option string :=
  if String.eqb a "mayor" || String.eqb a "mayor/" then Some "mayor/"
  else if String.eqb a "deacon" || String.eqb a "deacon/" then Some "deacon/"
  else None.

End Mail.

(** ** Messages and priorities ([internal/mail/types.go]) *)

Module MailMessage.
Import GoStrings Mail.

(** [Priority], [MessageType] and [Delivery] are string types. *)
Definition Priority := string.
Definition PriorityLow : Priority := "low".
Definition PriorityNormal : Priority := "normal".
Definition PriorityHigh : Priority := "high".
Definition PriorityUrgent : Priority := "urgent".

Definition MessageType := string.
Definition TypeTask : MessageType := "task".
Definition TypeScavenge : MessageType := "scavenge".
Definition TypeNotification : MessageType := "notification".
Definition TypeReply : MessageType := "reply".

Definition Delivery := string.

(** [Message]; the fields [Priority], [Type] and [Delivery] carry an
    underscore, since the types have those names. *)
Record Message := {
  ID : string;
  From : string;
  To : string;
  Subject : string;
  Body : string;
  Timestamp : Z;
  Read : bool;
  Priority_ : Priority;
  Type_ : MessageType;
  Delivery_ : Delivery;
  ThreadID : string;
  ReplyTo : string;
  Pinned : bool;
  Wisp : bool }.

(** [BeadsMessage]: an issue of type message as the issue store prints it,
    with the four values that [ParseLabels] caches. *)
Record BeadsMessage := {
  BeadsID : string;
  Title : string;
  Description : string;
  Assignee : string;
  BeadsPriority : Z;
  Status : string;
  CreatedAt : Z;
  Labels : list string;
  BeadsPinned : bool;
  BeadsWisp : bool;
  sender : string;
  threadID : string;
  replyTo : string;
  msgType : string }.

(** [strings.TrimPrefix(s, p)] *)
Definition TrimPrefix (s p : string) : string :=
  if HasPrefix s p then dropBytes (len p) s else s.

(** The message with its four cached values replaced. *)
Definition withCache (bm : BeadsMessage) (s t r m : string) : BeadsMessage :=
  {| BeadsID := BeadsID bm; Title := Title bm; Description := Description bm;
     Assignee := Assignee bm; BeadsPriority := BeadsPriority bm; Status := Status bm;
     CreatedAt := CreatedAt bm; Labels := Labels bm; BeadsPinned := BeadsPinned bm;
     BeadsWisp := BeadsWisp bm;
     sender := s; threadID := t; replyTo := r; msgType := m |}.

(** The body of the loop of [ParseLabels], for one label. *)
Definition parseLabel (bm : BeadsMessage) (label : string) : BeadsMessage :=
  if HasPrefix label "from:" then
    withCache bm (TrimPrefix label "from:") (threadID bm) (replyTo bm) (msgType bm)
  else if HasPrefix label "thread:" then
    withCache bm (sender bm) (TrimPrefix label "thread:") (replyTo bm) (msgType bm)
  else if HasPrefix label "reply-to:" then
    withCache bm (sender bm) (threadID bm) (TrimPrefix label "reply-to:") (msgType bm)
  else if HasPrefix label "msg-type:" then
    withCache bm (sender bm) (threadID bm) (replyTo bm) (TrimPrefix label "msg-type:")
  else bm.

(** [ParseLabels]; the receiver after the call is the result. *)
Definition ParseLabels (bm : BeadsMessage) : BeadsMessage :=
  fold_left parseLabel (Labels bm) bm.

(** [ToMessage]; it leaves the receiver as [ParseLabels] leaves it. *)
Definition ToMessage (bm : BeadsMessage) : Message :=
  let bm := ParseLabels bm in
  let priority :=
    if BeadsPriority bm =? 0 then PriorityUrgent
    else if BeadsPriority bm =? 1 then PriorityHigh
    else if BeadsPriority bm =? 3 then PriorityLow
    else PriorityNormal in
  let type :=
    if String.eqb (msgType bm) TypeTask || String.eqb (msgType bm) TypeScavenge ||
       String.eqb (msgType bm) TypeReply
    then msgType bm
    else TypeNotification in
  {| ID := BeadsID bm;
     From := identityToAddress (sender bm);
     To := identityToAddress (Assignee bm);
     Subject := Title bm;
     Body := Description bm;
     Timestamp := CreatedAt bm;
     Read := String.eqb (Status bm) "closed";
     Priority_ := priority;
     Type_ := type;
     Delivery_ := EmptyString;
     ThreadID := threadID bm;
     ReplyTo := replyTo bm;
     Pinned := false;
     Wisp := BeadsWisp bm |}.

(** [PriorityToBeads] *)
Definition PriorityToBeads (p : Priority) : Z :=
  if String.eqb p PriorityUrgent then 0
  else if String.eqb p PriorityHigh then 1
  else if String.eqb p PriorityLow then 3
  else 2.

(** [ParsePriority] *)
Definition ParsePriority (s : string) : Priority :=
  if String.eqb s PriorityLow || String.eqb s PriorityNormal ||
     String.eqb s PriorityHigh || String.eqb s PriorityUrgent
  then s
  else PriorityNormal.

(** [PriorityFromInt] *)
Definition PriorityFromInt (p : Z) : Priority :=
  if p =? 0 then PriorityUrgent
  else if p =? 1 then PriorityHigh
  else if p =? 2 then PriorityNormal
  else if (p =? 3) || (p =? 4) then PriorityLow
  else PriorityNormal.

(** [ParseMessageType] *)
Definition ParseMessageType (s : string) : MessageType :=
  if String.eqb s TypeTask || String.eqb s TypeScavenge ||
     String.eqb s TypeNotification || String.eqb s TypeReply
  then s
  else TypeNotification.

(** The value that a loop over [labels] leaves in a cached field that
    starts as [init]: that of the last label with the prefix [p]. *)
Definition lastValue (p : string) (labels : list string) (init : string) : string :=
  fold_left (fun acc label => if HasPrefix label p then TrimPrefix label p else acc)
            labels init.

End MailMessage.

(** ** Go's [encoding/json], as far as the handoff document needs it *)

Module GoJson.

Definition dquote : ascii := "034"%char.
Definition backslash : ascii := "092"%char.
Definition lbrace : ascii := "{"%char.
Definition rbrace : ascii := "}"%char.
Definition newline : string := String "010"%char EmptyString.

(** The decimal text of an integer, as [%d] and [json.Marshal] print it. *)
Definition itoa (z : Z) : string := DecimalString.NilZero.string_of_int (Z.to_int z).

Definition hexDigit (n : nat) : ascii :=
  ascii_of_nat (if (n <? 10)%nat then 48 + n else 87 + n).

(** One byte of a string inside a JSON string literal.  The quote and the
    backslash get a backslash; line feed, carriage return and tab their
    short escapes; the other control bytes and [<], [>], [&] the six-byte
    [\u00XX] form; every other byte stands for itself. *)
Definition escapeByte (c : ascii) : string :=
  let n := nat_of_ascii c in
  if Ascii.eqb c dquote then String backslash (String dquote EmptyString)
  else if Ascii.eqb c backslash then String backslash (String backslash EmptyString)
  else if (n =? 10)%nat then String backslash "n"
  else if (n =? 13)%nat then String backslash "r"
  else if (n =? 9)%nat then String backslash "t"
  else if (n <? 32)%nat || (n =? 60)%nat || (n =? 62)%nat || (n =? 38)%nat
       then String backslash ("u00" +:+
              String (hexDigit (n / 16)) (String (hexDigit (n mod 16)) EmptyString))
  else String c EmptyString.

Fixpoint escape (s : string) : string :=
  match s with
  | EmptyString => EmptyString
  | String c r => escapeByte c +:+ escape r
  end.

(** A JSON string literal. *)
Definition quote (s : string) : string :=
  String dquote (escape s +:+ String dquote EmptyString).

Fixpoint indent (depth : nat) : string :=
  match depth with
  | O => EmptyString
  | S d => "  " +:+ indent d
  end.

(** The members of an object, each on a line of its own.  A member is a
    key and the text of its value, already rendered one level deeper. *)
Fixpoint renderMembers (depth : nat) (members : list (string * string)) : string :=
  match members with
  | [] => EmptyString
  | (k, v) :: rest =>
      newline +:+ indent (S depth) +:+ quote k +:+ ": " +:+ v +:+
      match rest with
      | [] => EmptyString
      | _ :: _ => "," +:+ renderMembers depth rest
      end
  end.

(** An object as [json.MarshalIndent(v, "", "  ")] lays it out at nesting
    level [depth]; the empty object is [{}]. *)
Definition renderObject (depth : nat) (members : list (string * string)) : string :=
  match members with
  | [] => String lbrace (String rbrace EmptyString)
  | _ :: _ =>
      String lbrace
        (renderMembers depth members +:+ newline +:+ indent depth +:+
         String rbrace EmptyString)
  end.

(** The body of an object: what stands between its braces. *)
Definition objectBody (depth : nat) (members : list (string * string)) : string :=
  match members with
  | [] => EmptyString
  | _ :: _ => renderMembers depth members +:+ newline +:+ indent depth
  end.

End GoJson.

(** ** The Witness manager ([internal/witness/manager.go]) *)

Module Witness.
Import GoStrings GoJson.

(** *** Time *)

(** A [time.Time] is its distance in nanoseconds from the zero time; a
    [time.Duration] is a signed 64-bit count of nanoseconds. *)
Definition Time := Z.
Definition Duration := Z.

Definition minDuration : Duration := - 2 ^ 63.
Definition maxDuration : Duration := 2 ^ 63 - 1.
Definition Minute : Duration := 60 * 1000000000.

(** [t.Sub(u)]: the difference, held at the least or the greatest duration
    when it does not fit. *)
Definition Sub (t u : Time) : Duration :=
  Z.max minDuration (Z.min maxDuration (t - u)).

(** [t.IsZero()] and [t.After(u)] *)
Definition IsZero (t : Time) : bool := t =? 0.
Definition After (t u : Time) : bool := u <? t.

(** [x++] on a Go [int] *)
Definition incr (x : Z) : Z := (x + 1 + 2 ^ 63) mod 2 ^ 64 - 2 ^ 63.

(** *** Data *)

Definition error := string.

Inductive Result (A : Type) : Type :=
| Ok (a : A)
| Err (e : error).
Arguments Ok {A} a.
Arguments Err {A} e.

Record Rig := { Name : string; Path : string }.

(** What [polecat.Manager.List] tells about one polecat. *)
Record Polecat := { PolecatName : string; ClonePath : string }.

(** Modelled from the spec: [WorkerState] of the absent witness/types.go,
    the per-worker entry of the handoff record: nudge count, last nudge,
    last active, issue, arm id. *)
Record WorkerState := {
  Issue : string;
  NudgeCount : Z;
  LastNudge : option Time;
  LastActive : option Time;
  ArmID : string }.

(** Modelled from the spec: [WitnessHandoffState] of the absent
    witness/types.go: the worker states, the patrol instance id and the
    time of the last patrol. *)
Record WitnessHandoffState := {
  WorkerStates : gmap string WorkerState;
  PatrolInstanceID : string;
  LastPatrol : option Time }.

(** Modelled from the spec: the configuration of the absent
    witness/types.go, with the fields that the manager reads. *)
Record WitnessConfig := {
  MaxWorkers : Z;
  SpawnDelayMs : Z;
  AutoSpawn : bool;
  EpicID : string;
  IssuePrefix : string }.

(** Modelled from the spec: the counters for observability of the absent
    witness/types.go. *)
Record WitnessStats := {
  TotalChecks : Z;
  TodayChecks : Z;
  TotalNudges : Z;
  TodayNudges : Z;
  TotalEscalations : Z }.

(** Modelled from the spec: the worker state record [Witness] of the absent
    witness/types.go; [SpawnedIssues] is the scratch list of issue ids and
    of [nudge:], [done:] and [waiting:] tags. *)
Record Witness := {
  RigName : string;
  Config : WitnessConfig;
  SpawnedIssues : list string;
  Stats : WitnessStats;
  LastCheckAt : option Time;
  MonitoredPolecats : list string }.

(** [WitnessMessage] and [ReadyIssue] *)
Record WitnessMessage := {
  ID : string;
  Subject : string;
  Body : string;
  From : string }.

Record ReadyIssue := {
  ReadyID : string;
  Title : string;
  Type_ : string;
  Status : string }.

(** Modelled from the spec: [git.UncommittedWorkStatus] of the absent git
    package, what [CheckUncommittedWork] reports: the modified and the
    untracked files, the number of stashes and of unpushed commits. *)
Record UncommittedWorkStatus := {
  HasUncommittedChanges : bool;
  ModifiedFiles : list string;
  UntrackedFiles : list string;
  StashCount : Z;
  UnpushedCommits : Z }.

(** Modelled from the spec: [UncommittedWorkStatus.Clean] of the absent git
    package: modified = 0, untracked = 0, stash = 0 and unpushed = 0. *)
Definition Clean (s : UncommittedWorkStatus) : bool :=
  (length (ModifiedFiles s) =? 0)%nat && (length (UntrackedFiles s) =? 0)%nat &&
  (StashCount s =? 0) && (UnpushedCommits s =? 0).

(** Modelled from the spec: [UncommittedWorkStatus.String] of the absent git
    package: the message enumerates the specific counts. *)
Definition statusString (s : UncommittedWorkStatus) : string :=
  itoa (Z.of_nat (length (ModifiedFiles s))) +:+ " modified, " +:+
  itoa (Z.of_nat (length (UntrackedFiles s))) +:+ " untracked, " +:+
  itoa (StashCount s) +:+ " stash(es), " +:+
  itoa (UnpushedCommits s) +:+ " unpushed commit(s)".

(** What [polecat.Manager.RemoveWithOptions] answers. *)
Inductive RemoveOutcome :=
| Removed
| RemoveNotFound            (* an error that is [polecat.ErrPolecatNotFound] *)
| RemoveFailed (e : error).

(** *** Actions and the outside world *)

(** What the supervisor does to the world.  The history lists the actions
    carried out so far, the most recent first.  Lines printed to standard
    output are not part of the model. *)
Inductive Event :=
| EvMailSend (tool recipient subject body : string)  (* [gt|bd mail send] *)
| EvMailAck (id : string)                             (* [bd mail ack] *)
| EvBdUpdate (beadID description : string)            (* [bd update --description] *)
| EvSaveState (w : Witness)                           (* the state file written *)
| EvSessionStop (polecat : string)                    (* [sessMgr.Stop(name, true)] *)
| EvRemoveWorktree (polecat : string)                 (* [RemoveWithOptions(name, true, true)] *)
| EvDeleteBranch (branch : string)                    (* [DeleteBranch(branch, true)] *)
| EvSpawn (issue : string)                            (* [gt spawn --rig --issue] *)
| EvBondArm (parent polecat : string)                 (* [gt mol bond mol-polecat-arm] *)
| EvSleep (ms : Z).                                   (* [time.Sleep] *)

Definition History := list Event.

(** The world's answers.  Each oracle reads the history, so an answer may
    depend on everything the supervisor has done before the call. *)
Record Env := {
  time_Now : History -> Time;
  time_Format : Time -> string;                (* [t.Format(time.RFC3339)] *)
  time_Parse : string -> option Time;          (* [time.Parse(time.RFC3339, s)] *)
  time_MarshalJSON : Time -> string;           (* the text of a time in JSON *)
  json_Unmarshal : string -> option WitnessHandoffState;
  os_NotExist : History -> string -> bool;     (* [os.IsNotExist] of [os.Stat]'s error *)
  os_ModTime : History -> string -> option Time;  (* [os.Stat(p)], its [ModTime] *)
  polecat_List : History -> Result (list Polecat);
  session_IsRunning : History -> string -> bool * option error;
  session_Stop : History -> string -> option error;
  polecat_Remove : History -> string -> RemoveOutcome;
  git_DeleteBranch : History -> string -> string -> option error;
  git_CheckUncommittedWork : History -> string -> Result UncommittedWorkStatus;
  git_StatusClean : History -> string -> Result bool;
  git_BranchPushedToRemote : History -> string -> string -> string -> Result (bool * Z);
  mail_send : History -> string -> string -> string -> string -> option error;
  bd_update : History -> string -> string -> option error;
  mail_inbox : History -> Result (list WitnessMessage);
  polecat_issue : History -> string -> string;  (* [issue_id] of the state file, or empty *)
  bd_issueClosed : History -> string -> Result bool;
  bd_ready : History -> Result (list ReadyIssue);
  bd_isChildOfEpic : History -> string -> string -> Result bool;
  gt_spawn : History -> string -> option error;
  bd_exists : History -> string -> bool;       (* [bd show id] runs without error *)
  gt_bondArm : History -> string -> string -> Result string;
                                               (* the arm id read from the output *)
  fs_saveState : History -> Witness -> option error }.

(** *** The manager's state and its monad *)

(** The manager's cached handoff state ([nil] or a record), the [Witness]
    record that every operation receives by pointer, and the history. *)
Record State := {
  handoffState : option WitnessHandoffState;
  wit : Witness;
  hist : History }.

Definition M (A : Type) : Type := State -> A * State.

Definition ret {A} (a : A) : M A := fun st => (a, st).

Definition bind {A B} (m : M A) (k : A -> M B) : M B :=
  fun st => let (a, st') := m st in k a st'.

Notation "x <- c1 ;; c2" := (bind c1 (fun x => c2))
  (at level 100, c1 at next level, right associativity).
Notation "c1 ;; c2" := (bind c1 (fun _ => c2))
  (at level 100, right associativity).

(** Read an oracle at the present history. *)
Definition ask {A} (f : History -> A) : M A := fun st => (f (hist st), st).

(** Carry out an action whose outcome the world decides. *)
Definition act {A} (f : History -> A) (e : Event) : M A :=
  fun st => (f (hist st),
             {| handoffState := handoffState st; wit := wit st; hist := e :: hist st |}).

Definition getWitness : M Witness := fun st => (wit st, st).

Definition setWitness (w : Witness) : M unit :=
  fun st => (tt, {| handoffState := handoffState st; wit := w; hist := hist st |}).

Definition getHandoff : M (option WitnessHandoffState) := fun st => (handoffState st, st).

Definition setHandoff (h : option WitnessHandoffState) : M unit :=
  fun st => (tt, {| handoffState := h; wit := wit st; hist := hist st |}).

Definition setSpawnedIssues (w : Witness) (l : list string) : Witness :=
  {| RigName := RigName w; Config := Config w; SpawnedIssues := l;
     Stats := Stats w; LastCheckAt := LastCheckAt w;
     MonitoredPolecats := MonitoredPolecats w |}.

Definition setStats (w : Witness) (s : WitnessStats) : Witness :=
  {| RigName := RigName w; Config := Config w; SpawnedIssues := SpawnedIssues w;
     Stats := s; LastCheckAt := LastCheckAt w;
     MonitoredPolecats := MonitoredPolecats w |}.

(** [filepath.Join(a, b)]; the paths only travel to the oracles. *)
Definition pathJoin (a b : string) : string := a +:+ "/" +:+ b.

(** *** The manager's operations *)

Section Manager.

Variable E : Env.
Variable rig : Rig.

(** The constant [HandoffBeadID] of the absent witness/types.go. *)
Variable HandoffBeadID : string.

(** [handoffBeadID] *)
Definition handoffBeadID : string :=
  "gt-" +:+ Name rig +:+ "-" +:+ HandoffBeadID.

(** **** The handoff document *)

Definition emptyHandoff : WitnessHandoffState :=
  {| WorkerStates := ∅; PatrolInstanceID := EmptyString; LastPatrol := None |}.

(** Modelled from the spec: the JSON members of a worker state, in the
    order the spec lists them; the optional ones are left out when empty. *)
Definition workerMembers (ws : WorkerState) : list (string * string) :=
  [("nudge_count", itoa (NudgeCount ws))] ++
  match LastNudge ws with
  | Some t => [("last_nudge", quote (time_MarshalJSON E t))]
  | None => []
  end ++
  match LastActive ws with
  | Some t => [("last_active", quote (time_MarshalJSON E t))]
  | None => []
  end ++
  (if String.eqb (Issue ws) EmptyString then [] else [("issue", quote (Issue ws))]) ++
  (if String.eqb (ArmID ws) EmptyString then [] else [("arm_id", quote (ArmID ws))]).

(** The entries of a map in the order of their keys, as [json.Marshal]
    writes a map. *)
Definition sortedEntries (m : gmap string WorkerState) : list (string * WorkerState) :=
  merge_sort (fun a b => Is_true (String.leb a.1 b.1)) (map_to_list m).

(** Modelled from the spec: the members of the handoff record:
    [worker_states], [patrol_instance_id] and [last_patrol].  An empty map
    of worker states is written as the empty object. *)
Definition handoffMembers (state : WitnessHandoffState) : list (string * string) :=
  [("worker_states",
    renderObject 1
      (map (fun kv => (kv.1, renderObject 2 (workerMembers kv.2)))
           (sortedEntries (WorkerStates state))))] ++
  (if String.eqb (PatrolInstanceID state) EmptyString then []
   else [("patrol_instance_id", quote (PatrolInstanceID state))]) ++
  [("last_patrol",
    match LastPatrol state with
    | Some t => quote (time_MarshalJSON E t)
    | None => "null"
    end)].

(** [json.MarshalIndent(state, "", "  ")] *)
Definition MarshalIndent (state : WitnessHandoffState) : string :=
  renderObject 0 (handoffMembers state).

(** The description that [saveHandoffState] writes into the bead. *)
Definition handoffDescription (state : WitnessHandoffState) : string :=
  "Witness handoff state for " +:+ Name rig +:+ "." +:+ newline +:+ newline +:+
  "```json" +:+ newline +:+ MarshalIndent state +:+ newline +:+ "```".

(** [saveHandoffState] *)
Definition saveHandoffState (state : WitnessHandoffState) : M (option error) :=
  let beadID := handoffBeadID in
  let desc := handoffDescription state in
  act (fun h => bd_update E h beadID desc) (EvBdUpdate beadID desc).

(** The loop of [findMatchingBrace]: [i] is the index of the first byte of
    [s], and the three variables are the loop's. *)
Fixpoint scanBrace (s : string) (i depth : Z) (inString escaped : bool) : Z :=
  match s with
  | EmptyString => -1
  | String c r =>
      if escaped then scanBrace r (i + 1) depth inString false
      else if Ascii.eqb c backslash && inString then scanBrace r (i + 1) depth inString true
      else if Ascii.eqb c dquote then scanBrace r (i + 1) depth (negb inString) false
      else if inString then scanBrace r (i + 1) depth inString false
      else if Ascii.eqb c lbrace then scanBrace r (i + 1) (depth + 1) inString false
      else if Ascii.eqb c rbrace then
        if depth - 1 =? 0 then i
        else scanBrace r (i + 1) (depth - 1) inString false
      else scanBrace r (i + 1) depth inString false
  end.

(** [findMatchingBrace] *)
Definition findMatchingBrace (s : string) : Z := scanBrace s 0 0 false false.

(** The parse step of [loadHandoffState], from the bead's description on. *)
Definition parseHandoffDescription (desc : string) : WitnessHandoffState :=
  let state := emptyHandoff in
  match IndexByte desc lbrace with
  | Some idx =>
      let jsonPart := dropBytes idx desc in
      let endIdx := findMatchingBrace jsonPart in
      if 0 <? endIdx then
        let jsonPart := String.substring 0 (Z.to_nat (endIdx + 1)) jsonPart in
        match json_Unmarshal E jsonPart with
        | Some decoded => decoded
        | None => emptyHandoff
        end
      else state
  | None => state
  end.

(** **** Mail to workers and to the Mayor *)

Definition StuckThresholdMinutes : Z := 30.

(** [sendNudge] *)
Definition sendNudge (polecatName reason : string) : M (option error) :=
  now <- ask (time_Now E) ;;
  let subject := "NUDGE: Cannot shutdown - " +:+ reason in
  let body :=
    "Your shutdown request was denied because: " +:+ reason +:+ newline +:+
    newline +:+
    "Please fix the issue and run 'gt handoff' again." +:+ newline +:+
    newline +:+
    "Polecat: " +:+ polecatName +:+ newline +:+
    "Rig: " +:+ Name rig +:+ newline +:+
    "Time: " +:+ time_Format E now +:+ newline in
  let recipient := Name rig +:+ "/" +:+ polecatName in
  act (fun h => mail_send E h "gt" recipient subject body)
      (EvMailSend "gt" recipient subject body).

(** [escalateToMayor] *)
Definition escalateToMayor (polecatName : string) : M (option error) :=
  now <- ask (time_Now E) ;;
  let subject := "ESCALATION: Polecat " +:+ polecatName +:+ " stuck" in
  let body :=
    "Polecat " +:+ polecatName +:+ " in rig " +:+ Name rig +:+ " appears stuck." +:+ newline +:+
    newline +:+
    "This polecat has been unresponsive for over " +:+ itoa (StuckThresholdMinutes * 2) +:+
      " minutes despite nudging." +:+ newline +:+
    newline +:+
    "Recommended actions:" +:+ newline +:+
    "1. Check 'gt session attach " +:+ Name rig +:+ "/" +:+ polecatName +:+
      "' to see current state" +:+ newline +:+
    "2. If truly stuck, run 'gt session stop " +:+ Name rig +:+ "/" +:+ polecatName +:+
      "' to kill the session" +:+ newline +:+
    "3. Investigate root cause" +:+ newline +:+
    newline +:+
    "Rig: " +:+ Name rig +:+ newline +:+
    "Time: " +:+ time_Format E now +:+ newline in
  act (fun h => mail_send E h "bd" "mayor/" subject body)
      (EvMailSend "bd" "mayor/" subject body).

(** **** Stuck workers *)

(** The number of entries of the scratch list equal to [key]. *)
Definition countEntries (key : string) (l : list string) : Z :=
  Z.of_nat (length (filter (fun entry => entry = key) l)).

(** [getNudgeCount] *)
Definition getNudgeCount (st : State) (polecatName : string) : Z :=
  let legacy := countEntries ("nudge:" +:+ polecatName) (SpawnedIssues (wit st)) in
  match handoffState st with
  | Some hs =>
      match WorkerStates hs !! polecatName with
      | Some ws => NudgeCount ws
      | None => legacy
      end
  | None => legacy
  end.

(** The zero value of [WorkerState], which reading a missing key gives. *)
Definition zeroWorkerState : WorkerState :=
  {| Issue := EmptyString; NudgeCount := 0; LastNudge := None;
     LastActive := None; ArmID := EmptyString |}.

Definition setWorkerStates (hs : WitnessHandoffState) (m : gmap string WorkerState)
  : WitnessHandoffState :=
  {| WorkerStates := m; PatrolInstanceID := PatrolInstanceID hs;
     LastPatrol := LastPatrol hs |}.

(** [recordNudge] *)
Definition recordNudge (polecatName : string) : M unit :=
  now <- ask (time_Now E) ;;
  hs <- getHandoff ;;
  match hs with
  | Some hs =>
      let ws := default zeroWorkerState (WorkerStates hs !! polecatName) in
      let ws := {| Issue := Issue ws; NudgeCount := incr (NudgeCount ws);
                   LastNudge := Some now; LastActive := LastActive ws;
                   ArmID := ArmID ws |} in
      let hs := setWorkerStates hs (<[polecatName := ws]> (WorkerStates hs)) in
      setHandoff (Some hs) ;;
      _ <- saveHandoffState hs ;;
      ret tt
  | None => ret tt
  end ;;
  w <- getWitness ;;
  setWitness (setSpawnedIssues w (SpawnedIssues w ++ ["nudge:" +:+ polecatName])).

(** [handleStuckPolecat] *)
Definition handleStuckPolecat (polecatName : string) : M unit :=
  nudgeCount <- (fun st => (getNudgeCount st polecatName, st)) ;;
  if nudgeCount =? 0 then
    _ <- sendNudge polecatName "No activity detected. Are you still working?" ;;
    recordNudge polecatName ;;
    w <- getWitness ;;
    let s := Stats w in
    setWitness (setStats w {| TotalChecks := TotalChecks s; TodayChecks := TodayChecks s;
                              TotalNudges := incr (TotalNudges s);
                              TodayNudges := incr (TodayNudges s);
                              TotalEscalations := TotalEscalations s |})
  else if nudgeCount =? 1 then
    _ <- escalateToMayor polecatName ;;
    w <- getWitness ;;
    let s := Stats w in
    setWitness (setStats w {| TotalChecks := TotalChecks s; TodayChecks := TodayChecks s;
                              TotalNudges := TotalNudges s;
                              TodayNudges := TodayNudges s;
                              TotalEscalations := incr (TotalEscalations s) |}) ;;
    recordNudge polecatName
  else ret tt.

(** **** Liveness *)

Inductive PolecatHealthStatus := PolecatHealthy | PolecatStuck | PolecatDead.

(** [getLatestModTime], read at history [h] *)
Definition getLatestModTime (h : History) (dir : string) : Time :=
  let locations :=
    [ pathJoin (pathJoin (pathJoin dir ".git") "logs") "HEAD";
      pathJoin (pathJoin dir ".git") "index";
      pathJoin (pathJoin dir ".beads") "issues.jsonl" ] in
  fold_left
    (fun latest loc =>
       match os_ModTime E h loc with
       | Some t => if After t latest then t else latest
       | None => latest
       end)
    locations 0.

(** [checkPolecatHealth], read at history [h] *)
Definition checkPolecatHealth (h : History) (name path : string) : PolecatHealthStatus :=
  let threshold := StuckThresholdMinutes * Minute in
  if match os_ModTime E h (pathJoin path ".git") with
     | Some t => Sub (time_Now E h) t <? threshold
     | None => false
     end
  then PolecatHealthy
  else if match os_ModTime E h (pathJoin (pathJoin path ".runtime") "state.json") with
          | Some t => Sub (time_Now E h) t <? threshold
          | None => false
          end
  then PolecatHealthy
  else
    let latestMod := getLatestModTime h path in
    if negb (IsZero latestMod) && (Sub (time_Now E h) latestMod <? threshold)
    then PolecatHealthy
    else PolecatStuck.

(** [updateWorkerActivity] *)
Definition updateWorkerActivity (polecatName issueID : string) : M unit :=
  hs <- getHandoff ;;
  match hs with
  | Some hs =>
      now <- ask (time_Now E) ;;
      let ws := default zeroWorkerState (WorkerStates hs !! polecatName) in
      let reset := 0 <? NudgeCount ws in
      let ws := {| Issue := if String.eqb issueID EmptyString then Issue ws else issueID;
                   NudgeCount := if reset then 0 else NudgeCount ws;
                   LastNudge := if reset then None else LastNudge ws;
                   LastActive := Some now;
                   ArmID := ArmID ws |} in
      setHandoff (Some (setWorkerStates hs (<[polecatName := ws]> (WorkerStates hs))))
  | None => ret tt
  end.

(** [ensurePolecatArm]; the command that bonds the arm and the reading of
    the arm's id from its output are one oracle. *)
Definition ensurePolecatArm (polecatName : string) : M (option error) :=
  hs <- getHandoff ;;
  match hs with
  | None => ret None
  | Some hs =>
      if String.eqb (PatrolInstanceID hs) EmptyString then ret None
      else
        let ws := default zeroWorkerState (WorkerStates hs !! polecatName) in
        known <- (if String.eqb (ArmID ws) EmptyString then ret false
                  else ask (fun h => bd_exists E h (ArmID ws))) ;;
        if known then ret None
        else
          (if String.eqb (ArmID ws) EmptyString then ret tt
           else
             let ws := {| Issue := Issue ws; NudgeCount := NudgeCount ws;
                          LastNudge := LastNudge ws; LastActive := LastActive ws;
                          ArmID := EmptyString |} in
             setHandoff
               (Some (setWorkerStates hs (<[polecatName := ws]> (WorkerStates hs))))) ;;
          bonded <- act (fun h => gt_bondArm E h (PatrolInstanceID hs) polecatName)
                        (EvBondArm (PatrolInstanceID hs) polecatName) ;;
          match bonded with
          | Err e => ret (Some ("bonding arm: " +:+ e))
          | Ok armID =>
              hs <- getHandoff ;;
              let hs := default emptyHandoff hs in
              let ws := default zeroWorkerState (WorkerStates hs !! polecatName) in
              let ws := {| Issue := Issue ws; NudgeCount := NudgeCount ws;
                           LastNudge := LastNudge ws; LastActive := LastActive ws;
                           ArmID := armID |} in
              let hs := setWorkerStates hs (<[polecatName := ws]> (WorkerStates hs)) in
              setHandoff (Some hs) ;;
              saved <- saveHandoffState hs ;;
              match saved with
              | Some e => ret (Some ("saving handoff state: " +:+ e))
              | None => ret None
              end
          end
  end.

(** **** The cleaner *)

Definition polecatDir (polecatName : string) : string :=
  pathJoin (pathJoin (Path rig) "polecats") polecatName.

(** [verifyPolecatState] *)
Definition verifyPolecatState (polecatName : string) : M (option error) :=
  let polecatPath := polecatDir polecatName in
  missing <- ask (fun h => os_NotExist E h polecatPath) ;;
  if missing then ret None
  else
    status <- ask (fun h => git_StatusClean E h polecatPath) ;;
    match status with
    | Err e => ret (Some ("checking git status: " +:+ e))
    | Ok false => ret (Some "git working tree is not clean")
    | Ok true =>
        let branchName := "polecat/" +:+ polecatName in
        pushed <- ask (fun h => git_BranchPushedToRemote E h polecatPath branchName "origin") ;;
        match pushed with
        | Err _ => ret None
        | Ok (true, _) => ret None
        | Ok (false, unpushedCount) =>
            ret (Some ("branch " +:+ branchName +:+ " has " +:+ itoa unpushedCount +:+
                       " unpushed commit(s) - run 'git push origin " +:+ branchName +:+
                       "' before closing"))
        end
    end.

(** [cleanupPolecat] *)
Definition cleanupPolecat (polecatName : string) : M (option error) :=
  let polecatPath := polecatDir polecatName in
  status <- ask (fun h => git_CheckUncommittedWork E h polecatPath) ;;
  match match status with
        | Err _ => None
        | Ok status =>
            if negb (Clean status)
            then Some ("polecat " +:+ polecatName +:+ " has uncommitted work: " +:+
                       statusString status)
            else None
        end
  with
  | Some refusal => ret (Some refusal)
  | None =>
      running <- ask (fun h => session_IsRunning E h polecatName) ;;
      match running with
      | (true, None) =>
          _ <- act (fun h => session_Stop E h polecatName) (EvSessionStop polecatName) ;;
          ret tt
      | _ => ret tt
      end ;;
      removed <- act (fun h => polecat_Remove E h polecatName) (EvRemoveWorktree polecatName) ;;
      match removed with
      | RemoveFailed e => ret (Some ("removing worktree: " +:+ e))
      | Removed | RemoveNotFound =>
          let branchName := "polecat/" +:+ polecatName in
          let mayorPath := pathJoin (pathJoin (Path rig) "mayor") "rig" in
          _ <- act (fun h => git_DeleteBranch E h mayorPath branchName)
                   (EvDeleteBranch branchName) ;;
          ret None
      end
  end.

(** **** The mailbox *)

(** [saveState]; the callers here drop its error. *)
Definition saveState (w : Witness) : M (option error) :=
  act (fun h => fs_saveState E h w) (EvSaveState w).

(** [ackMessage] *)
Definition ackMessage (id : string) : M unit :=
  act (fun _ => tt) (EvMailAck id).

(** White space as the pattern classes [\s] and [\S] of Go's regexp
    read it: tab, line feed, form feed, carriage return, space. *)
Definition isSpaceRE (c : ascii) : bool :=
  let n := nat_of_ascii c in
  (n =? 9)%nat || (n =? 10)%nat || (n =? 12)%nat || (n =? 13)%nat || (n =? 32)%nat.

Fixpoint skipSpaceRE (s : string) : string :=
  match s with
  | EmptyString => EmptyString
  | String c r => if isSpaceRE c then skipSpaceRE r else s
  end.

Fixpoint takeNonSpaceRE (s : string) : string :=
  match s with
  | EmptyString => EmptyString
  | String c r => if isSpaceRE c then EmptyString else String c (takeNonSpaceRE r)
  end.

(** A match of [Polecat:\s*(\S+)] that starts at the first byte of [s]:
    its first group. *)
Definition matchPolecatAt (s : string) : option string :=
  if String.prefix "Polecat:" s then
    match takeNonSpaceRE (skipSpaceRE (dropBytes 8 s)) with
    | EmptyString => None
    | name => Some name
    end
  else None.

(** [extractPolecatName]: the first group of the leftmost match, or the
    empty string. *)
Fixpoint extractPolecatName (body : string) : string :=
  match matchPolecatAt body with
  | Some name => name
  | None =>
      match body with
      | EmptyString => EmptyString
      | String _ r => extractPolecatName r
      end
  end.

(** [extractPolecatNameFromDone] *)
Definition extractPolecatNameFromDone (subject : string) : string :=
  let prefix := "POLECAT_DONE " in
  if HasPrefix subject prefix then TrimSpace (dropBytes (len prefix) subject)
  else EmptyString.

(** [hasSentDone] *)
Definition hasSentDone (w : Witness) (polecatName : string) : bool :=
  let doneKey := "done:" +:+ polecatName in
  existsb (String.eqb doneKey) (SpawnedIssues w).

(** [recordDone] *)
Definition recordDone (polecatName : string) : M unit :=
  w <- getWitness ;;
  let doneKey := "done:" +:+ polecatName in
  if existsb (String.eqb doneKey) (SpawnedIssues w) then ret tt
  else
    let w := setSpawnedIssues w (SpawnedIssues w ++ [doneKey]) in
    setWitness w ;;
    _ <- saveState w ;;
    ret tt.

(** The body of the loop of [processShutdownRequests], for one message. *)
Definition handleMessage (msg : WitnessMessage) : M unit :=
  if HasPrefix (Subject msg) "POLECAT_DONE " then
    let polecatName := extractPolecatNameFromDone (Subject msg) in
    if String.eqb polecatName EmptyString then ackMessage (ID msg)
    else
      recordDone polecatName ;;
      verr <- verifyPolecatState polecatName ;;
      match verr with
      | Some err => _ <- sendNudge polecatName err ;; ret tt
      | None =>
          cerr <- cleanupPolecat polecatName ;;
          match cerr with
          | Some _ => ret tt
          | None => ackMessage (ID msg)
          end
      end
  else if Contains (Subject msg) "LIFECYCLE:" && Contains (Subject msg) "shutdown" then
    let polecatName := extractPolecatName (Body msg) in
    if String.eqb polecatName EmptyString then ackMessage (ID msg)
    else
      w <- getWitness ;;
      if negb (hasSentDone w polecatName) then
        _ <- sendNudge polecatName "Please run 'gt done' to signal completion" ;;
        ret tt
      else
        verr <- verifyPolecatState polecatName ;;
        match verr with
        | Some err => _ <- sendNudge polecatName err ;; ret tt
        | None =>
            cerr <- cleanupPolecat polecatName ;;
            match cerr with
            | Some _ => ret tt
            | None => ackMessage (ID msg)
            end
        end
  else ret tt.

(** [for _, x := range xs { body }] *)
Fixpoint forEach {A} (body : A -> M unit) (xs : list A) : M unit :=
  match xs with
  | [] => ret tt
  | x :: rest => body x ;; forEach body rest
  end.

(** [processShutdownRequests] *)
Definition processShutdownRequests : M (option error) :=
  messages <- ask (mail_inbox E) ;;
  match messages with
  | Err e => ret (Some ("getting messages: " +:+ e))
  | Ok messages => forEach handleMessage messages ;; ret None
  end.

(** **** Pending completions *)

Definition PendingCompletionTimeout : Duration := 10 * Minute.

(** [getWaitingTimestamp] *)
Fixpoint getWaitingTimestamp (entries : list string) (key : string) : Time :=
  match entries with
  | [] => 0
  | entry :: rest =>
      if HasPrefix entry (key +:+ ":") then
        match time_Parse E (dropBytes (len key + 1) entry) with
        | Some ts => ts
        | None => getWaitingTimestamp rest key
        end
      else getWaitingTimestamp rest key
  end.

(** [recordWaiting] *)
Definition recordWaiting (key : string) : M unit :=
  now <- ask (time_Now E) ;;
  w <- getWitness ;;
  let entry := key +:+ ":" +:+ time_Format E now in
  let w := setSpawnedIssues w (SpawnedIssues w ++ [entry]) in
  setWitness w ;;
  _ <- saveState w ;;
  ret tt.

(** The entries that [clearWaiting] keeps. *)
Definition withoutPrefix (key : string) (entries : list string) : list string :=
  fold_left
    (fun filtered entry =>
       if negb (HasPrefix entry key) then filtered ++ [entry] else filtered)
    entries [].

(** [clearWaiting] *)
Definition clearWaiting (key : string) : M unit :=
  w <- getWitness ;;
  let w := setSpawnedIssues w (withoutPrefix key (SpawnedIssues w)) in
  setWitness w ;;
  _ <- saveState w ;;
  ret tt.

(** The body of the loop of [checkPendingCompletions], for one polecat. *)
Definition checkPendingCompletion (p : Polecat) : M unit :=
  running <- ask (fun h => session_IsRunning E h (PolecatName p)) ;;
  if negb (fst running) then ret tt
  else
    w <- getWitness ;;
    if hasSentDone w (PolecatName p) then ret tt
    else
      issueID <- ask (fun h => polecat_issue E h (ClonePath p)) ;;
      if String.eqb issueID EmptyString then ret tt
      else
        closed <- ask (fun h => bd_issueClosed E h issueID) ;;
        match closed with
        | Err _ | Ok false => ret tt
        | Ok true =>
            let waitKey := "waiting:" +:+ PolecatName p in
            let waitingSince := getWaitingTimestamp (SpawnedIssues w) waitKey in
            if IsZero waitingSince then
              recordWaiting waitKey ;;
              _ <- sendNudge (PolecatName p)
                     "Your issue is closed. Please run 'gt done' to complete shutdown." ;;
              ret tt
            else
              now <- ask (time_Now E) ;;
              if PendingCompletionTimeout <? Sub now waitingSince then
                verr <- verifyPolecatState (PolecatName p) ;;
                match verr with
                | Some _ => _ <- escalateToMayor (PolecatName p) ;; ret tt
                | None =>
                    cerr <- cleanupPolecat (PolecatName p) ;;
                    match cerr with
                    | Some _ => ret tt
                    | None => clearWaiting waitKey
                    end
                end
              else ret tt
        end.

(** [checkPendingCompletions] *)
Definition checkPendingCompletions : M (option error) :=
  polecats <- ask (polecat_List E) ;;
  match polecats with
  | Err e => ret (Some ("listing polecats: " +:+ e))
  | Ok polecats => forEach checkPendingCompletion polecats ;; ret None
  end.

(** **** Auto-spawn *)

(** [isAlreadySpawned] *)
Definition isAlreadySpawned (w : Witness) (issueID : string) : bool :=
  existsb (fun id => String.eqb id issueID) (SpawnedIssues w).

(** [getActivePolecatCount], read at history [h].  A count of list elements
    stays far below 2^63, so the additions on such counts are exact. *)
Definition getActivePolecatCount (h : History) : Result Z :=
  match polecat_List E h with
  | Err e => Err e
  | Ok polecats =>
      Ok (Z.of_nat (length (filter (fun p => fst (session_IsRunning E h (PolecatName p)) = true)
                                   polecats)))
  end.

(** The filter loop of [autoSpawnForReadyWork]: whether an issue can be
    spawned for. *)
Definition spawnable (h : History) (w : Witness) (issue : ReadyIssue) : bool :=
  if String.eqb (Type_ issue) "merge-request" || String.eqb (Type_ issue) "epic" then false
  else if isAlreadySpawned w (ReadyID issue) then false
  else if negb (String.eqb (EpicID (Config w)) EmptyString) &&
          negb match bd_isChildOfEpic E h (ReadyID issue) (EpicID (Config w)) with
               | Ok isChild => isChild
               | Err _ => false
               end
  then false
  else if negb (String.eqb (IssuePrefix (Config w)) EmptyString) &&
          negb (HasPrefix (ReadyID issue) (IssuePrefix (Config w)))
  then false
  else true.

(** The spawn loop of [autoSpawnForReadyWork]; [total] is
    [len(spawnableIssues)] and the result is the final value of [spawned]. *)
Fixpoint spawnLoop (activeCount maxWorkers spawnDelay total : Z)
    (issues : list ReadyIssue) (spawned : Z) : M Z :=
  match issues with
  | [] => ret spawned
  | issue :: rest =>
      if maxWorkers <=? activeCount + spawned then ret spawned
      else
        failed <- act (fun h => gt_spawn E h (ReadyID issue)) (EvSpawn (ReadyID issue)) ;;
        match failed with
        | Some _ => spawnLoop activeCount maxWorkers spawnDelay total rest spawned
        | None =>
            w <- getWitness ;;
            setWitness (setSpawnedIssues w (SpawnedIssues w ++ [ReadyID issue])) ;;
            let spawned := spawned + 1 in
            (if (spawned <? total) && (activeCount + spawned <? maxWorkers)
             then act (fun _ => tt) (EvSleep spawnDelay)
             else ret tt) ;;
            spawnLoop activeCount maxWorkers spawnDelay total rest spawned
        end
  end.

(** [autoSpawnForReadyWork]; beside the error it returns the number of
    workers it spawned. *)
Definition autoSpawnForReadyWork : M (option error * Z) :=
  active <- ask getActivePolecatCount ;;
  match active with
  | Err e => ret (Some ("counting polecats: " +:+ e), 0)
  | Ok activeCount =>
      w <- getWitness ;;
      let maxWorkers := if MaxWorkers (Config w) <=? 0 then 4 else MaxWorkers (Config w) in
      if maxWorkers <=? activeCount then ret (None, 0)
      else
        issues <- ask (bd_ready E) ;;
        match issues with
        | Err e => ret (Some ("getting ready issues: " +:+ e), 0)
        | Ok issues =>
            h <- ask (fun h => h) ;;
            let spawnableIssues := filter (fun issue => spawnable h w issue = true) issues in
            let spawnDelay :=
              if SpawnDelayMs (Config w) <=? 0 then 5000 else SpawnDelayMs (Config w) in
            spawned <- spawnLoop activeCount maxWorkers spawnDelay
                         (Z.of_nat (length spawnableIssues)) spawnableIssues 0 ;;
            if 0 <? spawned then
              w <- getWitness ;;
              err <- saveState w ;;
              ret (err, spawned)
            else ret (None, spawned)
        end
  end.

(** **** The tick *)

(** The body of the loop of [healthCheck], for one polecat; [active] is the
    list that the loop builds. *)
Definition healthCheckOne (active : list string) (p : Polecat) : M (list string) :=
  running <- ask (fun h => session_IsRunning E h (PolecatName p)) ;;
  if fst running then
    _ <- ensurePolecatArm (PolecatName p) ;;
    status <- ask (fun h => checkPolecatHealth h (PolecatName p) (ClonePath p)) ;;
    match status with
    | PolecatStuck => handleStuckPolecat (PolecatName p)
    | PolecatHealthy => updateWorkerActivity (PolecatName p) EmptyString
    | PolecatDead => ret tt
    end ;;
    ret (active ++ [PolecatName p])
  else ret active.

Fixpoint healthCheckLoop (active : list string) (polecats : list Polecat)
  : M (list string) :=
  match polecats with
  | [] => ret active
  | p :: rest =>
      active <- healthCheckOne active p ;;
      healthCheckLoop active rest
  end.

(** [healthCheck] *)
Definition healthCheck : M (option error) :=
  now <- ask (time_Now E) ;;
  w <- getWitness ;;
  let s := Stats w in
  setWitness
    {| RigName := RigName w; Config := Config w; SpawnedIssues := SpawnedIssues w;
       Stats := {| TotalChecks := incr (TotalChecks s); TodayChecks := incr (TodayChecks s);
                   TotalNudges := TotalNudges s; TodayNudges := TodayNudges s;
                   TotalEscalations := TotalEscalations s |};
       LastCheckAt := Some now; MonitoredPolecats := MonitoredPolecats w |} ;;
  polecats <- ask (polecat_List E) ;;
  match polecats with
  | Err e => ret (Some ("listing polecats: " +:+ e))
  | Ok polecats =>
      active <- healthCheckLoop [] polecats ;;
      w <- getWitness ;;
      let w := {| RigName := RigName w; Config := Config w;
                  SpawnedIssues := SpawnedIssues w; Stats := Stats w;
                  LastCheckAt := LastCheckAt w; MonitoredPolecats := active |} in
      setWitness w ;;
      saveState w
  end.

(** [checkAndProcess]: one tick. *)
Definition checkAndProcess : M unit :=
  _ <- healthCheck ;;
  _ <- processShutdownRequests ;;
  _ <- checkPendingCompletions ;;
  w <- getWitness ;;
  (if AutoSpawn (Config w) then _ <- autoSpawnForReadyWork ;; ret tt else ret tt) ;;
  hs <- getHandoff ;;
  match hs with
  | Some hs =>
      now <- ask (time_Now E) ;;
      setHandoff (Some {| WorkerStates := WorkerStates hs;
                          PatrolInstanceID := PatrolInstanceID hs;
                          LastPatrol := Some now |})
  | None => ret tt
  end.

(** **** The handoff bead's first description and the nudge count's reset *)

(** The document that [ensureHandoffBead] writes into the bead it creates. *)
Definition initialDocument : string :=
  "{" +:+ String dquote ("worker_states" +:+ String dquote (": {}, " +:+
    String dquote ("last_patrol" +:+ String dquote ": null}"))).

(** The description that [ensureHandoffBead] gives the bead it creates. *)
Definition initialDescription : string :=
  "Witness handoff state for " +:+ Name rig +:+ "." +:+ newline +:+ newline +:+
  "```json" +:+ newline +:+ initialDocument +:+ newline +:+ "```".

(** [clearNudgeCount] *)
Definition clearNudgeCount (polecatName : string) : M unit :=
  hs <- getHandoff ;;
  match hs with
  | Some hs =>
      match WorkerStates hs !! polecatName with
      | Some ws =>
          now <- ask (time_Now E) ;;
          let ws := {| Issue := Issue ws; NudgeCount := 0; LastNudge := None;
                       LastActive := Some now; ArmID := ArmID ws |} in
          let hs := setWorkerStates hs (<[polecatName := ws]> (WorkerStates hs)) in
          setHandoff (Some hs) ;;
          _ <- saveHandoffState hs ;;
          ret tt
      | None => ret tt
      end
  | None => ret tt
  end.

End Manager.

(** *** Reading texts *)

(** The bytes that [findMatchingBrace] reacts to. *)
Definition special (c : ascii) : bool :=
  Ascii.eqb c backslash || Ascii.eqb c dquote || Ascii.eqb c lbrace || Ascii.eqb c rbrace.

(** A text without any of them. *)
Fixpoint plain (s : string) : bool :=
  match s with
  | EmptyString => true
  | String c r => negb (special c) && plain r
  end.

(** A text that the loop of [findMatchingBrace] passes over, when it meets
    it outside a string and inside a brace, and leaves with the depth it
    came with. *)
Definition neutral (s : string) : Prop :=
  forall r i depth,
    0 < depth ->
    scanBrace (s +:+ r) i depth false false
    = scanBrace r (i + Z.of_nat (String.length s)) depth false false.

(** *** Reading histories *)

(** The destructive actions: killing a session, removing a worktree,
    deleting a branch. *)
Definition destructive (e : Event) : bool :=
  match e with
  | EvSessionStop _ | EvRemoveWorktree _ | EvDeleteBranch _ => true
  | _ => false
  end.

(** The tool and the recipient of every mail of a history, the most recent
    first. *)
Definition mails (h : History) : list (string * string) :=
  omap (fun e => match e with
                 | EvMailSend tool recipient _ _ => Some (tool, recipient)
                 | _ => None
                 end) h.

(** The number of [gt spawn] calls of a history that succeeded. *)
Fixpoint successfulSpawns (E : Env) (h : History) : Z :=
  match h with
  | [] => 0
  | EvSpawn issue :: h' =>
      (match gt_spawn E h' issue with None => 1 | Some _ => 0 end) + successfulSpawns E h'
  | _ :: h' => successfulSpawns E h'
  end.

(** A computation only adds actions that satisfy [P] to the history. *)
Definition emits {A} (P : Event -> Prop) (m : M A) : Prop :=
  forall st, exists evs, hist (m st).2 = evs ++ hist st /\ Forall P evs.

Definition notAck (e : Event) : Prop :=
  match e with EvMailAck _ => False | _ => True end.

Definition ackOf (id : string) (e : Event) : Prop :=
  match e with EvMailAck i => i = id | _ => True end.

(** Modelled from the spec: the mailbox view keeps a message open until it
    is acknowledged.  A message of one drain whose id no later action
    acknowledges is in every later drain that succeeds. *)
Definition mailboxKeepsUnacked (E : Env) : Prop :=
  forall h evs msgs msgs' m,
    mail_inbox E h = Ok msgs -> m ∈ msgs ->
    Forall (fun e => e <> EvMailAck (ID m)) evs ->
    mail_inbox E (evs ++ h) = Ok msgs' ->
    exists m', m' ∈ msgs' /\ ID m' = ID m.

(** The subjects that [processShutdownRequests] dispatches on. *)
Definition recognised (subject : string) : bool :=
  HasPrefix subject "POLECAT_DONE " ||
  (Contains subject "LIFECYCLE:" && Contains subject "shutdown").

(** The issues of the [gt spawn] calls of a history that succeeded, the
    earliest first. *)
Fixpoint spawnedIDs (E : Env) (h : History) : list string :=
  match h with
  | [] => []
  | EvSpawn issue :: h' =>
      spawnedIDs E h' ++ match gt_spawn E h' issue with None => [issue] | Some _ => [] end
  | _ :: h' => spawnedIDs E h'
  end.

(** The kinds of action. *)
Inductive Kind :=
| KMail | KAck | KBead | KSave | KStop | KRemove | KDelete | KSpawn | KBond | KSleep.

Definition kindOf (e : Event) : Kind :=
  match e with
  | EvMailSend _ _ _ _ => KMail
  | EvMailAck _ => KAck
  | EvBdUpdate _ _ => KBead
  | EvSaveState _ => KSave
  | EvSessionStop _ => KStop
  | EvRemoveWorktree _ => KRemove
  | EvDeleteBranch _ => KDelete
  | EvSpawn _ => KSpawn
  | EvBondArm _ _ => KBond
  | EvSleep _ => KSleep
  end.

(** An action of one of the kinds [ks]. *)
Definition only (ks : list Kind) (e : Event) : Prop := In (kindOf e) ks.

(** The history [h] continues [h0] by actions that satisfy [P]. *)
Definition follows (P : Event -> Prop) (h0 h : History) : Prop :=
  exists evs, h = evs ++ h0 /\ Forall P evs.

(** Running [m] from [st] gives a result and a state that [Q] accepts. *)
Definition wp {A} (m : M A) (Q : A -> State -> Prop) (st : State) : Prop :=
  Q (m st).1 (m st).2.

(** What only the health check's own bookkeeping changes in the [Witness]
    record: the rig's name, the configuration, the time and the counters of
    the checks, and the list of monitored polecats. *)
Definition sameSetup (w w' : Witness) : Prop :=
  RigName w' = RigName w /\ Config w' = Config w /\
  LastCheckAt w' = LastCheckAt w /\
  TotalChecks (Stats w') = TotalChecks (Stats w) /\
  TodayChecks (Stats w') = TodayChecks (Stats w) /\
  MonitoredPolecats w' = MonitoredPolecats w.

(** From [st] to [st'] the supervisor has carried out actions that satisfy
    [P] and has left the set-up of the [Witness] record alone. *)
Definition advances (P : Event -> Prop) (st st' : State) : Prop :=
  sameSetup (wit st) (wit st') /\ follows P (hist st) (hist st').

(** The operation [m] carries out only actions of the kinds [ks] and leaves
    the set-up alone, from whatever state it starts. *)
Definition performs (ks : list Kind) {A} (m : M A) : Prop :=
  forall st, advances (only ks) st (m st).2.

(** [s[i]], for an index in range *)
Definition byteAt (s : string) (i : Z) : option ascii :=
  if i <? 0 then None else String.get (Z.to_nat i) s.

(** The inside of a string literal: bytes other than the quote and the
    backslash, and backslashes with the byte they escape. *)
Inductive inner : string -> Prop :=
| inner_nil : inner EmptyString
| inner_byte c r :
    c <> backslash -> c <> dquote -> inner r -> inner (String c r)
| inner_escape c r : inner r -> inner (String backslash (String c r)).

(** A text in which every opening brace outside a string literal has its
    closing brace and every string literal is closed. *)
Inductive balanced : string -> Prop :=
| balanced_plain s : plain s = true -> balanced s
| balanced_literal t :
    inner t -> balanced (String dquote (t +:+ String dquote EmptyString))
| balanced_braces b :
    balanced b -> balanced (String lbrace (b +:+ String rbrace EmptyString))
| balanced_append s t : balanced s -> balanced t -> balanced (s +:+ t).

End Witness.

(** ** Worlds and states for the worked examples *)

Module Examples.
Import GoStrings GoJson Witness.

Definition cleanStatus : UncommittedWorkStatus :=
  {| HasUncommittedChanges := false; ModifiedFiles := []; UntrackedFiles := [];
     StashCount := 0; UnpushedCommits := 0 |}.

Definition oneStash : UncommittedWorkStatus :=
  {| HasUncommittedChanges := false; ModifiedFiles := []; UntrackedFiles := [];
     StashCount := 1; UnpushedCommits := 0 |}.

(** Whether a history acknowledges the message [id]. *)
Definition acked (h : History) (id : string) : bool :=
  existsb (fun e => match e with EvMailAck i => String.eqb i id | _ => false end) h.

(** A world in which every listed polecat runs in a clean, pushed worktree,
    every action succeeds, and the mailbox holds the messages of [inbox] that
    have not been acknowledged. *)
Definition world (now : Time) (parse : string -> option Time)
    (unmarshal : string -> option WitnessHandoffState)
    (mtime : string -> option Time) (polecats : list Polecat)
    (check : Result UncommittedWorkStatus) (inbox : list WitnessMessage)
    (issue : string) (closed : bool) (ready : list ReadyIssue) : Env :=
  {| time_Now := fun _ => now;
     time_Format := fun _ => "2025-06-01T12:00:00Z";
     time_Parse := parse;
     time_MarshalJSON := fun _ => "2025-06-01T12:00:00Z";
     json_Unmarshal := unmarshal;
     os_NotExist := fun _ _ => false;
     os_ModTime := fun _ p => mtime p;
     polecat_List := fun _ => Ok polecats;
     session_IsRunning := fun _ _ => (true, None);
     session_Stop := fun _ _ => None;
     polecat_Remove := fun _ _ => Removed;
     git_DeleteBranch := fun _ _ _ => None;
     git_CheckUncommittedWork := fun _ _ => check;
     git_StatusClean := fun _ _ => Ok true;
     git_BranchPushedToRemote := fun _ _ _ _ => Ok (true, 0);
     mail_send := fun _ _ _ _ _ => None;
     bd_update := fun _ _ _ => None;
     mail_inbox := fun h => Ok (filter (fun m => acked h (ID m) = false) inbox);
     polecat_issue := fun _ _ => issue;
     bd_issueClosed := fun _ _ => Ok closed;
     bd_ready := fun _ => Ok ready;
     bd_isChildOfEpic := fun _ _ _ => Ok true;
     gt_spawn := fun _ _ => None;
     bd_exists := fun _ _ => true;
     gt_bondArm := fun _ _ polecat => Ok ("gt-arm-" +:+ polecat);
     fs_saveState := fun _ _ => None |}.

Definition noTime : string -> option Time := fun _ => None.
Definition noDecode : string -> option WitnessHandoffState := fun _ => None.

(** The quiet world: nothing in the mailbox, no polecats, no ready work. *)
Definition quiet : Env :=
  world 0 noTime noDecode noTime [] (Ok cleanStatus) [] EmptyString false [].

Definition gastown : Rig := {| Name := "gastown"; Path := "/town/gastown" |}.

Definition defaultConfig : WitnessConfig :=
  {| MaxWorkers := 4; SpawnDelayMs := 0; AutoSpawn := true;
     EpicID := EmptyString; IssuePrefix := EmptyString |}.

Definition zeroStats : WitnessStats :=
  {| TotalChecks := 0; TodayChecks := 0; TotalNudges := 0; TodayNudges := 0;
     TotalEscalations := 0 |}.

(** A supervisor state with the given handoff and scratch list, before any
    action. *)
Definition initial (handoff : option WitnessHandoffState) (spawned : list string) : State :=
  {| handoffState := handoff;
     wit := {| RigName := "gastown"; Config := defaultConfig; SpawnedIssues := spawned;
               Stats := zeroStats; LastCheckAt := None; MonitoredPolecats := [] |};
     hist := [] |}.

Definition polecatAt (name : string) : Polecat :=
  {| PolecatName := name; ClonePath := "/town/gastown/polecats/" +:+ name |}.

Definition ready (id : string) : ReadyIssue :=
  {| ReadyID := id; Title := "work"; Type_ := "task"; Status := "open" |}.

Definition message (id subject body : string) : WitnessMessage :=
  {| ID := id; Subject := subject; Body := body; From := "gastown/Toast" |}.

(** A clock reading for the examples, and the one text that the example
    parser understands as that reading. *)
Definition noon : Time := 63884462400 * 1000000000.

Definition parseNoon : string -> option Time :=
  fun s => if String.eqb s "2025-06-01T12:00:00Z" then Some noon else None.

(** Joe runs, the issue [bd-123] assigned to Joe is closed, and the
    supervisor has been waiting since noon; the clock reads [now]. *)
Definition waitingForJoe (now : Time) : Env :=
  world now parseNoon noDecode noTime [polecatAt "Joe"] (Ok cleanStatus) []
    "bd-123" true [].

Definition waitingState : State :=
  initial None ["bd-123"; "waiting:Joe:2025-06-01T12:00:00Z"].

(** A handoff record that is loaded but has no entry for any worker, beside
    a scratch list that an earlier run left with one nudge for Rictus. *)
Definition legacyNudged : State :=
  initial (Some {| WorkerStates := ∅; PatrolInstanceID := EmptyString;
                   LastPatrol := None |})
          ["nudge:Rictus"].

(** A world in which Rictus runs and none of the files that show activity
    exists, so that every health check finds Rictus stuck. *)
Definition rictusStuck : Env :=
  world noon parseNoon noDecode noTime [polecatAt "Rictus"] (Ok cleanStatus) []
    EmptyString false [].

(** A handoff record with one worker, nudged once. *)
Definition toastNudged : WitnessHandoffState :=
  {| WorkerStates :=
       {[ "Toast" := {| Issue := "bd-42"; NudgeCount := 1; LastNudge := Some noon;
                        LastActive := None; ArmID := EmptyString |} ]};
     PatrolInstanceID := "gt-patrol-1";
     LastPatrol := None |}.

(** A decoder that knows one document: the text that [MarshalIndent] gives
    for [toastNudged]. *)
Definition decodeToast : string -> option WitnessHandoffState :=
  fun text =>
    if String.eqb text (MarshalIndent quiet toastNudged) then Some toastNudged else None.

Definition decoding : Env :=
  world noon parseNoon decodeToast noTime [] (Ok cleanStatus) [] EmptyString false [].

(** A rig whose name has an opening brace in it. *)
Definition braced : Rig := {| Name := "gas{town"; Path := "/town/gas{town" |}.

End Examples.

(** * Proofs *)

Module StringFacts.
Import GoStrings.

(** *** Facts about [Split], [lastByte] and [dropLast] *)


Lemma Split_nonempty s sep : Split s sep <> [].
Proof.
  destruct s as [|c r]; simpl; [discriminate|].
  destruct (Ascii.eqb c sep); [discriminate|].
  destruct (Split r sep); discriminate.
Qed.

Lemma Split_noByte s sep : noByte sep s -> Split s sep = [s].
Proof.
  unfold noByte. induction s as [|c r IH]; simpl; [reflexivity|].
  destruct (Ascii.eqb c sep); [discriminate|].
  destruct (IndexByte r sep); [discriminate|].
  intros _. rewrite IH; reflexivity.
Qed.

Lemma Split_app s t sep :
  noByte sep s ->
  Split (s +:+ String sep t) sep = s :: Split t sep.
Proof.
  unfold noByte. induction s as [|c r IH]; simpl.
  - rewrite Ascii.eqb_refl. reflexivity.
  - destruct (Ascii.eqb c sep); [discriminate|].
    destruct (IndexByte r sep); [discriminate|].
    intros _. rewrite IH; reflexivity.
Qed.

Lemma Split_parts s sep : Forall (noByte sep) (Split s sep).
Proof.
  induction s as [|c r IH]; simpl.
  - repeat constructor.
  - destruct (Ascii.eqb c sep) eqn:E.
    + constructor; [reflexivity | exact IH].
    + destruct (Split r sep) as [|p ps];
        [repeat constructor; unfold noByte; simpl; rewrite E; reflexivity |].
      inversion IH as [|? ? Hp Hps]; subst.
      constructor; [|exact Hps].
      unfold noByte in *. simpl. rewrite E, Hp. reflexivity.
Qed.

Lemma Join_Split s sep : Join (Split s sep) sep = s.
Proof.
  induction s as [|c r IH]; simpl; [reflexivity|].
  destruct (Ascii.eqb c sep) eqn:E.
  - apply Ascii.eqb_eq in E. subst c.
    pose proof (Split_nonempty r sep) as Hne.
    destruct (Split r sep) as [|p ps]; [congruence|].
    simpl in *. rewrite IH. reflexivity.
  - pose proof (Split_nonempty r sep) as Hne.
    destruct (Split r sep) as [|p ps]; [congruence|].
    destruct ps as [|q qs]; simpl in *; rewrite <- IH; reflexivity.
Qed.

Lemma append_assoc s t u : (s +:+ t) +:+ u = s +:+ (t +:+ u).
Proof.
  induction s as [|c r IH]; [reflexivity|].
  change (String c ((r +:+ t) +:+ u) = String c (r +:+ (t +:+ u))).
  rewrite IH. reflexivity.
Qed.

Lemma lastByte_cons c r :
  lastByte (String c r) = match lastByte r with Some l => Some l | None => Some c end.
Proof. reflexivity. Qed.

Lemma lastByte_app_cons s t c :
  lastByte (s +:+ String c t) = lastByte (String c t).
Proof.
  induction s as [|d r IH]; [reflexivity|].
  change (String d r +:+ String c t) with (String d (r +:+ String c t)).
  rewrite lastByte_cons, IH, lastByte_cons.
  destruct (lastByte t); reflexivity.
Qed.

Lemma lastByte_app s c : lastByte (s +:+ String c EmptyString) = Some c.
Proof. rewrite lastByte_app_cons. reflexivity. Qed.

Lemma lastByte_None s : lastByte s = None -> s = EmptyString.
Proof.
  destruct s as [|c r]; [reflexivity|].
  rewrite lastByte_cons. destruct (lastByte r); discriminate.
Qed.

(** A non-empty string is its [dropLast] followed by its [lastByte]. *)
Lemma dropLast_lastByte s l :
  lastByte s = Some l -> s = dropLast s +:+ String l EmptyString.
Proof.
  induction s as [|c r IH]; [discriminate|].
  rewrite lastByte_cons. destruct r as [|d r].
  - simpl. intros [= <-]. reflexivity.
  - destruct (lastByte (String d r)) as [l'|] eqn:El.
    + intros [= <-].
      change (dropLast (String c (String d r))) with (String c (dropLast (String d r))).
      change (String c (dropLast (String d r)) +:+ String l' EmptyString)
        with (String c (dropLast (String d r) +:+ String l' EmptyString)).
      f_equal. apply IH. reflexivity.
    + apply lastByte_None in El. discriminate.
Qed.

Lemma lastByte_noByte s c : noByte c s -> lastByte s <> Some c.
Proof.
  unfold noByte. induction s as [|d r IH]; [discriminate|].
  simpl IndexByte. destruct (Ascii.eqb d c) eqn:E; [discriminate|].
  destruct (IndexByte r c); [discriminate|]. intros _.
  rewrite lastByte_cons. destruct (lastByte r) as [l|] eqn:El.
  - apply IH. reflexivity.
  - intros [= ->]. rewrite Ascii.eqb_refl in E. discriminate.
Qed.

End StringFacts.

Module MailFacts.
Import GoStrings StringFacts Mail.

Lemma addressToIdentity_steps a :
  addressToIdentity a =
  match townLevel a with Some t => t | None => collapse (trimSlash a) end.
Proof.
  unfold addressToIdentity, townLevel, collapse, trimSlash.
  destruct (String.eqb a "mayor" || String.eqb a "mayor/"); [reflexivity|].
  destruct (String.eqb a "deacon" || String.eqb a "deacon/"); reflexivity.
Qed.

Lemma identityToAddress_steps a :
  identityToAddress a =
  match townLevel a with Some t => t | None => collapse a end.
Proof.
  unfold identityToAddress, townLevel, collapse.
  destruct (String.eqb a "mayor" || String.eqb a "mayor/"); [reflexivity|].
  destruct (String.eqb a "deacon" || String.eqb a "deacon/"); reflexivity.
Qed.

Lemma townLevel_Some a t : townLevel a = Some t -> t = "mayor/" \/ t = "deacon/".
Proof.
  unfold townLevel.
  destruct (String.eqb a "mayor" || String.eqb a "mayor/"); [intros [= <-]; auto|].
  destruct (String.eqb a "deacon" || String.eqb a "deacon/"); [intros [= <-]; auto|].
  discriminate.
Qed.

Lemma townLevel_None a :
  townLevel a = None ->
  a <> "mayor" /\ a <> "mayor/" /\ a <> "deacon" /\ a <> "deacon/".
Proof.
  unfold townLevel.
  destruct (String.eqb a "mayor") eqn:E1; [discriminate|].
  destruct (String.eqb a "mayor/") eqn:E2; [discriminate|].
  destruct (String.eqb a "deacon") eqn:E3; [discriminate|].
  destruct (String.eqb a "deacon/") eqn:E4; [discriminate|].
  intros _. apply String.eqb_neq in E1, E2, E3, E4. auto.
Qed.

Lemma townLevel_fixed a t :
  townLevel a = Some t \/ (a = t /\ (t = "mayor/" \/ t = "deacon/")) ->
  townLevel t = Some t.
Proof.
  intros [H | [_ H]]; [apply townLevel_Some in H|]; destruct H; subst; reflexivity.
Qed.

(** A collapsed pair [p0/p2] has a slash in it, so it is neither [mayor]
    nor [deacon]. *)
Lemma pair_not_bare p0 p2 :
  p0 +:+ "/" +:+ p2 <> "mayor" /\ p0 +:+ "/" +:+ p2 <> "deacon".
Proof.
  assert (H : forall s, noByte slash s -> p0 +:+ "/" +:+ p2 <> s).
  { intros s Hs Heq. unfold noByte in Hs. rewrite <- Heq in Hs.
    clear Heq. induction p0 as [|c r IH]; simpl in Hs; [discriminate|].
    destruct (Ascii.eqb c slash); [discriminate|].
    destruct (IndexByte (r +:+ "/" +:+ p2) slash); [discriminate|]. auto. }
  split; apply H; reflexivity.
Qed.

(** Collapsing is idempotent: its result never has three parts. *)
Lemma collapse_collapse a : collapse (collapse a) = collapse a.
Proof.
  pose proof (Split_parts a slash) as Hp.
  destruct (String.eqb (collapse a) a) eqn:Hsame.
  { apply String.eqb_eq in Hsame. rewrite Hsame. exact Hsame. }
  apply String.eqb_neq in Hsame. unfold collapse in Hsame |- * .
  destruct (Split a slash) as [|p0 [|p1 [|p2 [|p3 ps]]]]; try congruence.
  destruct (String.eqb p1 "crew" || String.eqb p1 "polecats"); try congruence.
  apply Forall_cons in Hp as [H0 Hp]. apply Forall_cons in Hp as [H1 Hp].
  apply Forall_cons in Hp as [H2 _].
  change (p0 +:+ "/" +:+ p2) with (p0 +:+ String slash p2).
  rewrite (Split_app p0 p2 slash H0), (Split_noByte p2 slash H2). reflexivity.
Qed.

Lemma collapse_bare a :
  a <> "mayor" -> a <> "deacon" ->
  collapse a <> "mayor" /\ collapse a <> "deacon".
Proof.
  intros Hm Hd. unfold collapse.
  destruct (Split a slash) as [|p0 [|p1 [|p2 [|p3 ps]]]]; auto.
  destruct (String.eqb p1 "crew" || String.eqb p1 "polecats"); auto.
  apply pair_not_bare.
Qed.

Lemma trimSlash_cases a :
  (trimSlash a = a /\ lastByte a <> Some slash) \/
  (a = trimSlash a +:+ "/" /\ lastByte a = Some slash).
Proof.
  unfold trimSlash.
  destruct (lastByte a) as [c|] eqn:El.
  - destruct (Ascii.eqb c slash) eqn:E.
    + apply Ascii.eqb_eq in E. subst c. right.
      assert (Hlen : (0 <? len a)%nat = true).
      { destruct a; [discriminate | reflexivity]. }
      rewrite Hlen. simpl. split; [|reflexivity].
      apply (dropLast_lastByte a slash El).
    + left. rewrite andb_false_r. split; [reflexivity|].
      intros [= ->]. rewrite Ascii.eqb_refl in E. discriminate.
  - left. rewrite andb_false_r. split; [reflexivity | discriminate].
Qed.

Lemma trimSlash_bare a :
  townLevel a = None -> trimSlash a <> "mayor" /\ trimSlash a <> "deacon".
Proof.
  intros Ht. apply townLevel_None in Ht. destruct Ht as (H1 & H2 & H3 & H4).
  destruct (trimSlash_cases a) as [[-> _] | [Ha _]]; [auto|].
  split; intros E; rewrite E in Ha; compute in Ha; congruence.
Qed.

Lemma HasSuffix_app b suf : HasSuffix (b +:+ suf) suf = true.
Proof.
  induction b as [|c r IH].
  - change (HasSuffix suf suf = true).
    destruct suf; cbn [HasSuffix]; rewrite String.eqb_refl; reflexivity.
  - change (HasSuffix (String c (r +:+ suf)) suf = true).
    cbn [HasSuffix]. rewrite IH. apply orb_true_r.
Qed.

Lemma trimSlash_no_slash a :
  HasSuffix a "//" = false -> lastByte (trimSlash a) <> Some slash.
Proof.
  intros Hs. destruct (trimSlash_cases a) as [[-> H] | [Ha _]]; [exact H|].
  intros El. apply dropLast_lastByte in El.
  remember (dropLast (trimSlash a)) as b eqn:Eb. clear Eb.
  rewrite El, append_assoc in Ha.
  pose proof (HasSuffix_app b "//") as Hb.
  change (String slash EmptyString +:+ "/") with "//" in Ha.
  rewrite <- Ha in Hb. congruence.
Qed.

Lemma collapse_no_slash a :
  lastByte a <> Some slash -> lastByte (collapse a) <> Some slash.
Proof.
  intros Hl. unfold collapse.
  pose proof (Split_parts a slash) as Hp.
  pose proof (Join_Split a slash) as Hj.
  destruct (Split a slash) as [|p0 [|p1 [|p2 [|p3 ps]]]]; auto.
  destruct (String.eqb p1 "crew" || String.eqb p1 "polecats"); auto.
  apply Forall_cons in Hp as [H0 Hp]. apply Forall_cons in Hp as [H1 Hp].
  apply Forall_cons in Hp as [H2 _].
  change (p0 +:+ "/" +:+ p2) with (p0 +:+ String slash p2).
  rewrite lastByte_app_cons, lastByte_cons.
  destruct (lastByte p2) as [l|] eqn:E2.
  - rewrite <- E2. apply lastByte_noByte. exact H2.
  - apply lastByte_None in E2. subst p2. exfalso. apply Hl.
    rewrite <- Hj. cbn [Join].
    rewrite lastByte_app_cons, lastByte_cons, lastByte_app_cons. reflexivity.
Qed.

Lemma trimSlash_id a : lastByte a <> Some slash -> trimSlash a = a.
Proof.
  intros Hl. destruct (trimSlash_cases a) as [[H _] | [_ H]]; [exact H | contradiction].
Qed.

(** [identityToAddress] leaves every identity that [addressToIdentity]
    produces as it is. *)
Lemma identityToAddress_addressToIdentity a :
  identityToAddress (addressToIdentity a) = addressToIdentity a.
Proof.
  rewrite identityToAddress_steps, addressToIdentity_steps.
  destruct (townLevel a) as [t|] eqn:Ht.
  - rewrite (townLevel_fixed a t); auto.
  - destruct (trimSlash_bare a Ht) as [Hm Hd].
    destruct (collapse_bare _ Hm Hd) as [Hm' Hd'].
    destruct (townLevel (collapse (trimSlash a))) as [t|] eqn:Ht'.
    + unfold townLevel in Ht'.
      destruct (String.eqb (collapse (trimSlash a)) "mayor") eqn:E1;
        [apply String.eqb_eq in E1; contradiction|].
      destruct (String.eqb (collapse (trimSlash a)) "mayor/") eqn:E2;
        [apply String.eqb_eq in E2; simpl in Ht'; congruence|].
      destruct (String.eqb (collapse (trimSlash a)) "deacon") eqn:E3;
        [apply String.eqb_eq in E3; contradiction|].
      destruct (String.eqb (collapse (trimSlash a)) "deacon/") eqn:E4;
        [apply String.eqb_eq in E4; simpl in Ht'; congruence|].
      discriminate.
    + apply collapse_collapse.
Qed.

Lemma addressToIdentity_idempotent a :
  HasSuffix a "//" = false ->
  addressToIdentity (addressToIdentity a) = addressToIdentity a.
Proof.
  intros Hs.
  rewrite (addressToIdentity_steps a).
  destruct (townLevel a) as [t|] eqn:Ht.
  - rewrite addressToIdentity_steps, (townLevel_fixed a t); auto.
  - pose proof (collapse_no_slash _ (trimSlash_no_slash a Hs)) as Hl.
    rewrite addressToIdentity_steps.
    destruct (townLevel (collapse (trimSlash a))) as [t|] eqn:Ht'.
    + destruct (trimSlash_bare a Ht) as [Hm Hd].
      destruct (collapse_bare _ Hm Hd) as [Hm' Hd'].
      unfold townLevel in Ht'.
      destruct (String.eqb (collapse (trimSlash a)) "mayor") eqn:E1;
        [apply String.eqb_eq in E1; contradiction|].
      destruct (String.eqb (collapse (trimSlash a)) "mayor/") eqn:E2;
        [apply String.eqb_eq in E2; simpl in Ht'; congruence|].
      destruct (String.eqb (collapse (trimSlash a)) "deacon") eqn:E3;
        [apply String.eqb_eq in E3; contradiction|].
      destruct (String.eqb (collapse (trimSlash a)) "deacon/") eqn:E4;
        [apply String.eqb_eq in E4; simpl in Ht'; congruence|].
      discriminate.
    + rewrite (trimSlash_id _ Hl). apply collapse_collapse.
Qed.


Lemma Split_rig_role_name rig role x :
  noByte slash rig -> noByte slash role -> noByte slash x ->
  Split (rig +:+ String slash (role +:+ String slash x)) slash = [rig; role; x].
Proof.
  intros Hr Ho Hx.
  rewrite (Split_app rig _ slash Hr), (Split_app role _ slash Ho),
    (Split_noByte x slash Hx).
  reflexivity.
Qed.

(** An address [rig/role/name] whose three segments are free of slashes
    and whose role is crew or polecats becomes [rig/name]. *)
Lemma addressToIdentity_collapses rig role x :
  noByte slash rig -> noByte slash x -> x <> EmptyString ->
  role = "crew" \/ role = "polecats" ->
  addressToIdentity (rig +:+ "/" +:+ role +:+ "/" +:+ x) = rig +:+ "/" +:+ x.
Proof.
  intros Hr Hx Hne Hrole.
  assert (Ho : noByte slash role) by (destruct Hrole; subst; reflexivity).
  pose proof (Split_rig_role_name rig role x Hr Ho Hx) as Hs.
  change (rig +:+ "/" +:+ role +:+ "/" +:+ x)
    with (rig +:+ String slash (role +:+ String slash x)).
  set (a := rig +:+ String slash (role +:+ String slash x)) in *.
  assert (Hl : lastByte a <> Some slash).
  { unfold a. rewrite lastByte_app_cons, lastByte_cons, lastByte_app_cons, lastByte_cons.
    destruct (lastByte x) as [l|] eqn:El.
    - rewrite <- El. apply lastByte_noByte. exact Hx.
    - apply lastByte_None in El. contradiction. }
  assert (Ht : townLevel a = None).
  { unfold townLevel.
    destruct (String.eqb a "mayor") eqn:E1;
      [apply String.eqb_eq in E1; rewrite E1 in Hs; discriminate|].
    destruct (String.eqb a "mayor/") eqn:E2;
      [apply String.eqb_eq in E2; rewrite E2 in Hs; discriminate|].
    destruct (String.eqb a "deacon") eqn:E3;
      [apply String.eqb_eq in E3; rewrite E3 in Hs; discriminate|].
    destruct (String.eqb a "deacon/") eqn:E4;
      [apply String.eqb_eq in E4; rewrite E4 in Hs; discriminate|].
    reflexivity. }
  rewrite addressToIdentity_steps, Ht, (trimSlash_id a Hl).
  unfold collapse. rewrite Hs.
  destruct Hrole; subst role; reflexivity.
Qed.

(** C8, in the form that holds of the code.
    [identityToAddress (addressToIdentity a)] equals [canonicalize a] for
    every string [a]; canonicalization is idempotent on every address that
    does not end in two slashes; it sends [rig/polecats/X] and [rig/crew/X]
    to [rig/X] and gives mayor and deacon their trailing slash. *)
Theorem canonicalize_roundtrip_and_idempotent (a : string) :
  identityToAddress (addressToIdentity a) = canonicalize a /\
  (HasSuffix a "//" = false -> canonicalize (canonicalize a) = canonicalize a) /\
  (forall rig x, noByte slash rig -> noByte slash x -> x <> EmptyString ->
     canonicalize (rig +:+ "/polecats/" +:+ x) = rig +:+ "/" +:+ x /\
     canonicalize (rig +:+ "/crew/" +:+ x) = rig +:+ "/" +:+ x) /\
  canonicalize "mayor" = "mayor/" /\ canonicalize "mayor/" = "mayor/" /\
  canonicalize "deacon" = "deacon/" /\ canonicalize "deacon/" = "deacon/".
Proof.
  unfold canonicalize.
  split; [apply identityToAddress_addressToIdentity|].
  split; [apply addressToIdentity_idempotent|].
  split; [|repeat split; reflexivity].
  intros rig x Hr Hx Hne. split.
  - apply (addressToIdentity_collapses rig "polecats" x); auto.
  - apply (addressToIdentity_collapses rig "crew" x); auto.
Qed.

(** The statement above at the address [gastown/polecats/Toast]. *)
Lemma canonicalize_roundtrip_and_idempotent_witness :
  identityToAddress (addressToIdentity "gastown/polecats/Toast") = "gastown/Toast" /\
  canonicalize (canonicalize "gastown/polecats/Toast") = "gastown/Toast".
Proof.
  destruct (canonicalize_roundtrip_and_idempotent "gastown/polecats/Toast")
    as (Hrt & Hid & _).
  split; [exact Hrt | exact (Hid eq_refl)].
Defined.

(** Against C8 as the specification words it: an address with a doubled
    trailing slash loses one slash at each pass, so canonicalizing twice
    differs from canonicalizing once. *)
Lemma canonicalize_not_idempotent :
  canonicalize "gastown//" = "gastown/" /\
  canonicalize (canonicalize "gastown//") = "gastown" /\
  canonicalize (canonicalize "gastown//") <> canonicalize "gastown//".
Proof. repeat split; vm_compute; congruence. Qed.

End MailFacts.

Module WitnessFacts.
Import GoStrings StringFacts GoJson Witness.

(** ** Strings *)

Lemma prefix_refl s : String.prefix s s = true.
Proof.
  induction s as [|c r IH]; [reflexivity|].
  simpl. destruct (ascii_dec c c); [exact IH | congruence].
Qed.

Lemma prefix_app_r p s t : String.prefix p s = true -> String.prefix p (s +:+ t) = true.
Proof.
  revert s. induction p as [|c r IH]; intros s H.
  - destruct (s +:+ t); reflexivity.
  - destruct s as [|d s]; [discriminate|].
    change (String d s +:+ t) with (String d (s +:+ t)).
    simpl in *. destruct (ascii_dec c d); [apply IH; exact H | discriminate].
Qed.

Lemma prefix_app_same a p s : String.prefix (a +:+ p) (a +:+ s) = String.prefix p s.
Proof.
  induction a as [|c r IH]; [reflexivity|].
  change (String.prefix (String c (r +:+ p)) (String c (r +:+ s)) = String.prefix p s).
  simpl. destruct (ascii_dec c c); [exact IH | congruence].
Qed.

(** ** The loop of [clearWaiting] is a filter *)

Lemma withoutPrefix_acc key entries acc :
  fold_left
    (fun filtered entry =>
       if negb (HasPrefix entry key) then filtered ++ [entry] else filtered)
    entries acc
  = acc ++ filter (fun entry => HasPrefix entry key = false) entries.
Proof.
  revert acc. induction entries as [|e l IH]; intros acc; simpl.
  - rewrite app_nil_r. reflexivity.
  - rewrite IH. rewrite filter_cons.
    destruct (HasPrefix e key) eqn:He; simpl.
    + destruct (decide (true = false)); [discriminate | reflexivity].
    + destruct (decide (false = false)); [|congruence].
      rewrite <- app_assoc. reflexivity.
Qed.

Lemma withoutPrefix_filter key entries :
  withoutPrefix key entries = filter (fun entry => HasPrefix entry key = false) entries.
Proof. unfold withoutPrefix. rewrite withoutPrefix_acc. reflexivity. Qed.

(** C10.  [clearWaiting] for the key [waiting:N] keeps exactly the entries
    that do not begin with the bare text [waiting:N], in their order; so the
    waiting entries of every worker whose name begins with [N] go as well. *)
Theorem clearWaiting_bare_prefix (E : Env) (N : string) (st : State) :
  let key := "waiting:" +:+ N in
  let before := SpawnedIssues (wit st) in
  let after := SpawnedIssues (wit (clearWaiting E key st).2) in
  after = filter (fun entry => HasPrefix entry key = false) before /\
  (forall entry, entry ∈ after <-> entry ∈ before /\ HasPrefix entry key = false) /\
  sublist after before /\
  (forall other ts, String.prefix N other = true ->
     ("waiting:" +:+ other +:+ ":" +:+ ts) ∉ after).
Proof.
  intros key before after.
  assert (Hafter : after = filter (fun entry => HasPrefix entry key = false) before).
  { unfold after, clearWaiting, bind, getWitness, setWitness, saveState, act, ret.
    simpl. apply withoutPrefix_filter. }
  split; [exact Hafter|].
  split; [intros entry; rewrite Hafter, list_elem_of_filter; tauto|].
  split; [rewrite Hafter; apply sublist_filter|].
  intros other ts Hp Hin. rewrite Hafter in Hin.
  apply list_elem_of_filter in Hin as [Hno _].
  unfold HasPrefix, key in Hno.
  rewrite prefix_app_same in Hno.
  rewrite (prefix_app_r N other _ Hp) in Hno. discriminate.
Qed.

(** Clearing Joe's waiting entry also drops Joey's. *)
Example clearWaiting_Joe_drops_Joey :
  withoutPrefix "waiting:Joe"
    ["bd-1"; "waiting:Joey:2025-01-01T00:00:00Z"; "done:Max";
     "waiting:Joe:2025-01-01T00:05:00Z"; "nudge:Joe"]
  = ["bd-1"; "done:Max"; "nudge:Joe"].
Proof. reflexivity. Qed.

(** ** Liveness *)

Lemma Sub_old now t window :
  window <= maxDuration -> t <= now - window -> window <= Sub now t.
Proof. unfold Sub, minDuration, maxDuration. lia. Qed.

(** [getLatestModTime] is the most recent of the modification times of its
    three files, and the zero time when none of them is there. *)
Lemma getLatestModTime_latest E h dir :
  let head := os_ModTime E h (pathJoin (pathJoin (pathJoin dir ".git") "logs") "HEAD") in
  let index := os_ModTime E h (pathJoin (pathJoin dir ".git") "index") in
  let issues := os_ModTime E h (pathJoin (pathJoin dir ".beads") "issues.jsonl") in
  let latest := getLatestModTime E h dir in
  (latest = 0 \/ head = Some latest \/ index = Some latest \/ issues = Some latest) /\
  0 <= latest /\
  (forall t, head = Some t \/ index = Some t \/ issues = Some t -> t <= latest).
Proof.
  intros head index issues latest.
  assert (Hmax : forall l t, (if After t l then t else l) = Z.max l t).
  { intros l t. unfold After. destruct (Z.ltb_spec l t); lia. }
  unfold latest, getLatestModTime. simpl. fold head index issues.
  destruct head as [t1|], index as [t2|], issues as [t3|];
    rewrite ?Hmax;
    (split; [|split; [lia | intros t [Ht | [Ht | Ht]]; inversion Ht; subst; lia]]).
  - assert (H : Z.max (Z.max (Z.max 0 t1) t2) t3 = 0 \/
                Z.max (Z.max (Z.max 0 t1) t2) t3 = t1 \/
                Z.max (Z.max (Z.max 0 t1) t2) t3 = t2 \/
                Z.max (Z.max (Z.max 0 t1) t2) t3 = t3) by lia.
    destruct H as [H | [H | [H | H]]]; rewrite H; auto.
  - assert (H : Z.max (Z.max 0 t1) t2 = 0 \/ Z.max (Z.max 0 t1) t2 = t1 \/
                Z.max (Z.max 0 t1) t2 = t2) by lia.
    destruct H as [H | [H | H]]; rewrite H; auto.
  - assert (H : Z.max (Z.max 0 t1) t3 = 0 \/ Z.max (Z.max 0 t1) t3 = t1 \/
                Z.max (Z.max 0 t1) t3 = t3) by lia.
    destruct H as [H | [H | H]]; rewrite H; auto.
  - assert (H : Z.max 0 t1 = 0 \/ Z.max 0 t1 = t1) by lia.
    destruct H as [H | H]; rewrite H; auto.
  - assert (H : Z.max (Z.max 0 t2) t3 = 0 \/ Z.max (Z.max 0 t2) t3 = t2 \/
                Z.max (Z.max 0 t2) t3 = t3) by lia.
    destruct H as [H | [H | H]]; rewrite H; auto.
  - assert (H : Z.max 0 t2 = 0 \/ Z.max 0 t2 = t2) by lia.
    destruct H as [H | H]; rewrite H; auto.
  - assert (H : Z.max 0 t3 = 0 \/ Z.max 0 t3 = t3) by lia.
    destruct H as [H | H]; rewrite H; auto.
  - auto.
Qed.

(** C7.  [checkPolecatHealth] answers healthy exactly when the
    modification time of [.git], or of [.runtime/state.json], or the most
    recent of the three canonical files (the git HEAD log, the git index,
    the issues file), is less than 30 minutes before now; otherwise it
    answers stuck.  A worker all of whose modification times are 30 minutes
    old or older, also exactly 30 minutes, is stuck. *)
Theorem checkPolecatHealth_window (E : Env) (h : History) (name path : string) :
  let now := time_Now E h in
  let window := 30 * Minute in
  let recent (m : option Time) := exists t, m = Some t /\ Sub now t < window in
  let latest := getLatestModTime E h path in
  (checkPolecatHealth E h name path = PolecatHealthy <->
     recent (os_ModTime E h (pathJoin path ".git")) \/
     recent (os_ModTime E h (pathJoin (pathJoin path ".runtime") "state.json")) \/
     (latest <> 0 /\ Sub now latest < window)) /\
  (checkPolecatHealth E h name path <> PolecatHealthy ->
     checkPolecatHealth E h name path = PolecatStuck) /\
  ((forall p t, os_ModTime E h p = Some t -> t <= now - window) ->
     checkPolecatHealth E h name path = PolecatStuck) /\
  (let head := os_ModTime E h (pathJoin (pathJoin (pathJoin path ".git") "logs") "HEAD") in
   let index := os_ModTime E h (pathJoin (pathJoin path ".git") "index") in
   let issues := os_ModTime E h (pathJoin (pathJoin path ".beads") "issues.jsonl") in
   (latest = 0 \/ head = Some latest \/ index = Some latest \/ issues = Some latest) /\
   (forall t, head = Some t \/ index = Some t \/ issues = Some t -> t <= latest)).
Proof.
  intros now window recent latest.
  assert (Hlatest_is :
   let head := os_ModTime E h (pathJoin (pathJoin (pathJoin path ".git") "logs") "HEAD") in
   let index := os_ModTime E h (pathJoin (pathJoin path ".git") "index") in
   let issues := os_ModTime E h (pathJoin (pathJoin path ".beads") "issues.jsonl") in
   (latest = 0 \/ head = Some latest \/ index = Some latest \/ issues = Some latest) /\
   (forall t, head = Some t \/ index = Some t \/ issues = Some t -> t <= latest)).
  { destruct (getLatestModTime_latest E h path) as (H1 & _ & H3). split; assumption. }
  assert (Hiff : checkPolecatHealth E h name path = PolecatHealthy <->
     recent (os_ModTime E h (pathJoin path ".git")) \/
     recent (os_ModTime E h (pathJoin (pathJoin path ".runtime") "state.json")) \/
     (latest <> 0 /\ Sub now latest < window)).
  { assert (Hrecent : forall m,
              match m with Some t => Sub now t <? window | None => false end = true
              <-> recent m).
    { intros [t|]; unfold recent; split.
      - intros H. exists t. split; [reflexivity | apply Z.ltb_lt; exact H].
      - intros [t' [[= <-] H]]. apply Z.ltb_lt. exact H.
      - discriminate.
      - intros [t' [[=] _]]. }
    assert (Hlatest : negb (IsZero latest) && (Sub now latest <? window) = true
                      <-> latest <> 0 /\ Sub now latest < window).
    { unfold IsZero. rewrite andb_true_iff, negb_true_iff, Z.eqb_neq, Z.ltb_lt.
      reflexivity. }
    rewrite <- !Hrecent, <- Hlatest.
    unfold checkPolecatHealth. fold now latest.
    change (StuckThresholdMinutes * Minute) with window.
    destruct (match os_ModTime E h (pathJoin path ".git") with
              | Some t => Sub now t <? window | None => false end);
      [split; auto|].
    destruct (match os_ModTime E h (pathJoin (pathJoin path ".runtime") "state.json") with
              | Some t => Sub now t <? window | None => false end);
      [split; auto|].
    destruct (negb (IsZero latest) && (Sub now latest <? window));
      [split; auto|].
    split; [discriminate | intros [H | [H | H]]; discriminate]. }
  assert (Hcases : checkPolecatHealth E h name path <> PolecatHealthy ->
     checkPolecatHealth E h name path = PolecatStuck).
  { unfold checkPolecatHealth.
    repeat match goal with
           | |- context [if ?b then _ else _] => destruct b
           end; congruence. }
  split; [exact Hiff|]. split; [exact Hcases|]. split; [|exact Hlatest_is].
  intros Hold. apply Hcases. rewrite Hiff.
  assert (Hw : window <= maxDuration) by (unfold window, Minute, maxDuration; lia).
  intros [[t [Ht Hlt]] | [[t [Ht Hlt]] | [Hne Hlt]]].
  - pose proof (Sub_old now t window Hw (Hold _ _ Ht)). lia.
  - pose proof (Sub_old now t window Hw (Hold _ _ Ht)). lia.
  - destruct (getLatestModTime_latest E h path) as (Hl & _ & _).
    cbv zeta in Hl. fold latest in Hl.
    destruct Hl as [H0 | [H1 | [H1 | H1]]]; [contradiction | | |];
      pose proof (Sub_old now latest window Hw (Hold _ _ H1)); lia.
Qed.

(** ** Stuck workers *)

Lemma countEntries_snoc key l :
  countEntries key (l ++ [key]) = countEntries key l + 1.
Proof.
  unfold countEntries. rewrite filter_app, length_app. simpl.
  rewrite filter_cons. destruct (decide (key = key)); [simpl; lia | congruence].
Qed.

(** The nudge count after [recordNudge], for a worker that the handoff
    record knows or when no handoff record is loaded. *)
Lemma recordNudge_count E rig hb name st :
  getNudgeCount (recordNudge E rig hb name st).2 name =
  match handoffState st with
  | Some hs =>
      match WorkerStates hs !! name with
      | Some ws => incr (NudgeCount ws)
      | None => 1
      end
  | None => getNudgeCount st name + 1
  end.
Proof.
  unfold recordNudge, getNudgeCount, bind, ask, getHandoff, setHandoff,
    saveHandoffState, act, getWitness, setWitness, ret. simpl.
  destruct (handoffState st) as [hs|] eqn:Hhs; simpl; rewrite ?Hhs.
  - rewrite lookup_insert_eq. destruct (WorkerStates hs !! name); reflexivity.
  - apply countEntries_snoc.
Qed.

(** [recordNudge] sends no mail. *)
Lemma recordNudge_mails E rig hb name st :
  exists evs, hist (recordNudge E rig hb name st).2 = evs ++ hist st /\
              mails evs = [].
Proof.
  unfold recordNudge, bind, ask, getHandoff, setHandoff,
    saveHandoffState, act, getWitness, setWitness, ret. simpl.
  destruct (handoffState st) as [hs|]; simpl.
  - eexists [_]. split; reflexivity.
  - exists []. split; reflexivity.
Qed.

Lemma sendNudge_run E rig name reason st :
  exists res body,
    sendNudge E rig name reason st =
    (res, {| handoffState := handoffState st; wit := wit st;
             hist := EvMailSend "gt" (Name rig +:+ "/" +:+ name)
                       ("NUDGE: Cannot shutdown - " +:+ reason) body :: hist st |}).
Proof.
  unfold sendNudge, bind, ask, act. cbv beta iota zeta.
  eexists. eexists. reflexivity.
Qed.

Lemma escalateToMayor_run E rig name st :
  exists res subject body,
    escalateToMayor E rig name st =
    (res, {| handoffState := handoffState st; wit := wit st;
             hist := EvMailSend "bd" "mayor/" subject body :: hist st |}).
Proof.
  unfold escalateToMayor, bind, ask, act. cbv beta iota zeta.
  eexists. eexists. eexists. reflexivity.
Qed.

(** The transition that the specification describes, for a worker that
    the handoff record knows, or when no handoff record is loaded: at count
    0 one nudge to the worker and the count becomes 1; at count 1 one
    escalation to the Mayor and the count becomes 2; otherwise nothing. *)
Lemma handleStuckPolecat_transition E rig hb name st :
  (handoffState st = None \/
   exists hs ws, handoffState st = Some hs /\ WorkerStates hs !! name = Some ws) ->
  let n := getNudgeCount st name in
  let r := handleStuckPolecat E rig hb name st in
  (n = 0 ->
     getNudgeCount r.2 name = 1 /\
     exists evs, hist r.2 = evs ++ hist st /\
                 mails evs = [("gt", Name rig +:+ "/" +:+ name)]) /\
  (n = 1 ->
     getNudgeCount r.2 name = 2 /\
     exists evs, hist r.2 = evs ++ hist st /\
                 mails evs = [("bd", "mayor/")]) /\
  (n <> 0 -> n <> 1 -> r.2 = st).
Proof.
  intros Hknown n r. unfold r. clear r.
  destruct (handleStuckPolecat E rig hb name st) as [u st'] eqn:Hrun. simpl.
  unfold handleStuckPolecat in Hrun. unfold bind at 1 in Hrun. fold n in Hrun.
  assert (Hafter : forall k, (k = 0 \/ k = 1) -> n = k ->
            match handoffState st with
            | Some hs =>
                match WorkerStates hs !! name with
                | Some ws => incr (NudgeCount ws)
                | None => 1
                end
            | None => getNudgeCount st name + 1
            end = k + 1).
  { intros k Hk Hn. unfold n, getNudgeCount in Hn. unfold getNudgeCount.
    destruct Hknown as [Hnone | (hs & ws & Hs & Hw)].
    - rewrite Hnone in *. lia.
    - rewrite Hs, Hw in *. rewrite Hn. destruct Hk; subst k; reflexivity. }
  split; [|split].
  - intros Hn. rewrite Hn in Hrun. simpl in Hrun.
    unfold bind at 1 in Hrun.
    destruct (sendNudge_run E rig name "No activity detected. Are you still working?" st)
      as (res & body & Hsend).
    rewrite Hsend in Hrun. unfold bind at 1 in Hrun.
    match type of Hrun with
    | context [recordNudge E rig hb name ?s] =>
        pose proof (recordNudge_count E rig hb name s) as Hc;
        pose proof (recordNudge_mails E rig hb name s) as (evs & Hh & Hm);
        destruct (recordNudge E rig hb name s) as [u1 st1]
    end.
    simpl in Hc, Hh.
    unfold bind, getWitness, setWitness in Hrun. simpl in Hrun.
    inversion Hrun; subst; clear Hrun.
    split.
    + unfold getNudgeCount in *. simpl in *.
      rewrite Hc. apply (Hafter 0); auto.
    + simpl. rewrite Hh. eexists (evs ++ [_]). split.
      * rewrite <- app_assoc. reflexivity.
      * unfold mails in *. rewrite omap_app, Hm. reflexivity.
  - intros Hn. rewrite Hn in Hrun. simpl in Hrun.
    unfold bind at 1 in Hrun.
    destruct (escalateToMayor_run E rig name st) as (res & subject & body & Hsend).
    rewrite Hsend in Hrun. unfold bind at 1 in Hrun. unfold getWitness at 1 in Hrun.
    simpl in Hrun. unfold bind at 1 in Hrun. unfold setWitness at 1 in Hrun.
    simpl in Hrun.
    match type of Hrun with
    | recordNudge E rig hb name ?s = _ =>
        pose proof (recordNudge_count E rig hb name s) as Hc;
        pose proof (recordNudge_mails E rig hb name s) as (evs & Hh & Hm);
        rewrite Hrun in Hc, Hh
    end.
    simpl in Hc, Hh. clear Hrun.
    split.
    + unfold getNudgeCount in *. simpl in *.
      rewrite Hc. apply (Hafter 1); auto.
    + rewrite Hh. eexists (evs ++ [_]). split.
      * rewrite <- app_assoc. reflexivity.
      * unfold mails in *. rewrite omap_app, Hm. reflexivity.
  - intros H0 H1. apply Z.eqb_neq in H0, H1. rewrite H0, H1 in Hrun.
    unfold ret in Hrun. inversion Hrun. reflexivity.
Qed.

(** C2 at the failing input.  The handoff record is loaded, has no patrol
    instance and no entry for Rictus, and the scratch list of an earlier run
    holds one nudge for Rictus, who runs and shows no activity.  The count
    reads 1 and the first health check escalates to the Mayor; the count
    then reads 1 again, so the next health check escalates a second time,
    and only after that does the count read 2. *)
Lemma legacy_count_escalates_twice :
  let E := Examples.rictusStuck in
  let st0 := Examples.legacyNudged in
  let st1 := (healthCheck E Examples.gastown "witness-handoff" st0).2 in
  let st2 := (healthCheck E Examples.gastown "witness-handoff" st1).2 in
  checkPolecatHealth E (hist st0) "Rictus" "/town/gastown/polecats/Rictus" = PolecatStuck /\
  getNudgeCount st0 "Rictus" = 1 /\
  mails (hist st1) = [("bd", "mayor/")] /\
  getNudgeCount st1 "Rictus" = 1 /\
  mails (hist st2) = [("bd", "mayor/"); ("bd", "mayor/")] /\
  getNudgeCount st2 "Rictus" = 2.
Proof. vm_compute. repeat split. Qed.

(** Three health checks for a stuck worker with no nudge on record: a
    nudge, then one escalation, then nothing more. *)
Example known_worker_nudge_then_escalation :
  let E := Examples.rictusStuck in
  let st0 := Examples.initial (Some (emptyHandoff)) [] in
  let tick st := (healthCheck E Examples.gastown "witness-handoff" st).2 in
  mails (hist (tick st0)) = [("gt", "gastown/Rictus")] /\
  getNudgeCount (tick st0) "Rictus" = 1 /\
  mails (hist (tick (tick st0))) = [("bd", "mayor/"); ("gt", "gastown/Rictus")] /\
  getNudgeCount (tick (tick st0)) "Rictus" = 2 /\
  mails (hist (tick (tick (tick st0)))) = [("bd", "mayor/"); ("gt", "gastown/Rictus")] /\
  getNudgeCount (tick (tick (tick st0))) "Rictus" = 2.
Proof. vm_compute. repeat split. Qed.

(** ** The cleaner *)

Lemma Clean_zero s :
  Clean s = true <->
  length (ModifiedFiles s) = 0%nat /\ length (UntrackedFiles s) = 0%nat /\
  StashCount s = 0 /\ UnpushedCommits s = 0.
Proof.
  unfold Clean. rewrite !andb_true_iff, !Nat.eqb_eq, !Z.eqb_eq. tauto.
Qed.

(** A status that is not clean stops [cleanupPolecat] at once. *)
Lemma cleanupPolecat_refuses E rig name st s :
  git_CheckUncommittedWork E (hist st) (polecatDir rig name) = Ok s ->
  Clean s = false ->
  cleanupPolecat E rig name st
  = (Some ("polecat " +:+ name +:+ " has uncommitted work: " +:+ statusString s), st).
Proof.
  intros Hc Hclean. unfold cleanupPolecat, bind, ask. simpl.
  rewrite Hc, Hclean. reflexivity.
Qed.

(** When the check does not refuse, the worktree removal is attempted. *)
Lemma cleanupPolecat_proceeds E rig name st :
  match git_CheckUncommittedWork E (hist st) (polecatDir rig name) with
  | Ok s => Clean s = true
  | Err _ => True
  end ->
  EvRemoveWorktree name ∈ hist (cleanupPolecat E rig name st).2.
Proof.
  intros Hc. unfold cleanupPolecat, bind, ask, act, ret. simpl.
  destruct (git_CheckUncommittedWork E (hist st) (polecatDir rig name)) as [s|e];
    [rewrite Hc|]; simpl;
    destruct (session_IsRunning E (hist st) name) as [[|] [err|]]; simpl;
    match goal with
    | |- context [polecat_Remove E ?h name] => destruct (polecat_Remove E h name)
    end; simpl; set_solver.
Qed.

(** C1, in the form that holds of the code.  Before any destructive step
    [cleanupPolecat] asks for the uncommitted work of the worktree.  When
    that check answers and the cleanup then succeeds, the answer was
    modified = 0, untracked = 0, stash = 0 and unpushed = 0.  When the check
    answers with a count that is not zero, the cleanup returns the
    uncommitted-work error, whose message lists the counts, and the state
    and the history stay as they were: no session is killed, no worktree
    removed, no branch deleted.  When the check itself fails, the cleanup
    goes on and removes the worktree. *)
Theorem cleanupPolecat_guard (E : Env) (rig : Rig) (name : string) (st : State) :
  let r := cleanupPolecat E rig name st in
  match git_CheckUncommittedWork E (hist st) (polecatDir rig name) with
  | Ok s =>
      (r.1 = None ->
         length (ModifiedFiles s) = 0%nat /\ length (UntrackedFiles s) = 0%nat /\
         StashCount s = 0 /\ UnpushedCommits s = 0) /\
      (length (ModifiedFiles s) <> 0%nat \/ length (UntrackedFiles s) <> 0%nat \/
       StashCount s <> 0 \/ UnpushedCommits s <> 0 ->
         r.1 = Some ("polecat " +:+ name +:+ " has uncommitted work: " +:+ statusString s) /\
         r.2 = st)
  | Err _ => EvRemoveWorktree name ∈ hist r.2
  end.
Proof.
  intros r. pose proof (cleanupPolecat_proceeds E rig name st) as Hgo.
  pose proof (cleanupPolecat_refuses E rig name st) as Hno. fold r in Hno, Hgo.
  destruct (git_CheckUncommittedWork E (hist st) (polecatDir rig name)) as [s|e];
    [|apply Hgo; exact I].
  pose proof (Clean_zero s) as Hz.
  destruct (Clean s) eqn:Hclean.
  - pose proof (proj1 Hz eq_refl) as Hzero.
    split; [intros _; exact Hzero | intros Hnz; lia].
  - rewrite (Hno s eq_refl Hclean). simpl.
    split; [discriminate | intros _; split; reflexivity].
Qed.

(** Against C1 as the specification words it: when the check cannot be
    made (the directory is not a repository), the cleanup succeeds and
    removes the worktree and the branch, and no count was observed. *)
Lemma cleanupPolecat_unchecked :
  let E := Examples.world 0 Examples.noTime Examples.noDecode Examples.noTime
             [Examples.polecatAt "Toast"] (Err "not a git repository") []
             EmptyString false [] in
  let r := cleanupPolecat E Examples.gastown "Toast" (Examples.initial None []) in
  git_CheckUncommittedWork E [] (polecatDir Examples.gastown "Toast")
    = Err "not a git repository" /\
  r.1 = None /\
  hist r.2 = [EvDeleteBranch "polecat/Toast"; EvRemoveWorktree "Toast"; EvSessionStop "Toast"].
Proof. vm_compute. repeat split. Qed.

(** The guard at a worktree with one stash: the cleanup refuses, and the
    state is as before. *)
Lemma cleanupPolecat_guard_witness :
  let E := Examples.world 0 Examples.noTime Examples.noDecode Examples.noTime
             [Examples.polecatAt "Toast"] (Ok Examples.oneStash) []
             EmptyString false [] in
  let r := cleanupPolecat E Examples.gastown "Toast" (Examples.initial None []) in
  r.1 = Some ("polecat Toast has uncommitted work: " +:+ statusString Examples.oneStash) /\
  r.2 = Examples.initial None [].
Proof.
  intros E r.
  pose proof (cleanupPolecat_guard E Examples.gastown "Toast" (Examples.initial None []))
    as H.
  apply (proj2 H). right. right. left. discriminate.
Defined.

(** A stash is enough to stop the cleanup before it touches anything. *)
Example cleanupPolecat_refuses_stash :
  let E := Examples.world 0 Examples.noTime Examples.noDecode Examples.noTime
             [Examples.polecatAt "Toast"] (Ok Examples.oneStash) []
             EmptyString false [] in
  cleanupPolecat E Examples.gastown "Toast" (Examples.initial None [])
  = (Some "polecat Toast has uncommitted work: 0 modified, 0 untracked, 1 stash(es), 0 unpushed commit(s)",
     Examples.initial None []).
Proof. vm_compute. reflexivity. Qed.

(** ** What the operations add to the history *)

Lemma emits_ret {A} P (a : A) : emits P (ret a).
Proof. intros st. exists []. split; [reflexivity | constructor]. Qed.

Lemma emits_bind {A B} P (m : M A) (k : A -> M B) :
  emits P m -> (forall a, emits P (k a)) -> emits P (bind m k).
Proof.
  intros Hm Hk st. unfold bind.
  destruct (Hm st) as (e1 & H1 & F1). destruct (m st) as [a st1]. simpl in H1.
  destruct (Hk a st1) as (e2 & H2 & F2).
  exists (e2 ++ e1). split.
  - rewrite H2, H1, app_assoc. reflexivity.
  - apply Forall_app. split; assumption.
Qed.

Lemma emits_ask {A} P (f : History -> A) : emits P (ask f).
Proof. intros st. exists []. split; [reflexivity | constructor]. Qed.

Lemma emits_act {A} (P : Event -> Prop) (f : History -> A) e : P e -> emits P (act f e).
Proof. intros He st. exists [e]. split; [reflexivity | repeat constructor; exact He]. Qed.

Lemma emits_getWitness P : emits P getWitness.
Proof. intros st. exists []. split; [reflexivity | constructor]. Qed.

Lemma emits_setWitness P w : emits P (setWitness w).
Proof. intros st. exists []. split; [reflexivity | constructor]. Qed.

Lemma emits_getHandoff P : emits P getHandoff.
Proof. intros st. exists []. split; [reflexivity | constructor]. Qed.

Lemma emits_setHandoff P h : emits P (setHandoff h).
Proof. intros st. exists []. split; [reflexivity | constructor]. Qed.

Lemma emits_weaken {A} (P Q : Event -> Prop) (m : M A) :
  (forall e, P e -> Q e) -> emits P m -> emits Q m.
Proof.
  intros HPQ Hm st. destruct (Hm st) as (evs & H & F).
  exists evs. split; [exact H|]. eapply Forall_impl; eauto.
Qed.

Lemma emits_forEach {A} P (body : A -> M unit) (xs : list A) :
  (forall x, x ∈ xs -> emits P (body x)) -> emits P (forEach body xs).
Proof.
  induction xs as [|x rest IH]; intros H; simpl.
  - apply emits_ret.
  - apply emits_bind.
    + apply H. set_solver.
    + intros _. apply IH. intros y Hy. apply H. set_solver.
Qed.

Ltac emits_step :=
  lazymatch goal with
  | |- emits _ (bind _ _) => apply emits_bind; [| intros ?]
  | |- emits _ (ret _) => apply emits_ret
  | |- emits _ (ask _) => apply emits_ask
  | |- emits _ (act _ _) => apply emits_act; exact I
  | |- emits _ getWitness => apply emits_getWitness
  | |- emits _ (setWitness _) => apply emits_setWitness
  | |- emits _ getHandoff => apply emits_getHandoff
  | |- emits _ (setHandoff _) => apply emits_setHandoff
  | |- emits _ (match ?x with _ => _ end) => destruct x
  end.

Lemma emits_sendNudge E rig name reason : emits notAck (sendNudge E rig name reason).
Proof. unfold sendNudge. repeat emits_step. Qed.

Lemma emits_escalateToMayor E rig name : emits notAck (escalateToMayor E rig name).
Proof. unfold escalateToMayor. repeat emits_step. Qed.

Lemma emits_verifyPolecatState E rig name P : emits P (verifyPolecatState E rig name).
Proof. unfold verifyPolecatState. repeat emits_step. Qed.

Lemma emits_cleanupPolecat E rig name : emits notAck (cleanupPolecat E rig name).
Proof. unfold cleanupPolecat. repeat emits_step. Qed.

Lemma emits_recordDone E name : emits notAck (recordDone E name).
Proof. unfold recordDone, saveState. repeat emits_step. Qed.

Lemma emits_ackMessage id : emits (ackOf id) (ackMessage id).
Proof. unfold ackMessage. apply emits_act. reflexivity. Qed.

Lemma notAck_ackOf id e : notAck e -> ackOf id e.
Proof. destruct e; simpl; tauto. Qed.

(** Handling a message acknowledges no message but that one. *)
Lemma emits_handleMessage E rig msg : emits (ackOf (ID msg)) (handleMessage E rig msg).
Proof.
  unfold handleMessage.
  repeat first
    [ apply emits_ackMessage
    | apply (emits_weaken notAck _ _ (notAck_ackOf _));
      first [ apply emits_sendNudge | apply emits_cleanupPolecat
            | apply emits_recordDone ]
    | apply emits_verifyPolecatState
    | emits_step ].
Qed.

(** ** The mailbox drain *)

Lemma handleMessage_unrecognised E rig msg st :
  recognised (Subject msg) = false -> handleMessage E rig msg st = (tt, st).
Proof.
  unfold recognised. intros H. apply orb_false_iff in H as [Hdone Hlife].
  unfold handleMessage. rewrite Hdone, Hlife. reflexivity.
Qed.

Lemma drain_keeps_unrecognised E rig msgs id :
  (forall m, m ∈ msgs -> ID m = id -> recognised (Subject m) = false) ->
  emits (fun e => e <> EvMailAck id) (forEach (handleMessage E rig) msgs).
Proof.
  intros Hun. apply emits_forEach. intros x Hx.
  destruct (decide (ID x = id)) as [Heq | Hne].
  - intros st. rewrite (handleMessage_unrecognised E rig x st (Hun x Hx Heq)).
    exists []. split; [reflexivity | constructor].
  - apply (emits_weaken (ackOf (ID x))); [|apply emits_handleMessage].
    intros e He ->. simpl in He. congruence.
Qed.


(** The example mailbox keeps what is not acknowledged. *)
Lemma world_keeps_unacked now parse unmarshal mtime polecats check inbox issue closed ready :
  mailboxKeepsUnacked
    (Examples.world now parse unmarshal mtime polecats check inbox issue closed ready).
Proof.
  intros h evs msgs msgs' m Hh Hm Hno Hh'. simpl in Hh, Hh'.
  inversion Hh; subst msgs; clear Hh. inversion Hh'; subst msgs'; clear Hh'.
  exists m. split; [|reflexivity].
  apply list_elem_of_filter in Hm as [Hack Hin].
  apply list_elem_of_filter. split; [|exact Hin].
  unfold Examples.acked in *. rewrite existsb_app, Hack, orb_false_r.
  clear Hack. induction evs as [|e evs IH]; [reflexivity|].
  apply Forall_cons in Hno as [He Hno]. simpl. rewrite (IH Hno), orb_false_r.
  destruct e; try reflexivity.
  apply String.eqb_neq. congruence.
Qed.



(** C5, in the form that holds of the code.  For a message whose subject
    contains [LIFECYCLE:] and [shutdown], and whose body names a polecat in
    a [Polecat: <name>] line: without a [done:<name>] entry in the scratch
    list the dispatcher sends that polecat the nudge to run [gt done] and
    does nothing else, so the message stays unacknowledged; a session is
    killed, a worktree removed, a branch deleted or the message acknowledged
    only when the entry is there. *)
Theorem lifecycle_shutdown_requires_done (E : Env) (rig : Rig)
    (msg : WitnessMessage) (st : State) :
  HasPrefix (Subject msg) "POLECAT_DONE " = false ->
  Contains (Subject msg) "LIFECYCLE:" && Contains (Subject msg) "shutdown" = true ->
  extractPolecatName (Body msg) <> EmptyString ->
  let name := extractPolecatName (Body msg) in
  let r := handleMessage E rig msg st in
  (hasSentDone (wit st) name = false ->
     wit r.2 = wit st /\ handoffState r.2 = handoffState st /\
     exists body,
       hist r.2 =
       EvMailSend "gt" (Name rig +:+ "/" +:+ name)
         "NUDGE: Cannot shutdown - Please run 'gt done' to signal completion" body
       :: hist st) /\
  (exists evs, hist r.2 = evs ++ hist st /\
     forall e, e ∈ evs -> destructive e = true \/ e = EvMailAck (ID msg) ->
               hasSentDone (wit st) name = true).
Proof.
  intros Hp Hl Hname name r.
  assert (Hnudge : hasSentDone (wit st) name = false ->
     wit r.2 = wit st /\ handoffState r.2 = handoffState st /\
     exists body,
       hist r.2 =
       EvMailSend "gt" (Name rig +:+ "/" +:+ name)
         "NUDGE: Cannot shutdown - Please run 'gt done' to signal completion" body
       :: hist st).
  { intros Hdone.
    assert (Hrun : exists body,
      r = (tt, {| handoffState := handoffState st; wit := wit st;
                  hist := EvMailSend "gt" (Name rig +:+ "/" +:+ name)
                            "NUDGE: Cannot shutdown - Please run 'gt done' to signal completion"
                            body :: hist st |})).
    { unfold r, handleMessage. rewrite Hp, Hl. cbv zeta. fold name.
      apply String.eqb_neq in Hname. fold name in Hname. rewrite Hname.
      unfold bind at 1. unfold getWitness at 1. simpl. rewrite Hdone.
      eexists. reflexivity. }
    destruct Hrun as [body Hrun]. rewrite Hrun. simpl.
    split; [reflexivity|]. split; [reflexivity|]. exists body. reflexivity. }
  split; [exact Hnudge|].
  destruct (hasSentDone (wit st) name) eqn:Hdone.
  - destruct (emits_handleMessage E rig msg st) as (evs & Hh & _).
    exists evs. split; [exact Hh | intros; reflexivity].
  - destruct (Hnudge eq_refl) as (_ & _ & body & Hh).
    eexists [_]. split; [exact Hh|].
    intros e He Hbad. apply list_elem_of_singleton in He. subst e.
    destruct Hbad as [Hd | Ha]; [simpl in Hd|]; discriminate.
Qed.

(** The statement above at a legacy shutdown request: no done entry, so
    one nudge and nothing else. *)
Lemma lifecycle_shutdown_requires_done_witness :
  let msg := Examples.message "msg-3" "LIFECYCLE: polecat requesting shutdown"
               "Polecat: Toast" in
  let E := Examples.quiet in
  let r := handleMessage E Examples.gastown msg (Examples.initial None ["bd-1"]) in
  wit r.2 = wit (Examples.initial None ["bd-1"]) /\
  exists body,
    hist r.2 =
    [EvMailSend "gt" "gastown/Toast"
       "NUDGE: Cannot shutdown - Please run 'gt done' to signal completion" body].
Proof.
  intros msg E r.
  destruct (lifecycle_shutdown_requires_done E Examples.gastown msg
              (Examples.initial None ["bd-1"]) eq_refl eq_refl) as [Hnudge _].
  { vm_compute. discriminate. }
  destruct (Hnudge eq_refl) as (Hw & _ & body & Hh).
  split; [exact Hw | exists body; exact Hh].
Defined.

(** Against C5 as the specification words it: the subject
    [LIFECYCLE:Shutdown Toast] has a capital S, the dispatcher looks for
    [shutdown], and so it does nothing with the message: no nudge is sent
    although no done entry exists. *)
Lemma capital_Shutdown_is_ignored :
  let msg := Examples.message "msg-7" "LIFECYCLE:Shutdown Toast" "Polecat: Toast" in
  let E := Examples.world 0 Examples.noTime Examples.noDecode Examples.noTime
             [Examples.polecatAt "Toast"] (Ok Examples.cleanStatus) [msg]
             EmptyString false [] in
  let st := Examples.initial None [] in
  mail_inbox E (hist st) = Ok [msg] /\
  hasSentDone (wit st) "Toast" = false /\
  processShutdownRequests E Examples.gastown st = (None, st).
Proof. vm_compute. repeat split. Qed.

(** ** Pending completions *)

Lemma verifyPolecatState_reads E rig name st :
  (verifyPolecatState E rig name st).2 = st.
Proof.
  unfold verifyPolecatState, bind, ask, ret. simpl.
  destruct (os_NotExist E (hist st) (polecatDir rig name)); [reflexivity|].
  destruct (git_StatusClean E (hist st) (polecatDir rig name)) as [[|]|e];
    try reflexivity.
  destruct (git_BranchPushedToRemote E (hist st) (polecatDir rig name)
              ("polecat/" +:+ name) "origin") as [[[|] n]|e]; reflexivity.
Qed.

Lemma cleanupPolecat_keeps_records E rig name st :
  wit (cleanupPolecat E rig name st).2 = wit st /\
  handoffState (cleanupPolecat E rig name st).2 = handoffState st.
Proof.
  unfold cleanupPolecat, bind, ask, act, ret. simpl.
  destruct (git_CheckUncommittedWork E (hist st) (polecatDir rig name)) as [s|e];
    [destruct (Clean s); simpl; [|split; reflexivity]|];
    destruct (session_IsRunning E (hist st) name) as [[|] [err|]]; simpl;
    match goal with
    | |- context [polecat_Remove E ?h name] => destruct (polecat_Remove E h name)
    end; simpl; split; reflexivity.
Qed.

Lemma prefix_app_l p q s :
  String.prefix (p +:+ q) s = true -> String.prefix p s = true.
Proof.
  revert s. induction p as [|c r IH]; intros s H.
  - destruct s; reflexivity.
  - destruct s as [|d s]; [discriminate|].
    change (String c r +:+ q) with (String c (r +:+ q)) in H.
    simpl in *. destruct (ascii_dec c d); [apply IH; exact H | discriminate].
Qed.

(** Once [clearWaiting] has filtered the list, no waiting time is found. *)
Lemma getWaitingTimestamp_cleared E key entries :
  getWaitingTimestamp E (filter (fun entry => HasPrefix entry key = false) entries) key = 0.
Proof.
  induction entries as [|e l IH]; [reflexivity|].
  rewrite filter_cons. destruct (decide (HasPrefix e key = false)) as [Hno|Hyes];
    [|exact IH].
  simpl. destruct (HasPrefix e (key +:+ ":")) eqn:Hp; [|exact IH].
  unfold HasPrefix in *. apply prefix_app_l in Hp. congruence.
Qed.

(** C3, in the form that holds of the code.  For a running polecat without
    a done entry whose issue is closed: when no waiting time is recorded,
    the supervisor records [waiting:<name>:<now>] and sends the nudge; while
    the time since the recorded one is 10 minutes or less, exactly 10
    minutes included, nothing happens; once it is more than 10 minutes, the
    supervisor verifies and cleans up, clears the waiting entries when that
    succeeds, escalates to the Mayor and keeps the entry when the
    verification fails, and keeps the entry when the cleanup itself
    refuses. *)
Theorem pending_completion_watchdog (E : Env) (rig : Rig) (p : Polecat) (st : State) :
  let name := PolecatName p in
  fst (session_IsRunning E (hist st) name) = true ->
  hasSentDone (wit st) name = false ->
  polecat_issue E (hist st) (ClonePath p) <> EmptyString ->
  bd_issueClosed E (hist st) (polecat_issue E (hist st) (ClonePath p)) = Ok true ->
  let waitKey := "waiting:" +:+ name in
  let since := getWaitingTimestamp E (SpawnedIssues (wit st)) waitKey in
  let now := time_Now E (hist st) in
  let r := checkPendingCompletion E rig p st in
  (since = 0 ->
     SpawnedIssues (wit r.2)
       = SpawnedIssues (wit st) ++ [waitKey +:+ ":" +:+ time_Format E now] /\
     exists body w',
       hist r.2 =
       EvMailSend "gt" (Name rig +:+ "/" +:+ name)
         "NUDGE: Cannot shutdown - Your issue is closed. Please run 'gt done' to complete shutdown."
         body
       :: EvSaveState w' :: hist st) /\
  (since <> 0 -> Sub now since <= 10 * Minute -> r.2 = st) /\
  (since <> 0 -> 10 * Minute < Sub now since ->
     match (verifyPolecatState E rig name st).1 with
     | Some _ =>
         wit r.2 = wit st /\
         exists subject body, hist r.2 = EvMailSend "bd" "mayor/" subject body :: hist st
     | None =>
         match (cleanupPolecat E rig name st).1 with
         | Some _ => r.2 = (cleanupPolecat E rig name st).2 /\ wit r.2 = wit st
         | None =>
             (exists w', hist r.2
                         = EvSaveState w' :: hist (cleanupPolecat E rig name st).2) /\
             SpawnedIssues (wit r.2)
               = filter (fun entry => HasPrefix entry waitKey = false)
                        (SpawnedIssues (wit st)) /\
             getWaitingTimestamp E (SpawnedIssues (wit r.2)) waitKey = 0
         end
     end).
Proof.
  intros name Hrunning Hdone Hissue Hclosed waitKey since now r.
  unfold r. clear r.
  destruct (checkPendingCompletion E rig p st) as [u st'] eqn:Hrun. simpl.
  unfold checkPendingCompletion in Hrun. fold name in Hrun.
  unfold bind at 1 in Hrun. unfold ask at 1 in Hrun. simpl in Hrun.
  rewrite Hrunning in Hrun. simpl in Hrun.
  unfold bind at 1 in Hrun. unfold getWitness at 1 in Hrun. simpl in Hrun.
  rewrite Hdone in Hrun.
  unfold bind at 1 in Hrun. unfold ask at 1 in Hrun. simpl in Hrun.
  apply String.eqb_neq in Hissue. rewrite Hissue in Hrun.
  unfold bind at 1 in Hrun. unfold ask at 1 in Hrun. simpl in Hrun.
  rewrite Hclosed in Hrun. fold waitKey since in Hrun.
  unfold IsZero in Hrun.
  split; [|split].
  - intros Hzero. rewrite Hzero in Hrun. simpl in Hrun.
    unfold recordWaiting, sendNudge, saveState, bind, ask, act, getWitness,
      setWitness, ret in Hrun. simpl in Hrun.
    inversion Hrun; subst; clear Hrun. simpl.
    split; [reflexivity|]. eexists. eexists. reflexivity.
  - intros Hnz Hwait. apply Z.eqb_neq in Hnz. rewrite Hnz in Hrun.
    unfold bind at 1 in Hrun. unfold ask at 1 in Hrun. simpl in Hrun.
    fold now in Hrun.
    destruct (Z.ltb_spec PendingCompletionTimeout (Sub now since)) as [Hgt|Hle].
    + unfold PendingCompletionTimeout in Hgt. lia.
    + unfold ret in Hrun. inversion Hrun. reflexivity.
  - intros Hnz Hlate. apply Z.eqb_neq in Hnz. rewrite Hnz in Hrun.
    unfold bind at 1 in Hrun. unfold ask at 1 in Hrun. simpl in Hrun.
    fold now in Hrun.
    destruct (Z.ltb_spec PendingCompletionTimeout (Sub now since)) as [Hgt|Hle];
      [|unfold PendingCompletionTimeout in Hle; lia].
    unfold bind at 1 in Hrun.
    pose proof (verifyPolecatState_reads E rig name st) as Hv.
    destruct (verifyPolecatState E rig name st) as [verr st1]. simpl in Hv. subst st1.
    simpl. destruct verr as [err|].
    + unfold escalateToMayor, bind, ask, act, ret in Hrun. simpl in Hrun.
      inversion Hrun; subst; clear Hrun. simpl.
      split; [reflexivity|]. eexists. eexists. reflexivity.
    + unfold bind at 1 in Hrun.
      destruct (cleanupPolecat_keeps_records E rig name st) as [Hw _].
      destruct (cleanupPolecat E rig name st) as [cerr st2]. simpl in Hw. simpl.
      destruct cerr as [err|].
      * unfold ret in Hrun. inversion Hrun; subst. split; [reflexivity | exact Hw].
      * unfold clearWaiting, saveState, bind, act, getWitness, setWitness, ret in Hrun.
        simpl in Hrun. inversion Hrun; subst; clear Hrun. simpl.
        rewrite Hw, withoutPrefix_filter.
        split; [eexists; reflexivity|].
        split; [reflexivity | apply getWaitingTimestamp_cleared].
Qed.

(** The statement above one nanosecond past the ten minutes: Joe is
    cleaned up and the waiting entry cleared. *)
Lemma pending_completion_watchdog_witness :
  let E := Examples.waitingForJoe (Examples.noon + 10 * Minute + 1) in
  let r := checkPendingCompletion E Examples.gastown (Examples.polecatAt "Joe")
             Examples.waitingState in
  SpawnedIssues (wit r.2) = ["bd-123"].
Proof.
  intros E r.
  assert (Hissue : polecat_issue E (hist Examples.waitingState)
                     (ClonePath (Examples.polecatAt "Joe")) <> EmptyString)
    by (vm_compute; discriminate).
  destruct (pending_completion_watchdog E Examples.gastown (Examples.polecatAt "Joe")
              Examples.waitingState eq_refl eq_refl Hissue eq_refl) as (_ & _ & Hlate).
  assert (Hnz : getWaitingTimestamp E (SpawnedIssues (wit Examples.waitingState))
                  ("waiting:" +:+ PolecatName (Examples.polecatAt "Joe")) <> 0)
    by (vm_compute; discriminate).
  assert (Hgt : 10 * Minute <
                Sub (time_Now E (hist Examples.waitingState))
                    (getWaitingTimestamp E (SpawnedIssues (wit Examples.waitingState))
                       ("waiting:" +:+ PolecatName (Examples.polecatAt "Joe"))))
    by (vm_compute; reflexivity).
  exact (proj1 (proj2 (Hlate Hnz Hgt))).
Defined.

(** Against C3 as the specification words it: when exactly 10 minutes have
    passed the supervisor does nothing; the cleanup comes with the first
    nanosecond after. *)
Lemma pending_completion_at_ten_minutes :
  let st := Examples.waitingState in
  let at10 := Examples.waitingForJoe (Examples.noon + 10 * Minute) in
  let after10 := Examples.waitingForJoe (Examples.noon + 10 * Minute + 1) in
  Sub (time_Now at10 (hist st))
      (getWaitingTimestamp at10 (SpawnedIssues (wit st)) "waiting:Joe") = 10 * Minute /\
  checkPendingCompletions at10 Examples.gastown st = (None, st) /\
  omap (fun e => match e with EvRemoveWorktree n => Some n | _ => None end)
       (hist (checkPendingCompletions after10 Examples.gastown st).2) = ["Joe"].
Proof. vm_compute. repeat split. Qed.

(** ** Auto-spawn *)

Lemma spawnLoop_cap E activeCount maxWorkers spawnDelay total issues :
  forall spawned st n st',
    spawnLoop E activeCount maxWorkers spawnDelay total issues spawned st = (n, st') ->
    spawned <= n /\
    n <= Z.max spawned (maxWorkers - activeCount) /\
    successfulSpawns E (hist st') = successfulSpawns E (hist st) + (n - spawned).
Proof.
  induction issues as [|issue rest IH]; intros spawned st n st' H; simpl in H.
  - unfold ret in H. inversion H; subst. lia.
  - destruct (Z.leb_spec maxWorkers (activeCount + spawned)) as [Hfull | Hroom].
    + unfold ret in H. inversion H; subst. lia.
    + unfold bind at 1 in H. unfold act at 1 in H. simpl in H.
      destruct (gt_spawn E (hist st) (ReadyID issue)) as [e|] eqn:Hspawn.
      * apply IH in H. simpl in H. rewrite Hspawn in H. lia.
      * unfold bind, getWitness, setWitness, act, ret in H. simpl in H.
        destruct ((spawned + 1 <? total) && (activeCount + (spawned + 1) <? maxWorkers));
          simpl in H; apply IH in H; simpl in H; rewrite Hspawn in H; lia.
Qed.


(** The spec's scenario: four workers at most, two active, three ready
    issues; the pass spawns for the first two, in order, and stops. *)
Example autoSpawn_two_of_three :
  let E := Examples.world 0 Examples.noTime Examples.noDecode Examples.noTime
             [Examples.polecatAt "Toast"; Examples.polecatAt "Rictus"]
             (Ok Examples.cleanStatus) [] EmptyString false
             [Examples.ready "bd-a"; Examples.ready "bd-b"; Examples.ready "bd-c"] in
  let r := autoSpawnForReadyWork E (Examples.initial None []) in
  r.1 = (None, 2) /\
  SpawnedIssues (wit r.2) = ["bd-a"; "bd-b"] /\
  omap (fun e => match e with EvSpawn issue => Some issue | _ => None end) (hist r.2)
    = ["bd-b"; "bd-a"].
Proof. vm_compute. repeat split. Qed.

(** The boundary of the liveness window: activity exactly 30 minutes ago is
    stuck, one nanosecond later is healthy. *)
Example checkPolecatHealth_at_30_minutes :
  let now := 1000 * Minute in
  let E t := Examples.world now Examples.noTime Examples.noDecode
               (fun p => if String.eqb p "/w/Toast/.git" then Some t else None)
               [] (Ok Examples.cleanStatus) [] EmptyString false [] in
  checkPolecatHealth (E (now - 30 * Minute)) [] "Toast" "/w/Toast" = PolecatStuck /\
  checkPolecatHealth (E (now - 30 * Minute + 1)) [] "Toast" "/w/Toast" = PolecatHealthy.
Proof. vm_compute. split; reflexivity. Qed.

(** ** The handoff document *)

Lemma length_append s t :
  String.length (s +:+ t) = (String.length s + String.length t)%nat.
Proof.
  induction s as [|c r IH]; [reflexivity|].
  change (String c r +:+ t) with (String c (r +:+ t)). simpl. rewrite IH. reflexivity.
Qed.

Lemma append_cons c s r : String c s +:+ r = String c (s +:+ r).
Proof. reflexivity. Qed.

Lemma append_empty r : EmptyString +:+ r = r.
Proof. reflexivity. Qed.

Lemma IndexByte_first p c r :
  noByte c p -> IndexByte (p +:+ String c r) c = Some (String.length p).
Proof.
  unfold noByte. induction p as [|d p IH]; intros H.
  - simpl. rewrite Ascii.eqb_refl. reflexivity.
  - change (String d p +:+ String c r) with (String d (p +:+ String c r)).
    simpl in *. destruct (Ascii.eqb d c); [discriminate|].
    destruct (IndexByte p c) eqn:E; [discriminate|].
    rewrite IH; reflexivity.
Qed.

Lemma dropBytes_append p s : dropBytes (String.length p) (p +:+ s) = s.
Proof. induction p as [|c p IH]; [destruct s; reflexivity | exact IH]. Qed.

Lemma substring_append s t : String.substring 0 (String.length s) (s +:+ t) = s.
Proof.
  induction s as [|c r IH]; [destruct t; reflexivity|].
  change (String c r +:+ t) with (String c (r +:+ t)). simpl. rewrite IH. reflexivity.
Qed.

Lemma noByte_append c s t : noByte c s -> noByte c t -> noByte c (s +:+ t).
Proof.
  unfold noByte. induction s as [|d s IH]; [auto|].
  change (String d s +:+ t) with (String d (s +:+ t)). simpl.
  destruct (Ascii.eqb d c); [discriminate|].
  destruct (IndexByte s c); [discriminate|].
  intros _ Ht. rewrite (IH eq_refl Ht). reflexivity.
Qed.

(** *** Texts that the brace scanner passes over *)

Lemma neutral_empty : neutral EmptyString.
Proof. intros r i depth _. simpl. f_equal. lia. Qed.

Lemma neutral_append s t : neutral s -> neutral t -> neutral (s +:+ t).
Proof.
  intros Hs Ht r i depth Hd.
  rewrite append_assoc, (Hs _ _ _ Hd), (Ht _ _ _ Hd), length_append.
  f_equal. lia.
Qed.

Lemma plain_neutral s : plain s = true -> neutral s.
Proof.
  induction s as [|c s IH]; [intros _; apply neutral_empty|].
  simpl. intros H. apply andb_true_iff in H as [Hc Hs].
  intros r i depth Hd.
  change (String c s +:+ r) with (String c (s +:+ r)).
  unfold special in Hc. apply negb_true_iff in Hc.
  apply orb_false_iff in Hc as [Hc Hrb]. apply orb_false_iff in Hc as [Hc Hlb].
  apply orb_false_iff in Hc as [Hbs Hdq].
  cbn [scanBrace]. rewrite Hbs, Hdq, Hlb, Hrb. simpl.
  rewrite (IH Hs _ _ _ Hd). f_equal. lia.
Qed.

(** One escaped byte, met inside a string, leaves the scanner inside the
    string. *)
Lemma scan_escapeByte c r i depth :
  scanBrace (escapeByte c +:+ r) i depth true false
  = scanBrace r (i + Z.of_nat (String.length (escapeByte c))) depth true false.
Proof.
  destruct c as [[] [] [] [] [] [] [] []];
    match goal with
    | |- context [escapeByte ?c] =>
        let e := eval vm_compute in (escapeByte c) in
        change (escapeByte c) with e
    end;
    rewrite ?append_cons, append_empty; cbn; f_equal; lia.
Qed.

Lemma scan_escape s r i depth :
  scanBrace (escape s +:+ r) i depth true false
  = scanBrace r (i + Z.of_nat (String.length (escape s))) depth true false.
Proof.
  revert i. induction s as [|c s IH]; intros i; simpl.
  - f_equal. lia.
  - rewrite append_assoc, scan_escapeByte, IH, length_append. f_equal. lia.
Qed.

Lemma quote_neutral s : neutral (quote s).
Proof.
  intros r i depth _. unfold quote.
  change (String dquote (escape s +:+ String dquote EmptyString) +:+ r)
    with (String dquote ((escape s +:+ String dquote EmptyString) +:+ r)).
  rewrite append_assoc. cbn [scanBrace]. simpl Ascii.eqb. cbn [andb negb].
  rewrite scan_escape.
  change (String dquote EmptyString +:+ r) with (String dquote r).
  cbn [scanBrace]. simpl Ascii.eqb. cbn [andb negb].
  cbn [String.length]. rewrite length_append. cbn [String.length].
  f_equal. lia.
Qed.

Lemma plain_digits d : plain (DecimalString.NilEmpty.string_of_uint d) = true.
Proof. induction d; simpl; try rewrite IHd; reflexivity. Qed.

Lemma plain_itoa z : plain (itoa z) = true.
Proof.
  unfold itoa, DecimalString.NilZero.string_of_int, DecimalString.NilZero.string_of_uint.
  destruct (Z.to_int z) as [d|d]; [|change (negb (special "-") && plain
      match d with
      | Decimal.Nil => "0"
      | _ => DecimalString.NilEmpty.string_of_uint d
      end = true); simpl];
    destruct d; try reflexivity; apply plain_digits.
Qed.

Lemma plain_append s t : plain s = true -> plain t = true -> plain (s +:+ t) = true.
Proof.
  induction s as [|c s IH]; [auto|].
  rewrite append_cons. simpl. intros H Ht. apply andb_true_iff in H as [Hc Hs].
  rewrite Hc, (IH Hs Ht). reflexivity.
Qed.

Lemma plain_indent depth : plain (indent depth) = true.
Proof. induction depth as [|d IH]; [reflexivity|]. simpl. apply plain_append; auto. Qed.

(** An object whose body the scanner passes over is passed over too. *)
Lemma braces_neutral body :
  neutral body -> neutral (String lbrace (body +:+ String rbrace EmptyString)).
Proof.
  intros Hb r i depth Hd.
  rewrite append_cons, append_assoc. cbn [scanBrace]. simpl Ascii.eqb. cbn [andb].
  rewrite (Hb _ _ (depth + 1)) by lia.
  rewrite append_cons, append_empty. cbn [scanBrace]. simpl Ascii.eqb. cbn [andb].
  destruct (Z.eqb_spec (depth + 1 - 1) 0) as [H0|_]; [lia|].
  cbn [String.length]. rewrite length_append. cbn [String.length].
  replace (depth + 1 - 1) with depth by lia. f_equal. lia.
Qed.

Lemma renderMembers_neutral depth members :
  Forall (fun kv => neutral kv.2) members -> neutral (renderMembers depth members).
Proof.
  induction members as [|[k v] rest IH]; intros H; simpl.
  - apply neutral_empty.
  - apply Forall_cons in H as [Hv Hrest]. simpl in Hv.
    apply neutral_append; [apply plain_neutral; reflexivity|].
    apply neutral_append; [apply plain_neutral, plain_append;
                           [reflexivity | apply plain_indent]|].
    apply neutral_append; [apply quote_neutral|].
    apply neutral_append; [apply plain_neutral; reflexivity|].
    apply neutral_append; [exact Hv|].
    destruct rest as [|kv rest']; [apply neutral_empty|].
    apply neutral_append; [apply plain_neutral; reflexivity|].
    apply IH. exact Hrest.
Qed.

Lemma renderObject_body depth members :
  renderObject depth members
  = String lbrace (objectBody depth members +:+ String rbrace EmptyString).
Proof.
  unfold renderObject, objectBody. destruct members; [reflexivity|].
  rewrite !append_assoc. reflexivity.
Qed.

Lemma objectBody_neutral depth members :
  Forall (fun kv => neutral kv.2) members -> neutral (objectBody depth members).
Proof.
  intros H. unfold objectBody. destruct members as [|kv rest]; [apply neutral_empty|].
  apply neutral_append; [apply renderMembers_neutral; exact H|].
  apply neutral_append; apply plain_neutral; [reflexivity | apply plain_indent].
Qed.

Lemma renderObject_neutral depth members :
  Forall (fun kv => neutral kv.2) members -> neutral (renderObject depth members).
Proof.
  intros H. rewrite renderObject_body. apply braces_neutral, objectBody_neutral, H.
Qed.

(** The closing brace that [findMatchingBrace] finds for an object at the
    start of a text is the object's last byte. *)
Lemma findMatchingBrace_object depth members rest :
  Forall (fun kv => neutral kv.2) members ->
  findMatchingBrace (renderObject depth members +:+ rest)
  = Z.of_nat (String.length (renderObject depth members)) - 1.
Proof.
  intros H. rewrite renderObject_body. unfold findMatchingBrace.
  rewrite append_cons, append_assoc. cbn [scanBrace]. simpl Ascii.eqb. cbn [andb].
  rewrite (objectBody_neutral depth members H _ _ (0 + 1)) by lia.
  rewrite append_cons, append_empty. cbn [scanBrace]. simpl Ascii.eqb. cbn [andb].
  simpl (0 + 1 - 1 =? 0).
  cbn [String.length]. rewrite length_append. cbn [String.length]. lia.
Qed.

Lemma workerMembers_neutral E ws :
  Forall (fun kv => neutral kv.2) (workerMembers E ws).
Proof.
  unfold workerMembers. repeat apply Forall_app_2.
  - repeat constructor. apply plain_neutral, plain_itoa.
  - destruct (LastNudge ws); repeat constructor. apply quote_neutral.
  - destruct (LastActive ws); repeat constructor. apply quote_neutral.
  - destruct (String.eqb (Issue ws) EmptyString); repeat constructor. apply quote_neutral.
  - destruct (String.eqb (ArmID ws) EmptyString); repeat constructor. apply quote_neutral.
Qed.

Lemma handoffMembers_neutral E state :
  Forall (fun kv => neutral kv.2) (handoffMembers E state).
Proof.
  unfold handoffMembers. repeat apply Forall_app_2.
  - repeat constructor. cbn [snd]. apply renderObject_neutral.
    apply Forall_forall. intros kv Hkv. apply list_elem_of_fmap in Hkv as (x & -> & _).
    apply (renderObject_neutral 2 (workerMembers E x.2)), workerMembers_neutral.
  - destruct (String.eqb (PatrolInstanceID state) EmptyString); repeat constructor.
    apply quote_neutral.
  - repeat constructor. cbn [snd].
    destruct (LastPatrol state); [apply quote_neutral | apply plain_neutral; reflexivity].
Qed.

(** The text before the document in the description. *)
Lemma handoffDescription_split E rig state :
  handoffDescription E rig state
  = ("Witness handoff state for " +:+ Name rig +:+ "." +:+ newline +:+ newline +:+
     "```json" +:+ newline)
    +:+ (MarshalIndent E state +:+ newline +:+ "```").
Proof. unfold handoffDescription. rewrite !append_assoc. reflexivity. Qed.

(** The parse step hands [json.Unmarshal] exactly the document that
    [json.MarshalIndent] wrote, when the rig's name has no opening brace. *)
Lemma parseHandoffDescription_slice E rig state :
  noByte lbrace (Name rig) ->
  parseHandoffDescription E (handoffDescription E rig state)
  = match json_Unmarshal E (MarshalIndent E state) with
    | Some decoded => decoded
    | None => emptyHandoff
    end.
Proof.
  intros Hname. rewrite handoffDescription_split.
  set (before := "Witness handoff state for " +:+ Name rig +:+ "." +:+ newline +:+
                 newline +:+ "```json" +:+ newline).
  set (after := newline +:+ "```").
  assert (Hbefore : noByte lbrace before).
  { unfold before. repeat (apply noByte_append; [try reflexivity|]);
      [exact Hname | reflexivity]. }
  assert (Hdoc : MarshalIndent E state
                 = String lbrace (objectBody 0 (handoffMembers E state) +:+
                                  String rbrace EmptyString))
    by apply renderObject_body.
  assert (Hidx : IndexByte (before +:+ (MarshalIndent E state +:+ after)) lbrace
                 = Some (String.length before)).
  { rewrite Hdoc, append_cons. apply IndexByte_first. exact Hbefore. }
  assert (Hfind : findMatchingBrace (MarshalIndent E state +:+ after)
                  = Z.of_nat (String.length (MarshalIndent E state)) - 1).
  { unfold MarshalIndent. apply findMatchingBrace_object, handoffMembers_neutral. }
  assert (Hlen : (2 <= String.length (MarshalIndent E state))%nat).
  { rewrite Hdoc. cbn [String.length]. rewrite length_append. simpl. lia. }
  unfold parseHandoffDescription. cbv zeta.
  rewrite Hidx, dropBytes_append, Hfind.
  destruct (Z.ltb_spec 0 (Z.of_nat (String.length (MarshalIndent E state)) - 1));
    [|lia].
  replace (Z.to_nat (Z.of_nat (String.length (MarshalIndent E state)) - 1 + 1))
    with (String.length (MarshalIndent E state)) by lia.
  rewrite substring_append. reflexivity.
Qed.




End WitnessFacts.

(** * Further properties of the code *)

(** ** Priorities, message types and labels *)

Module MailMessageFacts.
Import GoStrings StringFacts Mail MailMessage.

Lemma ParsePriority_cases s :
  (s = PriorityLow \/ s = PriorityNormal \/ s = PriorityHigh \/ s = PriorityUrgent) /\
    ParsePriority s = s \/
  (s <> PriorityLow /\ s <> PriorityNormal /\ s <> PriorityHigh /\ s <> PriorityUrgent) /\
    ParsePriority s = PriorityNormal.
Proof.
  unfold ParsePriority.
  destruct (String.eqb_spec s PriorityLow); [left; auto|].
  destruct (String.eqb_spec s PriorityNormal); [left; auto|].
  destruct (String.eqb_spec s PriorityHigh); [left; auto|].
  destruct (String.eqb_spec s PriorityUrgent); [left; auto|].
  right. auto.
Qed.

(** Sending a priority to the issue store and reading it back gives the
    priority that [ParsePriority] reads from the same text: a valid
    priority comes back as it was, every other text comes back as normal.
    The number sent is always one of 0, 1, 2, 3. *)
Theorem PriorityFromInt_PriorityToBeads (p : Priority) :
  PriorityFromInt (PriorityToBeads p) = ParsePriority p /\
  0 <= PriorityToBeads p <= 3.
Proof.
  destruct (ParsePriority_cases p) as [[Hv Hp] | [(Hl & Hn & Hh & Hu) Hp]]; rewrite Hp.
  - destruct Hv as [-> | [-> | [-> | ->]]]; vm_compute; intuition congruence.
  - unfold PriorityToBeads.
    destruct (String.eqb_spec p PriorityUrgent); [contradiction|].
    destruct (String.eqb_spec p PriorityHigh); [contradiction|].
    destruct (String.eqb_spec p PriorityLow); [contradiction|].
    vm_compute; intuition congruence.
Qed.

(** Reading a number of the issue store as a priority and sending it back
    gives the same number exactly for 0, 1, 2 and 3: 4 (backlog) goes back
    as 3, and every other number as 2. *)
Theorem PriorityToBeads_PriorityFromInt (n : Z) :
  (PriorityToBeads (PriorityFromInt n) = n <-> 0 <= n <= 3) /\
  (n = 4 -> PriorityToBeads (PriorityFromInt n) = 3) /\
  (n < 0 \/ 4 < n -> PriorityToBeads (PriorityFromInt n) = 2).
Proof.
  unfold PriorityFromInt.
  destruct (Z.eqb_spec n 0); [subst; vm_compute; intuition (try congruence; try lia)|].
  destruct (Z.eqb_spec n 1); [subst; vm_compute; intuition (try congruence; try lia)|].
  destruct (Z.eqb_spec n 2); [subst; vm_compute; intuition (try congruence; try lia)|].
  destruct (Z.eqb_spec n 3); [subst; vm_compute; intuition (try congruence; try lia)|].
  destruct (Z.eqb_spec n 4); [subst; vm_compute; intuition (try congruence; try lia)|].
  simpl. change (PriorityToBeads PriorityNormal) with 2.
  repeat split; intros; try lia.
Qed.

(** *** Labels *)

Lemma HasPrefix_append p s : HasPrefix (p +:+ s) p = true.
Proof.
  unfold HasPrefix. induction p as [|c r IH]; simpl.
  - destruct s; reflexivity.
  - destruct (ascii_dec c c); [exact IH | congruence].
Qed.

Lemma dropBytes_len_append p s : dropBytes (len p) (p +:+ s) = s.
Proof. unfold len. induction p as [|c r IH]; [destruct s; reflexivity | exact IH]. Qed.

Lemma TrimPrefix_append p s : TrimPrefix (p +:+ s) p = s.
Proof. unfold TrimPrefix. rewrite HasPrefix_append. apply dropBytes_len_append. Qed.

(** The four prefixes exclude one another: they differ in their first
    byte. *)
Lemma first_byte_decides p q l c d r r' :
  p = String c r -> q = String d r' -> c <> d ->
  HasPrefix l p = true -> HasPrefix l q = false.
Proof.
  intros -> -> Hcd. unfold HasPrefix. destruct l as [|e l]; [discriminate|]. simpl.
  destruct (ascii_dec c e); [subst e | discriminate]. intros _.
  destruct (ascii_dec d c); [congruence | reflexivity].
Qed.

Ltac other_prefix H :=
  eapply first_byte_decides; [reflexivity | reflexivity | | exact H]; discriminate.

Lemma withCache_id bm : withCache bm (sender bm) (threadID bm) (replyTo bm) (msgType bm) = bm.
Proof. destruct bm; reflexivity. Qed.

(** What the loop of [ParseLabels] leaves: each cached value is that of the
    last label with its prefix, and nothing else changes. *)
Lemma fold_parseLabel labels bm :
  fold_left parseLabel labels bm
  = withCache bm (lastValue "from:" labels (sender bm))
                 (lastValue "thread:" labels (threadID bm))
                 (lastValue "reply-to:" labels (replyTo bm))
                 (lastValue "msg-type:" labels (msgType bm)).
Proof.
  revert bm. induction labels as [|l ls IH]; intros bm.
  - symmetry. apply withCache_id.
  - change (fold_left parseLabel (l :: ls) bm) with (fold_left parseLabel ls (parseLabel bm l)).
    rewrite IH. unfold lastValue. simpl fold_left. unfold parseLabel.
    destruct (HasPrefix l "from:") eqn:H1.
    { assert (HasPrefix l "thread:" = false) as -> by other_prefix H1.
      assert (HasPrefix l "reply-to:" = false) as -> by other_prefix H1.
      assert (HasPrefix l "msg-type:" = false) as -> by other_prefix H1.
      reflexivity. }
    destruct (HasPrefix l "thread:") eqn:H2.
    { assert (HasPrefix l "reply-to:" = false) as -> by other_prefix H2.
      assert (HasPrefix l "msg-type:" = false) as -> by other_prefix H2.
      reflexivity. }
    destruct (HasPrefix l "reply-to:") eqn:H3.
    { assert (HasPrefix l "msg-type:" = false) as -> by other_prefix H3.
      reflexivity. }
    destruct (HasPrefix l "msg-type:") eqn:H4; reflexivity.
Qed.

Lemma ParseLabels_fields bm :
  ParseLabels bm
  = withCache bm (lastValue "from:" (Labels bm) (sender bm))
                 (lastValue "thread:" (Labels bm) (threadID bm))
                 (lastValue "reply-to:" (Labels bm) (replyTo bm))
                 (lastValue "msg-type:" (Labels bm) (msgType bm)).
Proof. apply fold_parseLabel. Qed.

Lemma lastValue_none p labels init :
  Forall (fun l => HasPrefix l p = false) labels -> lastValue p labels init = init.
Proof.
  unfold lastValue. induction 1 as [|l ls Hl _ IH]; simpl; [reflexivity|].
  rewrite Hl. exact IH.
Qed.

Lemma lastValue_app p l1 l2 init :
  lastValue p (l1 ++ l2) init = lastValue p l2 (lastValue p l1 init).
Proof. unfold lastValue. apply fold_left_app. Qed.

Lemma lastValue_last p pre s post init :
  Forall (fun l => HasPrefix l p = false) post ->
  lastValue p (pre ++ (p +:+ s) :: post) init = s.
Proof.
  intros Hpost. rewrite lastValue_app.
  change (lastValue p ((p +:+ s) :: post) (lastValue p pre init))
    with (lastValue p post
            (if HasPrefix (p +:+ s) p then TrimPrefix (p +:+ s) p
             else lastValue p pre init)).
  rewrite HasPrefix_append, TrimPrefix_append. apply lastValue_none. exact Hpost.
Qed.

Lemma lastValue_found p labels i1 i2 :
  Exists (fun l => HasPrefix l p = true) labels ->
  lastValue p labels i1 = lastValue p labels i2.
Proof.
  intros H. revert i1 i2. induction labels as [|l ls IH]; intros i1 i2.
  - inversion H.
  - change (lastValue p (l :: ls) i1)
      with (lastValue p ls (if HasPrefix l p then TrimPrefix l p else i1)).
    change (lastValue p (l :: ls) i2)
      with (lastValue p ls (if HasPrefix l p then TrimPrefix l p else i2)).
    destruct (HasPrefix l p) eqn:Hl; [reflexivity|].
    apply IH. apply Exists_cons in H as [H | H]; [congruence | exact H].
Qed.

Lemma lastValue_twice p labels init :
  lastValue p labels (lastValue p labels init) = lastValue p labels init.
Proof.
  destruct (decide (Exists (fun l => HasPrefix l p = true) labels)) as [Hex | Hno].
  - apply lastValue_found. exact Hex.
  - apply lastValue_none. apply Forall_forall. intros l Hl.
    destruct (HasPrefix l p) eqn:Hp; [|reflexivity].
    exfalso. apply Hno. apply Exists_exists. eauto.
Qed.

(** When several labels carry the same prefix, the last one counts; a
    cached value for which the list has no label stays as it was.  The
    sender, and with it the [From] address of the message that [ToMessage]
    builds, is that of the last [from:] label. *)
Theorem ParseLabels_last_label_wins (bm : BeadsMessage) :
  (forall pre s post,
     Labels bm = pre ++ ("from:" +:+ s) :: post ->
     Forall (fun l => HasPrefix l "from:" = false) post ->
     sender (ParseLabels bm) = s /\ From (ToMessage bm) = identityToAddress s) /\
  (forall pre s post,
     Labels bm = pre ++ ("thread:" +:+ s) :: post ->
     Forall (fun l => HasPrefix l "thread:" = false) post ->
     threadID (ParseLabels bm) = s /\ ThreadID (ToMessage bm) = s) /\
  (forall pre s post,
     Labels bm = pre ++ ("reply-to:" +:+ s) :: post ->
     Forall (fun l => HasPrefix l "reply-to:" = false) post ->
     replyTo (ParseLabels bm) = s /\ ReplyTo (ToMessage bm) = s) /\
  (forall pre s post,
     Labels bm = pre ++ ("msg-type:" +:+ s) :: post ->
     Forall (fun l => HasPrefix l "msg-type:" = false) post ->
     msgType (ParseLabels bm) = s) /\
  (Forall (fun l => HasPrefix l "from:" = false) (Labels bm) ->
     sender (ParseLabels bm) = sender bm) /\
  (Forall (fun l => HasPrefix l "thread:" = false) (Labels bm) ->
     threadID (ParseLabels bm) = threadID bm) /\
  (Forall (fun l => HasPrefix l "reply-to:" = false) (Labels bm) ->
     replyTo (ParseLabels bm) = replyTo bm) /\
  (Forall (fun l => HasPrefix l "msg-type:" = false) (Labels bm) ->
     msgType (ParseLabels bm) = msgType bm).
Proof.
  unfold ToMessage. cbn [From ThreadID ReplyTo].
  rewrite ParseLabels_fields. cbn [sender threadID replyTo msgType withCache].
  repeat match goal with |- _ /\ _ => split end;
    try (intros pre s post Hl Hpost; rewrite Hl;
         repeat match goal with |- _ /\ _ => split end;
         try apply f_equal; apply lastValue_last; exact Hpost);
    intros Hno; apply lastValue_none; exact Hno.
Qed.

(** A message of the issue store with two [from:] labels and a thread. *)
Example ToMessage_reads_last_from :
  let bm := {| BeadsID := "bd-7"; Title := "hello"; Description := "body";
               Assignee := "gastown/polecats/Toast"; BeadsPriority := 1;
               Status := "open"; CreatedAt := 0;
               Labels := ["from:mayor"; "thread:t-1"; "from:gastown/crew/max"; "other"];
               BeadsPinned := true; BeadsWisp := false;
               sender := EmptyString; threadID := EmptyString;
               replyTo := EmptyString; msgType := EmptyString |} in
  From (ToMessage bm) = "gastown/max" /\ To (ToMessage bm) = "gastown/Toast" /\
  ThreadID (ToMessage bm) = "t-1" /\ Priority_ (ToMessage bm) = "high" /\
  Type_ (ToMessage bm) = "notification" /\ Read (ToMessage bm) = false.
Proof. vm_compute. repeat split. Qed.

(** [ParseLabels] may run any number of times: a second run changes
    nothing, and [ToMessage], which runs it each time it is called, builds
    the same message from a receiver that has been parsed before. *)
Theorem ParseLabels_idempotent (bm : BeadsMessage) :
  ParseLabels (ParseLabels bm) = ParseLabels bm /\
  ToMessage (ParseLabels bm) = ToMessage bm.
Proof.
  assert (H : ParseLabels (ParseLabels bm) = ParseLabels bm).
  { rewrite (ParseLabels_fields (ParseLabels bm)).
    rewrite (ParseLabels_fields bm).
    cbn [Labels sender threadID replyTo msgType withCache].
    rewrite !lastValue_twice. reflexivity. }
  split; [exact H|]. unfold ToMessage. rewrite H. reflexivity.
Qed.

(** *** Addresses and the fields of a message *)

Lemma identityToAddress_twice i :
  identityToAddress (identityToAddress i) = identityToAddress i.
Proof.
  rewrite (MailFacts.identityToAddress_steps i).
  destruct (townLevel i) as [t|] eqn:Ht.
  - rewrite MailFacts.identityToAddress_steps.
    rewrite (MailFacts.townLevel_fixed i t (or_introl Ht)). reflexivity.
  - rewrite MailFacts.identityToAddress_steps.
    destruct (MailFacts.townLevel_None i Ht) as (Hm & _ & Hd & _).
    destruct (MailFacts.collapse_bare i Hm Hd) as [Hcm Hcd].
    unfold townLevel.
    destruct (String.eqb_spec (collapse i) "mayor"); [contradiction|].
    destruct (String.eqb_spec (collapse i) "mayor/") as [e|_]; [symmetry; exact e|].
    destruct (String.eqb_spec (collapse i) "deacon"); [contradiction|].
    destruct (String.eqb_spec (collapse i) "deacon/") as [e|_]; [symmetry; exact e|].
    simpl. apply MailFacts.collapse_collapse.
Qed.

(** [identityToAddress] is idempotent on every string: an address that it
    has produced is left as it is.  So the [From] and the [To] of every
    message that [ToMessage] builds are addresses that the conversion
    leaves unchanged. *)
Theorem identityToAddress_idempotent (i : string) (bm : BeadsMessage) :
  identityToAddress (identityToAddress i) = identityToAddress i /\
  identityToAddress (From (ToMessage bm)) = From (ToMessage bm) /\
  identityToAddress (To (ToMessage bm)) = To (ToMessage bm).
Proof.
  split; [apply identityToAddress_twice|].
  unfold ToMessage. cbn [From To]. split; apply identityToAddress_twice.
Qed.

Lemma ParseLabels_keeps bm :
  BeadsID (ParseLabels bm) = BeadsID bm /\ Title (ParseLabels bm) = Title bm /\
  Description (ParseLabels bm) = Description bm /\
  Assignee (ParseLabels bm) = Assignee bm /\
  BeadsPriority (ParseLabels bm) = BeadsPriority bm /\
  Status (ParseLabels bm) = Status bm /\ CreatedAt (ParseLabels bm) = CreatedAt bm /\
  Labels (ParseLabels bm) = Labels bm /\ BeadsPinned (ParseLabels bm) = BeadsPinned bm /\
  BeadsWisp (ParseLabels bm) = BeadsWisp bm.
Proof. rewrite ParseLabels_fields. repeat split. Qed.

(** The priority that [ToMessage] gives a message is the one that
    [PriorityFromInt] reads from the same number, except for the number 4
    (backlog), which [ToMessage] reads as normal and [PriorityFromInt] as
    low.  Sending the message's priority back to the issue store gives the
    number it came with exactly for 0, 1, 2 and 3. *)
Theorem ToMessage_priority (bm : BeadsMessage) :
  (Priority_ (ToMessage bm) = PriorityFromInt (BeadsPriority bm)
     <-> BeadsPriority bm <> 4) /\
  (BeadsPriority bm = 4 ->
     Priority_ (ToMessage bm) = PriorityNormal /\
     PriorityFromInt (BeadsPriority bm) = PriorityLow) /\
  (PriorityToBeads (Priority_ (ToMessage bm)) = BeadsPriority bm
     <-> 0 <= BeadsPriority bm <= 3).
Proof.
  unfold ToMessage. cbn [Priority_].
  destruct (ParseLabels_keeps bm) as (_ & _ & _ & _ & -> & _).
  unfold PriorityFromInt.
  destruct (Z.eqb_spec (BeadsPriority bm) 0) as [e|];
    [rewrite e; vm_compute; intuition (try congruence; try lia)|].
  destruct (Z.eqb_spec (BeadsPriority bm) 1) as [e|];
    [rewrite e; vm_compute; intuition (try congruence; try lia)|].
  destruct (Z.eqb_spec (BeadsPriority bm) 3) as [e|];
    [rewrite e; vm_compute; intuition (try congruence; try lia)|].
  destruct (Z.eqb_spec (BeadsPriority bm) 2) as [e|];
    [rewrite e; vm_compute; intuition (try congruence; try lia)|].
  destruct (Z.eqb_spec (BeadsPriority bm) 4) as [e|];
    [rewrite e; vm_compute; intuition (try congruence; try lia)|].
  simpl. change (PriorityToBeads PriorityNormal) with 2.
  repeat split; intros; try lia; try congruence.
Qed.

Lemma ParseMessageType_cases s :
  (s = TypeTask \/ s = TypeScavenge \/ s = TypeNotification \/ s = TypeReply) /\
    ParseMessageType s = s \/
  (s <> TypeTask /\ s <> TypeScavenge /\ s <> TypeNotification /\ s <> TypeReply) /\
    ParseMessageType s = TypeNotification.
Proof.
  unfold ParseMessageType.
  destruct (String.eqb_spec s TypeTask); [left; auto|].
  destruct (String.eqb_spec s TypeScavenge); [left; auto|].
  destruct (String.eqb_spec s TypeNotification); [left; auto|].
  destruct (String.eqb_spec s TypeReply); [left; auto|].
  right. auto.
Qed.

(** The type of the message that [ToMessage] builds is what
    [ParseMessageType] reads from the last [msg-type:] label, so it is
    always one of the four message types, and notification when the label
    is missing or unknown.  The message is read exactly when the issue is
    closed.  The pinned flag of the issue does not reach the message, and
    no delivery mode is set. *)
Theorem ToMessage_type_and_read (bm : BeadsMessage) :
  Type_ (ToMessage bm) = ParseMessageType (msgType (ParseLabels bm)) /\
  (Type_ (ToMessage bm) = TypeTask \/ Type_ (ToMessage bm) = TypeScavenge \/
   Type_ (ToMessage bm) = TypeNotification \/ Type_ (ToMessage bm) = TypeReply) /\
  (Forall (fun l => HasPrefix l "msg-type:" = false) (Labels bm) ->
   msgType bm = EmptyString -> Type_ (ToMessage bm) = TypeNotification) /\
  (Read (ToMessage bm) = true <-> Status bm = "closed") /\
  Pinned (ToMessage bm) = false /\ Delivery_ (ToMessage bm) = EmptyString /\
  Wisp (ToMessage bm) = BeadsWisp bm.
Proof.
  assert (Htype : Type_ (ToMessage bm) = ParseMessageType (msgType (ParseLabels bm))).
  { unfold ToMessage. cbn [Type_].
    destruct (ParseMessageType_cases (msgType (ParseLabels bm)))
      as [[Hv Hp] | [(Ht & Hs & Hn & Hr) Hp]]; rewrite Hp.
    - destruct Hv as [-> | [-> | [-> | ->]]]; reflexivity.
    - destruct (String.eqb_spec (msgType (ParseLabels bm)) TypeTask); [contradiction|].
      destruct (String.eqb_spec (msgType (ParseLabels bm)) TypeScavenge); [contradiction|].
      destruct (String.eqb_spec (msgType (ParseLabels bm)) TypeReply); [contradiction|].
      reflexivity. }
  split; [exact Htype|]. split; [|split; [|split]].
  - rewrite Htype.
    destruct (ParseMessageType_cases (msgType (ParseLabels bm)))
      as [[Hv Hp] | [_ Hp]]; rewrite Hp; tauto.
  - intros Hno Hempty. rewrite Htype, ParseLabels_fields. cbn [msgType withCache].
    rewrite (lastValue_none _ _ _ Hno), Hempty. reflexivity.
  - unfold ToMessage. cbn [Read].
    destruct (ParseLabels_keeps bm) as (_ & _ & _ & _ & _ & -> & _).
    destruct (String.eqb_spec (Status bm) "closed"); split; congruence.
  - unfold ToMessage. cbn [Pinned Delivery_ Wisp].
    destruct (ParseLabels_keeps bm) as (_ & _ & _ & _ & _ & _ & _ & _ & _ & ->).
    repeat split.
Qed.

(** [ParsePriority] and [ParseMessageType] keep the four valid values of
    their type and send every other text to the default, normal and
    notification: each is idempotent, and a text comes back unchanged
    exactly when it is valid. *)
Theorem Parse_defaults (s : string) :
  ParsePriority (ParsePriority s) = ParsePriority s /\
  (ParsePriority s = s <->
     s = PriorityLow \/ s = PriorityNormal \/ s = PriorityHigh \/ s = PriorityUrgent) /\
  (ParsePriority s <> s -> ParsePriority s = PriorityNormal) /\
  ParseMessageType (ParseMessageType s) = ParseMessageType s /\
  (ParseMessageType s = s <->
     s = TypeTask \/ s = TypeScavenge \/ s = TypeNotification \/ s = TypeReply) /\
  (ParseMessageType s <> s -> ParseMessageType s = TypeNotification).
Proof.
  destruct (ParsePriority_cases s) as [[Hv Hp] | [(H1 & H2 & H3 & H4) Hp]];
  destruct (ParseMessageType_cases s) as [[Hw Hq] | [(H5 & H6 & H7 & H8) Hq]];
    rewrite ?Hp, ?Hq; repeat match goal with |- _ /\ _ => split end;
    try tauto; try reflexivity; try (split; [intros <-; auto | tauto]);
    try (split; [intros; subst s; tauto | tauto]).
Qed.

End MailMessageFacts.

(** ** The Witness manager *)

Module WitnessMore.
Import GoStrings StringFacts GoJson Witness WitnessFacts.

(** *** The brace scanner *)

Lemma scanBrace_bounds s :
  forall i depth inString escaped,
    let r := scanBrace s i depth inString escaped in
    r = -1 \/
    (i <= r < i + Z.of_nat (String.length s) /\
     String.get (Z.to_nat (r - i)) s = Some rbrace).
Proof.
  induction s as [|c s IH]; intros i depth inString escaped; [left; reflexivity|].
  assert (Hrec : forall d a b,
            scanBrace s (i + 1) d a b = -1 \/
            (i <= scanBrace s (i + 1) d a b < i + Z.of_nat (String.length (String c s)) /\
             String.get (Z.to_nat (scanBrace s (i + 1) d a b - i)) (String c s)
             = Some rbrace)).
  { intros d a b. destruct (IH (i + 1) d a b) as [H | [Hr Hg]]; [left; exact H|].
    right. cbn [String.length]. split; [lia|].
    replace (Z.to_nat (scanBrace s (i + 1) d a b - i))
      with (S (Z.to_nat (scanBrace s (i + 1) d a b - (i + 1)))) by lia.
    exact Hg. }
  cbn [scanBrace]. cbv zeta.
  destruct escaped; [apply Hrec|].
  destruct (Ascii.eqb c backslash && inString); [apply Hrec|].
  destruct (Ascii.eqb c dquote); [apply Hrec|].
  destruct inString; [apply Hrec|].
  destruct (Ascii.eqb c lbrace); [apply Hrec|].
  destruct (Ascii.eqb_spec c rbrace) as [-> | _]; [|apply Hrec].
  destruct (depth - 1 =? 0); [|apply Hrec].
  right. cbn [String.length]. split; [lia|].
  replace (i - i) with 0 by lia. reflexivity.
Qed.

Lemma scanBrace_no_close s :
  noByte rbrace s ->
  forall i depth inString escaped, scanBrace s i depth inString escaped = -1.
Proof.
  unfold noByte. induction s as [|c s IH]; intros H i depth inString escaped;
    [reflexivity|].
  simpl in H. destruct (Ascii.eqb c rbrace) eqn:Hc; [discriminate|].
  destruct (IndexByte s rbrace); [discriminate|]. specialize (IH eq_refl).
  cbn [scanBrace]. rewrite Hc.
  repeat match goal with |- context [if ?b then _ else _] => destruct b end;
    apply IH.
Qed.

Lemma findMatchingBrace_not_first s : findMatchingBrace s <> 0.
Proof.
  unfold findMatchingBrace. destruct s as [|c s]; [discriminate|].
  assert (H : forall d a b, scanBrace s (0 + 1) d a b <> 0).
  { intros d a b. destruct (scanBrace_bounds s (0 + 1) d a b) as [H | [H _]]; lia. }
  cbn [scanBrace]. cbn [andb].
  rewrite andb_false_r.
  destruct (Ascii.eqb c dquote); [apply H|].
  destruct (Ascii.eqb c lbrace); [apply H|].
  destruct (Ascii.eqb c rbrace); [|apply H].
  simpl (0 - 1 =? 0). apply H.
Qed.

Lemma findMatchingBrace_range s :
  findMatchingBrace s = -1 \/
  (0 < findMatchingBrace s < Z.of_nat (String.length s) /\
   byteAt s (findMatchingBrace s) = Some rbrace).
Proof.
  pose proof (findMatchingBrace_not_first s) as Hnz.
  unfold findMatchingBrace in *.
  destruct (scanBrace_bounds s 0 0 false false) as [H | [Hr Hg]]; [left; exact H|].
  right. split; [lia|]. unfold byteAt.
  destruct (Z.ltb_spec (scanBrace s 0 0 false false) 0); [lia|].
  rewrite Z.sub_0_r in Hg. exact Hg.
Qed.

(** Whatever the text, [findMatchingBrace] answers -1 or the index of a
    closing brace of the text, and that index is never 0: the slice
    [jsonPart[:endIdx+1]] that [loadHandoffState] takes is in range, and its
    test [endIdx > 0] passes exactly when a brace was found.  A text
    without a closing brace gives -1. *)
Theorem findMatchingBrace_bounds (s : string) :
  (findMatchingBrace s = -1 \/
   (0 < findMatchingBrace s < Z.of_nat (String.length s) /\
    byteAt s (findMatchingBrace s) = Some rbrace)) /\
  ((0 <? findMatchingBrace s) = true <-> findMatchingBrace s <> -1) /\
  (noByte rbrace s -> findMatchingBrace s = -1).
Proof.
  pose proof (findMatchingBrace_range s) as Hb.
  split; [exact Hb|]. split.
  - rewrite Z.ltb_lt. destruct Hb as [H | [H _]]; lia.
  - intros H. apply scanBrace_no_close. exact H.
Qed.

Lemma scan_inner t :
  inner t ->
  forall r i depth,
    scanBrace (t +:+ r) i depth true false
    = scanBrace r (i + Z.of_nat (String.length t)) depth true false.
Proof.
  induction 1 as [|c t Hb Hq _ IH|c t _ IH]; intros r i depth.
  - simpl. f_equal. lia.
  - rewrite append_cons. cbn [scanBrace].
    apply Ascii.eqb_neq in Hb, Hq. rewrite Hb, Hq. cbn [andb].
    rewrite IH. cbn [String.length]. f_equal. lia.
  - rewrite !append_cons. cbn [scanBrace]. rewrite Ascii.eqb_refl. cbn [andb].
    rewrite IH. cbn [String.length]. f_equal. lia.
Qed.

Lemma literal_neutral t :
  inner t -> neutral (String dquote (t +:+ String dquote EmptyString)).
Proof.
  intros Ht r i depth _.
  rewrite append_cons, append_assoc. cbn [scanBrace]. simpl Ascii.eqb. cbn [andb negb].
  rewrite (scan_inner t Ht). rewrite append_cons, append_empty.
  cbn [scanBrace]. simpl Ascii.eqb. cbn [andb negb].
  cbn [String.length]. rewrite length_append. cbn [String.length]. f_equal. lia.
Qed.

Lemma balanced_neutral s : balanced s -> neutral s.
Proof.
  induction 1 as [s Hs|t Ht|b _ IH|s t _ IHs _ IHt].
  - apply plain_neutral. exact Hs.
  - apply literal_neutral. exact Ht.
  - apply braces_neutral. exact IH.
  - apply neutral_append; assumption.
Qed.

(** [findMatchingBrace] pairs the opening brace at the start of a text with
    its closing brace whenever what stands between them is balanced: made
    of nested braces, of string literals, inside which braces, escaped
    quotes and escaped backslashes do not count, and of other bytes.  What
    follows the closing brace plays no part. *)
Theorem findMatchingBrace_balanced (body rest : string) :
  balanced body ->
  findMatchingBrace (String lbrace (body +:+ String rbrace rest))
  = Z.of_nat (String.length body) + 1.
Proof.
  intros Hb. unfold findMatchingBrace.
  cbn [scanBrace]. simpl Ascii.eqb. cbn [andb].
  rewrite (balanced_neutral body Hb _ _ (0 + 1)) by lia.
  cbn [scanBrace]. simpl Ascii.eqb. cbn [andb]. simpl (0 + 1 - 1 =? 0). lia.
Qed.

(** The statement above for an object that holds a nested object and a
    string literal with a brace, an escaped quote and another brace in it;
    a second closing brace follows. *)
Lemma findMatchingBrace_balanced_witness :
  findMatchingBrace
    (String lbrace
       (("{x}" +:+
         String dquote (String rbrace (String backslash (String dquote
           (String lbrace (String dquote EmptyString)))))) +:+
        String rbrace "}"))
  = 10.
Proof.
  refine (eq_trans
            (findMatchingBrace_balanced
               ("{x}" +:+
                String dquote (String rbrace (String backslash (String dquote
                  (String lbrace (String dquote EmptyString))))))
               "}" _)
            eq_refl).
  apply balanced_append.
  - apply (balanced_braces "x"). apply balanced_plain. reflexivity.
  - apply (balanced_literal
             (String rbrace (String backslash (String dquote (String lbrace EmptyString))))).
    apply inner_byte; [discriminate | discriminate |].
    apply inner_escape. apply inner_byte; [discriminate | discriminate |].
    apply inner_nil.
Defined.

(** *** The parse step of [loadHandoffState] *)

Lemma IndexByte_split s c n :
  IndexByte s c = Some n ->
  exists pre tail,
    s = pre +:+ String c tail /\ String.length pre = n /\ noByte c pre /\
    dropBytes n s = String c tail.
Proof.
  revert n. induction s as [|a s IH]; intros n H; [discriminate|].
  simpl in H. destruct (Ascii.eqb_spec a c) as [-> | Hac].
  - injection H as <-. exists EmptyString, s. repeat split; reflexivity.
  - destruct (IndexByte s c) as [m|] eqn:Hm; [|discriminate].
    injection H as <-. destruct (IH m eq_refl) as (pre & tail & Hs & Hl & Hn & Hd).
    exists (String a pre), tail. repeat split.
    + rewrite append_cons, <- Hs. reflexivity.
    + simpl. rewrite Hl. reflexivity.
    + unfold noByte in *. simpl. apply Ascii.eqb_neq in Hac. rewrite Hac, Hn. reflexivity.
    + exact Hd.
Qed.

Lemma substring_dropBytes n s :
  String.substring 0 n s +:+ dropBytes n s = s.
Proof.
  revert s. induction n as [|n IH]; intros s.
  - destruct s; reflexivity.
  - destruct s as [|c s]; [reflexivity|]. simpl. rewrite append_cons, IH. reflexivity.
Qed.

Lemma lastByte_substring n s c :
  String.get n s = Some c -> lastByte (String.substring 0 (S n) s) = Some c.
Proof.
  revert s. induction n as [|n IH]; intros s H.
  - destruct s as [|a s]; [discriminate|]. simpl in H. injection H as ->.
    simpl. destruct s; reflexivity.
  - destruct s as [|a s]; [discriminate|]. simpl in H.
    change (String.substring 0 (S (S n)) (String a s))
      with (String a (String.substring 0 (S n) s)).
    cbn [lastByte]. rewrite (IH s H). reflexivity.
Qed.

Lemma noByte_dropBytes c n s : noByte c s -> noByte c (dropBytes n s).
Proof.
  unfold noByte. revert s. induction n as [|n IH]; intros s H; [exact H|].
  destruct s as [|a s]; [reflexivity|]. simpl in H |- *.
  destruct (Ascii.eqb a c); [discriminate|].
  destruct (IndexByte s c) eqn:Hs; [discriminate|]. apply IH. exact Hs.
Qed.

(** The parse step never fails.  A description without an opening brace,
    or without a closing brace, gives the empty record.  In every other
    case the record is either the empty one or what [json.Unmarshal] made
    of one piece of the description: the piece that starts at the first
    opening brace of the description and ends with a closing brace. *)
Theorem parseHandoffDescription_fallback (E : Env) (desc : string) :
  (noByte lbrace desc -> parseHandoffDescription E desc = emptyHandoff) /\
  (noByte rbrace desc -> parseHandoffDescription E desc = emptyHandoff) /\
  (parseHandoffDescription E desc = emptyHandoff \/
   exists pre text post,
     desc = pre +:+ text +:+ post /\ noByte lbrace pre /\
     HasPrefix text "{" = true /\ lastByte text = Some rbrace /\
     json_Unmarshal E text = Some (parseHandoffDescription E desc)).
Proof.
  split; [|split].
  - intros H. unfold parseHandoffDescription. unfold noByte in H. rewrite H. reflexivity.
  - intros H. unfold parseHandoffDescription.
    destruct (IndexByte desc lbrace) as [idx|]; [|reflexivity]. cbv zeta.
    unfold findMatchingBrace.
    rewrite (scanBrace_no_close _ (noByte_dropBytes rbrace idx desc H)). reflexivity.
  - unfold parseHandoffDescription.
    destruct (IndexByte desc lbrace) as [idx|] eqn:Hidx; [|left; reflexivity].
    cbv zeta.
    destruct (IndexByte_split desc lbrace idx Hidx) as (pre & tail & Hs & Hl & Hn & Hd).
    rewrite Hd. set (j := String lbrace tail).
    destruct (Z.ltb_spec 0 (findMatchingBrace j)) as [Hpos|]; [|left; reflexivity].
    destruct (json_Unmarshal E (String.substring 0 (Z.to_nat (findMatchingBrace j + 1)) j))
      as [decoded|] eqn:Hdec; [|left; reflexivity].
    right.
    destruct (findMatchingBrace_range j) as [Hm | [Hr Hg]]; [lia|].
    exists pre, (String.substring 0 (Z.to_nat (findMatchingBrace j + 1)) j),
           (dropBytes (Z.to_nat (findMatchingBrace j + 1)) j).
    split; [rewrite substring_dropBytes; exact Hs|].
    split; [exact Hn|].
    replace (Z.to_nat (findMatchingBrace j + 1))
      with (S (Z.to_nat (findMatchingBrace j))) in * by lia.
    split; [unfold j, HasPrefix; simpl;
            destruct (String.substring 0 _ tail); reflexivity|].
    split; [|exact Hdec].
    apply lastByte_substring. unfold byteAt in Hg.
    destruct (Z.ltb_spec (findMatchingBrace j) 0); [lia | exact Hg].
Qed.

(** The description that [ensureHandoffBead] gives a new bead is one that
    the parse step of [loadHandoffState] reads: for a rig whose name has no
    opening brace, the parse hands [json.Unmarshal] exactly the document
    with the empty worker states and the null last patrol, and falls back
    to the empty record when the decoder refuses it. *)
Theorem initialDescription_parses (E : Env) (rig : Rig) :
  noByte lbrace (Name rig) ->
  parseHandoffDescription E (initialDescription rig)
  = match json_Unmarshal E initialDocument with
    | Some decoded => decoded
    | None => emptyHandoff
    end.
Proof.
  intros Hname.
  set (before := "Witness handoff state for " +:+ Name rig +:+ "." +:+ newline +:+
                 newline +:+ "```json" +:+ newline).
  set (after := newline +:+ "```").
  assert (Hsplit : initialDescription rig = before +:+ (initialDocument +:+ after)).
  { unfold initialDescription, before, after. rewrite !append_assoc. reflexivity. }
  assert (Hbefore : noByte lbrace before).
  { unfold before. repeat (apply noByte_append; [try reflexivity|]);
      [exact Hname | reflexivity]. }
  assert (Hidx : IndexByte (before +:+ (initialDocument +:+ after)) lbrace
                 = Some (String.length before)).
  { apply (IndexByte_first before lbrace). exact Hbefore. }
  unfold parseHandoffDescription. cbv zeta.
  rewrite Hsplit, Hidx, dropBytes_append.
  replace (findMatchingBrace (initialDocument +:+ after)) with 41
    by (vm_compute; reflexivity).
  change (String.substring 0 (Z.to_nat (41 + 1)) (initialDocument +:+ after))
    with initialDocument.
  reflexivity.
Qed.

(** The statement above for the rig gastown and a decoder that refuses
    every text. *)
Lemma initialDescription_parses_witness :
  parseHandoffDescription Examples.quiet (initialDescription Examples.gastown)
  = emptyHandoff.
Proof. exact (initialDescription_parses Examples.quiet Examples.gastown eq_refl). Defined.

(** *** The done tag *)

Lemma append_inj_l p a b : p +:+ a = p +:+ b -> a = b.
Proof.
  induction p as [|c p IH]; intros H; [exact H|].
  rewrite !append_cons in H. injection H as H. apply IH. exact H.
Qed.

Lemma existsb_snoc {A} (f : A -> bool) l x : existsb f (l ++ [x]) = existsb f l || f x.
Proof. rewrite existsb_app. simpl. rewrite orb_false_r. reflexivity. Qed.

(** After [recordDone] the polecat counts as having sent its done
    message; no other polecat's answer changes.  The tag is written once:
    when it is there already, nothing changes and nothing is saved, so
    recording twice is recording once; when it is not, the tag goes to the
    end of the scratch list and the state file is written. *)
Theorem recordDone_hasSentDone (E : Env) (name : string) (st : State) :
  let st' := (recordDone E name st).2 in
  hasSentDone (wit st') name = true /\
  (forall other, other <> name ->
     hasSentDone (wit st') other = hasSentDone (wit st) other) /\
  (hasSentDone (wit st) name = true -> st' = st) /\
  (hasSentDone (wit st) name = false ->
     SpawnedIssues (wit st') = SpawnedIssues (wit st) ++ ["done:" +:+ name] /\
     hist st' = EvSaveState (wit st') :: hist st) /\
  (recordDone E name st').2 = st'.
Proof.
  assert (Hrun : forall s,
            (recordDone E name s).2
            = if hasSentDone (wit s) name then s
              else {| handoffState := handoffState s;
                      wit := setSpawnedIssues (wit s)
                               (SpawnedIssues (wit s) ++ ["done:" +:+ name]);
                      hist := EvSaveState
                                (setSpawnedIssues (wit s)
                                   (SpawnedIssues (wit s) ++ ["done:" +:+ name]))
                              :: hist s |}).
  { intros s. unfold recordDone, hasSentDone, bind, getWitness, setWitness, saveState,
      act, ret. cbv beta iota zeta.
    destruct (existsb (String.eqb ("done:" +:+ name)) (SpawnedIssues (wit s)));
      reflexivity. }
  assert (Hset : hasSentDone (wit (recordDone E name st).2) name = true).
  { rewrite Hrun. destruct (hasSentDone (wit st) name) eqn:Hd; [exact Hd|].
    unfold hasSentDone. cbn [wit SpawnedIssues setSpawnedIssues].
    rewrite existsb_snoc, String.eqb_refl. apply orb_true_r. }
  cbv zeta. split; [exact Hset|]. split; [|split; [|split]].
  - intros other Hother. rewrite Hrun.
    destruct (hasSentDone (wit st) name); [reflexivity|].
    unfold hasSentDone. cbn [wit SpawnedIssues setSpawnedIssues]. rewrite existsb_snoc.
    destruct (String.eqb_spec ("done:" +:+ other) ("done:" +:+ name)) as [e|_].
    + apply append_inj_l in e. contradiction.
    + apply orb_false_r.
  - intros Hd. rewrite Hrun, Hd. reflexivity.
  - intros Hd. rewrite Hrun, Hd. split; reflexivity.
  - rewrite (Hrun (recordDone E name st).2), Hset. reflexivity.
Qed.

(** *** The waiting tag *)

Lemma getWaitingTimestamp_new E key entries stamp :
  Forall (fun entry => HasPrefix entry (key +:+ ":") = false) entries ->
  getWaitingTimestamp E (entries ++ [key +:+ ":" +:+ stamp]) key
  = match time_Parse E stamp with Some ts => ts | None => 0 end.
Proof.
  induction 1 as [|e l He _ IH]; simpl.
  - rewrite <- append_assoc.
    replace (HasPrefix ((key +:+ ":") +:+ stamp) (key +:+ ":")) with true
      by (symmetry; unfold HasPrefix; apply prefix_app_r, prefix_refl).
    replace (len key + 1)%nat with (String.length (key +:+ ":"))
      by (unfold len; rewrite length_append; reflexivity).
    rewrite dropBytes_append. reflexivity.
  - rewrite He. exact IH.
Qed.

(** What [recordWaiting] writes, [getWaitingTimestamp] reads back: when the
    scratch list has no waiting entry for the key yet, the time found
    after [recordWaiting] is the present time as the tag's text parses
    back; the tag is the last entry of the list and the state file is
    written. *)
Theorem recordWaiting_getWaitingTimestamp (E : Env) (key : string) (st : State) (t : Time) :
  Forall (fun entry => HasPrefix entry (key +:+ ":") = false) (SpawnedIssues (wit st)) ->
  time_Parse E (time_Format E (time_Now E (hist st))) = Some t ->
  let st' := (recordWaiting E key st).2 in
  getWaitingTimestamp E (SpawnedIssues (wit st')) key = t /\
  SpawnedIssues (wit st')
    = SpawnedIssues (wit st) ++ [key +:+ ":" +:+ time_Format E (time_Now E (hist st))] /\
  hist st' = EvSaveState (wit st') :: hist st.
Proof.
  intros Hnone Hparse. cbv zeta.
  unfold recordWaiting, bind, ask, getWitness, setWitness, saveState, act, ret. simpl.
  rewrite (getWaitingTimestamp_new E key _ _ Hnone), Hparse. repeat split.
Qed.

(** The statement above for the key of Joe at noon, beside an issue id. *)
Lemma recordWaiting_getWaitingTimestamp_witness :
  getWaitingTimestamp (Examples.waitingForJoe Examples.noon)
    (SpawnedIssues
       (wit (recordWaiting (Examples.waitingForJoe Examples.noon) "waiting:Joe"
               (Examples.initial None ["bd-123"])).2))
    "waiting:Joe"
  = Examples.noon.
Proof.
  refine (proj1 (recordWaiting_getWaitingTimestamp
                   (Examples.waitingForJoe Examples.noon) "waiting:Joe"
                   (Examples.initial None ["bd-123"]) Examples.noon _ eq_refl)).
  repeat constructor.
Defined.

Lemma existsb_filter_kept {A} (f : A -> bool) (P : A -> Prop) `{forall x, Decision (P x)}
    (l : list A) :
  (forall x, f x = true -> P x) -> existsb f (filter P l) = existsb f l.
Proof.
  intros Hf. induction l as [|a l IH]; [reflexivity|].
  rewrite filter_cons. destruct (decide (P a)) as [Hp|Hn]; simpl; rewrite IH; [reflexivity|].
  destruct (f a) eqn:Hfa; [exfalso; apply Hn, Hf, Hfa | reflexivity].
Qed.

Lemma countEntries_filter_kept key (P : string -> Prop) `{forall x, Decision (P x)} l :
  P key -> countEntries key (filter P l) = countEntries key l.
Proof.
  intros Hk. unfold countEntries. f_equal. f_equal.
  induction l as [|a l IH]; [reflexivity|].
  rewrite !filter_cons. destruct (decide (P a)) as [Hp|Hn].
  - rewrite filter_cons. destruct (decide (a = key)); rewrite IH; reflexivity.
  - destruct (decide (a = key)) as [->|_]; [contradiction | exact IH].
Qed.

Lemma prefix_first_byte c d p s :
  c <> d -> String.prefix (String d p) (String c s) = false.
Proof.
  intros H.
  change (String.prefix (String d p) (String c s))
    with (if ascii_dec d c then String.prefix p s else false).
  destruct (ascii_dec d c); congruence.
Qed.

(** [clearWaiting] for the key of a polecat leaves no waiting time for
    that polecat, and it touches only waiting tags: the done tags, the nudge
    counts and every spawned issue whose id does not begin with [waiting:]
    are as before. *)
Theorem clearWaiting_keeps_other_tags (E : Env) (N : string) (st : State) :
  let st' := (clearWaiting E ("waiting:" +:+ N) st).2 in
  getWaitingTimestamp E (SpawnedIssues (wit st')) ("waiting:" +:+ N) = 0 /\
  (forall name, hasSentDone (wit st') name = hasSentDone (wit st) name) /\
  (forall name, getNudgeCount st' name = getNudgeCount st name) /\
  (forall id, HasPrefix id "waiting:" = false ->
     isAlreadySpawned (wit st') id = isAlreadySpawned (wit st) id) /\
  hist st' = EvSaveState (wit st') :: hist st.
Proof.
  cbv zeta.
  unfold clearWaiting, bind, getWitness, setWitness, saveState, act, ret.
  cbn [snd wit hist handoffState SpawnedIssues setSpawnedIssues].
  rewrite withoutPrefix_filter.
  split; [apply getWaitingTimestamp_cleared|]. split; [|split; [|split]].
  - intros name. unfold hasSentDone. cbn [SpawnedIssues].
    apply existsb_filter_kept. intros x Hx. apply String.eqb_eq in Hx. subst x.
    apply (prefix_first_byte "d" "w" ("aiting:" +:+ N) ("one:" +:+ name)). discriminate.
  - intros name. unfold getNudgeCount.
    cbn [wit handoffState SpawnedIssues setSpawnedIssues].
    rewrite countEntries_filter_kept; [reflexivity|].
    apply (prefix_first_byte "n" "w" ("aiting:" +:+ N) ("udge:" +:+ name)). discriminate.
  - intros id Hid. unfold isAlreadySpawned. cbn [SpawnedIssues].
    apply existsb_filter_kept. intros x Hx. apply String.eqb_eq in Hx. subst x.
    destruct (HasPrefix id ("waiting:" +:+ N)) eqn:Hp; [|reflexivity].
    unfold HasPrefix in *. apply prefix_app_l in Hp. congruence.
  - reflexivity.
Qed.

(** *** The nudge count's reset *)


(** [clearNudgeCount] acts on a polecat that the loaded handoff record
    knows, and on no other: without a record, or without an entry for the
    polecat, the state stays as it is and nothing is written.  For a known
    polecat the count reads 0 afterwards, the record goes to the handoff
    bead, and the counts of the other polecats are untouched. *)
Theorem clearNudgeCount_known_only (E : Env) (rig : Rig) (hb : string)
    (name : string) (st : State) :
  let st' := (clearNudgeCount E rig hb name st).2 in
  (handoffState st = None -> st' = st) /\
  (forall hs, handoffState st = Some hs -> WorkerStates hs !! name = None -> st' = st) /\
  (forall hs ws, handoffState st = Some hs -> WorkerStates hs !! name = Some ws ->
     getNudgeCount st' name = 0 /\
     (exists hs', handoffState st' = Some hs' /\
        hist st' = EvBdUpdate (handoffBeadID rig hb) (handoffDescription E rig hs')
                   :: hist st) /\
     wit st' = wit st /\
     (forall other, other <> name -> getNudgeCount st' other = getNudgeCount st other)).
Proof.
  cbv zeta.
  unfold clearNudgeCount, saveHandoffState, bind, getHandoff, setHandoff, ask, act, ret.
  cbv beta iota zeta.
  destruct (handoffState st) as [hs|] eqn:Hhs.
  - destruct (WorkerStates hs !! name) as [ws|] eqn:Hws; cbn [snd hist wit handoffState].
    + split; [discriminate|]. split; [intros hs0 [= <-]; congruence|].
      intros hs0 ws0 [= <-] _. split; [|split; [|split]].
      * unfold getNudgeCount. cbn [handoffState WorkerStates setWorkerStates].
        rewrite lookup_insert_eq. reflexivity.
      * eexists. split; reflexivity.
      * reflexivity.
      * intros other Hother. unfold getNudgeCount.
        cbn [handoffState wit WorkerStates setWorkerStates].
        rewrite Hhs, lookup_insert_ne by congruence. reflexivity.
    + split; [discriminate|]. split; [reflexivity|].
      intros hs0 ws0 [= <-]. congruence.
  - cbn [snd]. split; [reflexivity|]. split; discriminate.
Qed.

(** *** Verification and cleanup *)

(** [verifyPolecatState] only reads: the state and the history are as
    before.  It passes exactly when the polecat's directory is gone, or
    when the worktree is clean and the push check does not report an
    unpushed branch; a push check that fails is not held against the
    polecat, while a status check that fails is. *)
Theorem verifyPolecatState_passes (E : Env) (rig : Rig) (name : string) (st : State) :
  let r := verifyPolecatState E rig name st in
  let path := polecatDir rig name in
  r.2 = st /\
  (r.1 = None <->
     os_NotExist E (hist st) path = true \/
     (git_StatusClean E (hist st) path = Ok true /\
      forall n, git_BranchPushedToRemote E (hist st) path ("polecat/" +:+ name) "origin"
                <> Ok (false, n))) /\
  (forall e, os_NotExist E (hist st) path = false ->
     git_StatusClean E (hist st) path = Err e ->
     r.1 = Some ("checking git status: " +:+ e)) /\
  (forall e, os_NotExist E (hist st) path = false ->
     git_StatusClean E (hist st) path = Ok true ->
     git_BranchPushedToRemote E (hist st) path ("polecat/" +:+ name) "origin" = Err e ->
     r.1 = None).
Proof.
  cbv zeta. split; [apply verifyPolecatState_reads|].
  unfold verifyPolecatState, bind, ask, ret. cbv beta iota zeta.
  destruct (os_NotExist E (hist st) (polecatDir rig name)); cbn [fst].
  { split; [tauto|]. split; discriminate. }
  destruct (git_StatusClean E (hist st) (polecatDir rig name)) as [[|]|e]; cbn [fst].
  - destruct (git_BranchPushedToRemote E (hist st) (polecatDir rig name)
                ("polecat/" +:+ name) "origin") as [[[|] n]|e]; cbn [fst].
    + split; [|split; [discriminate | reflexivity]].
      split; [intros _; right; split; [reflexivity | congruence] | reflexivity].
    + split; [|split; discriminate].
      split; [discriminate|].
      intros [H | [_ H]]; [discriminate | exfalso; apply (H n); reflexivity].
    + split; [|split; [discriminate | reflexivity]].
      split; [intros _; right; split; [reflexivity | congruence] | reflexivity].
  - split; [|split; discriminate].
    split; [discriminate | intros [H | [H _]]; discriminate].
  - split; [|split; [intros e0 _ [= <-]; reflexivity | discriminate]].
    split; [discriminate | intros [H | [H _]]; discriminate].
Qed.

(** [cleanupPolecat] acts on the named polecat only, and in a fixed order:
    it stops the session when one runs, removes the worktree, and deletes
    the branch [polecat/<name>] last.  It returns no error exactly when it
    got as far as the branch; when it refuses, nothing is done; when the
    removal fails, the branch stays. *)
Theorem cleanupPolecat_events (E : Env) (rig : Rig) (name : string) (st : State) :
  let r := cleanupPolecat E rig name st in
  let stop := EvSessionStop name in
  let remove := EvRemoveWorktree name in
  let delete := EvDeleteBranch ("polecat/" +:+ name) in
  exists evs,
    hist r.2 = evs ++ hist st /\
    (evs = [] \/ evs = [remove] \/ evs = [remove; stop] \/
     evs = [delete; remove] \/ evs = [delete; remove; stop]) /\
    (r.1 = None <-> exists rest, evs = delete :: rest) /\
    (In stop evs -> session_IsRunning E (hist st) name = (true, None)) /\
    wit r.2 = wit st /\ handoffState r.2 = handoffState st.
Proof.
  cbv zeta. unfold cleanupPolecat, bind, ask, act, ret. cbv beta iota zeta.
  destruct (git_CheckUncommittedWork E (hist st) (polecatDir rig name)) as [s|e];
    [destruct (Clean s); cbn [negb]|];
    try (destruct (session_IsRunning E (hist st) name) as [[|] [err|]];
         cbv beta iota zeta;
         match goal with
         | |- context [polecat_Remove E ?h name] => destruct (polecat_Remove E h name)
         end);
    cbn [fst snd hist wit handoffState];
    first
      [ exists []; split; [reflexivity|]
      | exists [EvRemoveWorktree name]; split; [reflexivity|]
      | exists [EvRemoveWorktree name; EvSessionStop name]; split; [reflexivity|]
      | exists [EvDeleteBranch ("polecat/" +:+ name); EvRemoveWorktree name];
        split; [reflexivity|]
      | exists [EvDeleteBranch ("polecat/" +:+ name); EvRemoveWorktree name;
                EvSessionStop name]; split; [reflexivity|] ];
    (split; [tauto|]);
    (split; [split; [intros H; try discriminate H; eexists; reflexivity
                    | intros [rest H]; try discriminate H; reflexivity]|]);
    (split; [|split; reflexivity]);
    cbn [In]; intros H; try reflexivity;
    repeat (destruct H as [H|H]; try discriminate H); try contradiction.
Qed.

(** *** Running a computation step by step *)

Lemma wp_bind {A B} (m : M A) (k : A -> M B) Q st :
  wp m (fun a st' => wp (k a) Q st') st -> wp (bind m k) Q st.
Proof. unfold wp, bind. destruct (m st) as [a st']. exact (fun H => H). Qed.

Lemma wp_ret {A} (a : A) (Q : A -> State -> Prop) st : Q a st -> wp (ret a) Q st.
Proof. exact (fun H => H). Qed.

Lemma wp_ask {A} (f : History -> A) (Q : A -> State -> Prop) st :
  Q (f (hist st)) st -> wp (ask f) Q st.
Proof. exact (fun H => H). Qed.

Lemma wp_act {A} (f : History -> A) e (Q : A -> State -> Prop) st :
  Q (f (hist st))
    {| handoffState := handoffState st; wit := wit st; hist := e :: hist st |} ->
  wp (act f e) Q st.
Proof. exact (fun H => H). Qed.

Lemma wp_getWitness (Q : Witness -> State -> Prop) st : Q (wit st) st -> wp getWitness Q st.
Proof. exact (fun H => H). Qed.

Lemma wp_setWitness w (Q : unit -> State -> Prop) st :
  Q tt {| handoffState := handoffState st; wit := w; hist := hist st |} ->
  wp (setWitness w) Q st.
Proof. exact (fun H => H). Qed.

Lemma wp_getHandoff (Q : option WitnessHandoffState -> State -> Prop) st :
  Q (handoffState st) st -> wp getHandoff Q st.
Proof. exact (fun H => H). Qed.

Lemma wp_setHandoff h (Q : unit -> State -> Prop) st :
  Q tt {| handoffState := h; wit := wit st; hist := hist st |} ->
  wp (setHandoff h) Q st.
Proof. exact (fun H => H). Qed.

Lemma wp_mono {A} (m : M A) (R Q : A -> State -> Prop) st :
  wp m R st -> (forall a st', R a st' -> Q a st') -> wp m Q st.
Proof. unfold wp. intros H HQ. apply HQ, H. Qed.

Lemma wp_read {A} (f : State -> A) (Q : A -> State -> Prop) st :
  Q (f st) st -> wp (fun s => (f s, s)) Q st.
Proof. exact (fun H => H). Qed.

Ltac wp_step :=
  cbv beta;
  lazymatch goal with
  | |- wp (bind _ _) _ _ => apply wp_bind
  | |- wp (ret _) _ _ => apply wp_ret
  | |- wp (ask _) _ _ => apply wp_ask
  | |- wp (act _ _) _ _ => apply wp_act
  | |- wp getWitness _ _ => apply wp_getWitness
  | |- wp (setWitness _) _ _ => apply wp_setWitness
  | |- wp getHandoff _ _ => apply wp_getHandoff
  | |- wp (setHandoff _) _ _ => apply wp_setHandoff
  | |- wp (match ?x with _ => _ end) _ _ => destruct x eqn:?
  end.

(** Calling an operation whose effect a lemma describes. *)
Ltac wp_call spec := cbv beta; eapply wp_mono; [apply spec | cbv beta].

(** *** What an operation does and what it leaves alone *)

Lemma follows_refl P h : follows P h h.
Proof. exists []. split; [reflexivity | constructor]. Qed.

Lemma follows_cons P h0 h e : P e -> follows P h0 h -> follows P h0 (e :: h).
Proof.
  intros He (evs & -> & Hf). exists (e :: evs). split; [reflexivity|].
  constructor; assumption.
Qed.

Lemma follows_trans P h0 h1 h2 : follows P h0 h1 -> follows P h1 h2 -> follows P h0 h2.
Proof.
  intros (e1 & -> & H1) (e2 & -> & H2). exists (e2 ++ e1).
  split; [apply app_assoc | apply Forall_app_2; assumption].
Qed.

Lemma follows_weaken (P Q : Event -> Prop) h0 h :
  (forall e, P e -> Q e) -> follows P h0 h -> follows Q h0 h.
Proof.
  intros HPQ (evs & -> & Hf). exists evs. split; [reflexivity|].
  eapply Forall_impl; eassumption.
Qed.

Lemma sameSetup_refl w : sameSetup w w.
Proof. repeat split. Qed.

Lemma sameSetup_trans w1 w2 w3 : sameSetup w1 w2 -> sameSetup w2 w3 -> sameSetup w1 w3.
Proof. unfold sameSetup. intuition congruence. Qed.

Lemma advances_refl P st : advances P st st.
Proof. split; [apply sameSetup_refl | apply follows_refl]. Qed.

Lemma advances_trans P st1 st2 st3 :
  advances P st1 st2 -> advances P st2 st3 -> advances P st1 st3.
Proof.
  intros [S1 F1] [S2 F2].
  split; [eapply sameSetup_trans | eapply follows_trans]; eassumption.
Qed.

Lemma advances_weaken (P Q : Event -> Prop) st st' :
  (forall e, P e -> Q e) -> advances P st st' -> advances Q st st'.
Proof. intros HPQ [S F]. split; [exact S | eapply follows_weaken; eassumption]. Qed.

Lemma only_incl ks ks' e : incl ks ks' -> only ks e -> only ks' e.
Proof. unfold only. intros Hi He. apply Hi, He. Qed.

(** An operation that performs the kinds [ks] keeps every invariant of the
    form: the kinds [ks'], which include [ks], since the state [st0]. *)
Lemma performs_wp ks ks' {A} (m : M A) st0 st :
  performs ks m -> incl ks ks' ->
  advances (only ks') st0 st ->
  wp m (fun _ st' => advances (only ks') st0 st') st.
Proof.
  intros Hm Hi H0. unfold wp. eapply advances_trans; [exact H0|].
  eapply advances_weaken; [|apply Hm]. intros e. apply only_incl, Hi.
Qed.

Lemma performs_intro ks {A} (m : M A) :
  (forall st, wp m (fun _ st' => advances (only ks) st st') st) -> performs ks m.
Proof. intros H st. apply H. Qed.

Lemma performs_incl ks ks' {A} (m : M A) : incl ks ks' -> performs ks m -> performs ks' m.
Proof.
  intros Hi Hm st. eapply advances_weaken; [|apply Hm]. intros e. apply only_incl, Hi.
Qed.

(** The goal [advances P st0 s], for a state [s] built on a state of which
    a hypothesis says the same. *)
Ltac adv :=
  lazymatch goal with
  | |- advances _ _ _ =>
      split;
      [ repeat match goal with
               | H : advances _ _ _ |- _ => destruct H as [H _]
               end;
        unfold sameSetup in *;
        cbn [wit RigName Config LastCheckAt Stats TotalChecks TodayChecks
             MonitoredPolecats setSpawnedIssues setStats] in *;
        intuition congruence
      | repeat match goal with
               | H : advances _ _ _ |- _ => destruct H as [_ H]
               end;
        cbn [hist];
        repeat (apply follows_cons; [unfold only; simpl; tauto|]);
        first [apply follows_refl | assumption] ]
  end.

Ltac incl_kinds := intros ? ?; simpl in *; tauto.

(** Calling an operation of known kinds while an invariant is kept. *)
Ltac adv_call lemma :=
  cbv beta;
  eapply wp_mono;
  [ eapply (performs_wp _ _ _ _ _ lemma); [incl_kinds | first [adv | eassumption]]
  | cbv beta; intros ? ? ? ].

Ltac adv_run :=
  repeat first [wp_step | adv].

Create HintDb performs.

Ltac adv_step :=
  first
    [ wp_step
    | adv
    | cbv beta;
      match goal with
      | H : advances ?P ?st0 _ |- wp ?m _ _ =>
          eapply (wp_mono m (fun _ st' => advances P st0 st'));
          [ eapply performs_wp;
            [ solve [eauto with performs] | incl_kinds | first [adv | eassumption] ]
          | cbv beta; intros ? ? ? ]
      end ].

(** The proof that an operation performs the kinds [ks]: run it step by
    step from a state that the invariant holds of. *)
Ltac performs_by_running :=
  apply performs_intro; intros ?st;
  match goal with
  | |- wp _ (fun _ st' => advances ?P ?s st') ?s =>
      pose proof (advances_refl P s)
  end;
  repeat adv_step.

Lemma performs_saveHandoffState E rig hb state :
  performs [KBead] (saveHandoffState E rig hb state).
Proof. unfold saveHandoffState. performs_by_running. Qed.
#[local] Hint Resolve performs_saveHandoffState : performs.

Lemma performs_sendNudge E rig name reason : performs [KMail] (sendNudge E rig name reason).
Proof. unfold sendNudge. performs_by_running. Qed.
#[local] Hint Resolve performs_sendNudge : performs.

Lemma performs_escalateToMayor E rig name : performs [KMail] (escalateToMayor E rig name).
Proof. unfold escalateToMayor. performs_by_running. Qed.
#[local] Hint Resolve performs_escalateToMayor : performs.

Lemma performs_recordNudge E rig hb name : performs [KBead] (recordNudge E rig hb name).
Proof. unfold recordNudge. performs_by_running. Qed.
#[local] Hint Resolve performs_recordNudge : performs.

Lemma performs_handleStuckPolecat E rig hb name :
  performs [KMail; KBead] (handleStuckPolecat E rig hb name).
Proof.
  unfold handleStuckPolecat. apply performs_intro. intros st.
  pose proof (advances_refl (only [KMail; KBead]) st).
  apply wp_bind. apply (wp_read (fun s => getNudgeCount s name)).
  repeat adv_step.
Qed.
#[local] Hint Resolve performs_handleStuckPolecat : performs.

Lemma performs_updateWorkerActivity E name issueID :
  performs [] (updateWorkerActivity E name issueID).
Proof. unfold updateWorkerActivity. performs_by_running. Qed.
#[local] Hint Resolve performs_updateWorkerActivity : performs.

Lemma performs_ensurePolecatArm E rig hb name :
  performs [KBond; KBead] (ensurePolecatArm E rig hb name).
Proof. unfold ensurePolecatArm. performs_by_running. Qed.
#[local] Hint Resolve performs_ensurePolecatArm : performs.

Lemma performs_verifyPolecatState E rig name : performs [] (verifyPolecatState E rig name).
Proof. unfold verifyPolecatState. performs_by_running. Qed.
#[local] Hint Resolve performs_verifyPolecatState : performs.

Lemma performs_cleanupPolecat E rig name :
  performs [KStop; KRemove; KDelete] (cleanupPolecat E rig name).
Proof. unfold cleanupPolecat. performs_by_running. Qed.
#[local] Hint Resolve performs_cleanupPolecat : performs.

Lemma performs_saveState E w : performs [KSave] (saveState E w).
Proof. unfold saveState. performs_by_running. Qed.
#[local] Hint Resolve performs_saveState : performs.

Lemma performs_ackMessage id : performs [KAck] (ackMessage id).
Proof. unfold ackMessage. performs_by_running. Qed.
#[local] Hint Resolve performs_ackMessage : performs.

Lemma performs_recordDone E name : performs [KSave] (recordDone E name).
Proof. unfold recordDone. performs_by_running. Qed.
#[local] Hint Resolve performs_recordDone : performs.

Lemma performs_recordWaiting E key : performs [KSave] (recordWaiting E key).
Proof. unfold recordWaiting. performs_by_running. Qed.
#[local] Hint Resolve performs_recordWaiting : performs.

Lemma performs_clearWaiting E key : performs [KSave] (clearWaiting E key).
Proof. unfold clearWaiting. performs_by_running. Qed.
#[local] Hint Resolve performs_clearWaiting : performs.

Lemma performs_handleMessage E rig msg :
  performs [KMail; KAck; KSave; KStop; KRemove; KDelete] (handleMessage E rig msg).
Proof. unfold handleMessage. performs_by_running. Qed.
#[local] Hint Resolve performs_handleMessage : performs.

Lemma performs_forEach ks {A} (body : A -> M unit) xs :
  (forall x, performs ks (body x)) -> performs ks (forEach body xs).
Proof.
  intros Hbody. induction xs as [|x rest IH]; intros st; simpl.
  - apply advances_refl.
  - unfold bind. pose proof (Hbody x st) as Hx. destruct (body x st) as [u st1].
    eapply advances_trans; [exact Hx | apply IH].
Qed.

Lemma performs_processShutdownRequests E rig :
  performs [KMail; KAck; KSave; KStop; KRemove; KDelete] (processShutdownRequests E rig).
Proof.
  assert (Hloop : forall msgs,
            performs [KMail; KAck; KSave; KStop; KRemove; KDelete]
                     (forEach (handleMessage E rig) msgs))
    by (intros msgs; apply performs_forEach, performs_handleMessage).
  unfold processShutdownRequests. performs_by_running.
Qed.
#[local] Hint Resolve performs_processShutdownRequests : performs.

Lemma performs_checkPendingCompletion E rig p :
  performs [KMail; KSave; KStop; KRemove; KDelete] (checkPendingCompletion E rig p).
Proof. unfold checkPendingCompletion. performs_by_running. Qed.
#[local] Hint Resolve performs_checkPendingCompletion : performs.

Lemma performs_checkPendingCompletions E rig :
  performs [KMail; KSave; KStop; KRemove; KDelete] (checkPendingCompletions E rig).
Proof.
  assert (Hloop : forall ps,
            performs [KMail; KSave; KStop; KRemove; KDelete]
                     (forEach (checkPendingCompletion E rig) ps))
    by (intros ps; apply performs_forEach, performs_checkPendingCompletion).
  unfold checkPendingCompletions. performs_by_running.
Qed.
#[local] Hint Resolve performs_checkPendingCompletions : performs.

(** *** The health check *)

Lemma healthCheckOne_spec E rig hb active p st0 st :
  advances (only [KMail; KBead; KBond]) st0 st ->
  wp (healthCheckOne E rig hb active p)
     (fun res st' =>
        advances (only [KMail; KBead; KBond]) st0 st' /\
        res = if (session_IsRunning E (hist st) (PolecatName p)).1
              then active ++ [PolecatName p] else active)
     st.
Proof.
  intros H0. unfold healthCheckOne.
  repeat first [adv_step | split; [adv | reflexivity]].
Qed.

Lemma healthCheckLoop_spec E rig hb polecats :
  forall active st0 st,
    advances (only [KMail; KBead; KBond]) st0 st ->
    wp (healthCheckLoop E rig hb active polecats)
       (fun res st' =>
          advances (only [KMail; KBead; KBond]) st0 st' /\
          exists l, res = active ++ l /\ sublist l (map PolecatName polecats) /\
            ((forall h q, q ∈ polecats ->
                (session_IsRunning E h (PolecatName q)).1 = true) ->
             l = map PolecatName polecats))
       st.
Proof.
  induction polecats as [|p rest IH]; intros active st0 st H0; simpl.
  - apply wp_ret. split; [exact H0|]. exists []. rewrite app_nil_r.
    repeat split. constructor.
  - apply wp_bind. eapply wp_mono; [apply healthCheckOne_spec; exact H0|].
    cbv beta. intros res st1 [H1 Hres].
    eapply wp_mono; [apply IH; exact H1|]. cbv beta.
    intros res' st2 [H2 (l & Hl & Hsub & Hall)]. split; [exact H2|].
    subst res res'.
    destruct ((session_IsRunning E (hist st) (PolecatName p)).1) eqn:Hrun.
    + exists (PolecatName p :: l). rewrite <- app_assoc. split; [reflexivity|].
      split; [constructor; exact Hsub|].
      intros Halways. f_equal. apply Hall. intros h q Hq. apply Halways. set_solver.
    + exists l. split; [reflexivity|]. split; [constructor; exact Hsub|].
      intros Halways. rewrite Halways in Hrun by set_solver. discriminate.
Qed.

(** What a tick needs to know of its health check. *)
Lemma healthCheck_setup (E : Env) (rig : Rig) (hb : string) (st : State) :
  follows (only [KMail; KBead; KBond; KSave])
          (hist st) (hist (healthCheck E rig hb st).2) /\
  TotalChecks (Stats (wit (healthCheck E rig hb st).2))
  = incr (TotalChecks (Stats (wit st))) /\
  Config (wit (healthCheck E rig hb st).2) = Config (wit st).
Proof.
  change (wp (healthCheck E rig hb)
            (fun _ st' =>
               follows (only [KMail; KBead; KBond; KSave]) (hist st) (hist st') /\
               TotalChecks (Stats (wit st')) = incr (TotalChecks (Stats (wit st))) /\
               Config (wit st') = Config (wit st)) st).
  unfold healthCheck, saveState.
  do 8 wp_step. cbv beta. cbn [hist].
  destruct (polecat_List E (hist st)) as [polecats|e].
  - apply wp_bind.
    eapply wp_mono; [apply (healthCheckLoop_spec E rig hb polecats []);
                     apply advances_refl|].
    cbv beta. intros res st1 [[Hs Hf] _].
    do 5 wp_step. cbv beta. cbn [hist wit Stats TotalChecks Config].
    unfold sameSetup in Hs. cbn [wit Stats TotalChecks Config] in Hs.
    destruct Hs as (_ & Hc & _ & Ht & _).
    split; [|split; assumption].
    apply follows_cons; [unfold only; simpl; tauto|].
    eapply follows_weaken; [|exact Hf]. intros e. apply only_incl. incl_kinds.
  - apply wp_ret. cbn [hist wit Stats TotalChecks Config].
    split; [apply follows_refl|]. split; reflexivity.
Qed.

(** A health check never kills a session, removes a worktree or deletes a
    branch, and it neither acknowledges mail nor spawns: all it does is
    send mail, update the handoff bead, bond arms and write the state file.
    It counts itself once, notes the time, and leaves the configuration
    alone.  When the polecats cannot be listed it returns the error and
    writes nothing.  Otherwise the state file is its last action and the
    monitored polecats are listed polecats in the order of the list, all of
    them when every session runs. *)
Theorem healthCheck_observes (E : Env) (rig : Rig) (hb : string) (st : State) :
  let r := healthCheck E rig hb st in
  follows (only [KMail; KBead; KBond; KSave]) (hist st) (hist r.2) /\
  TotalChecks (Stats (wit r.2)) = incr (TotalChecks (Stats (wit st))) /\
  TodayChecks (Stats (wit r.2)) = incr (TodayChecks (Stats (wit st))) /\
  LastCheckAt (wit r.2) = Some (time_Now E (hist st)) /\
  Config (wit r.2) = Config (wit st) /\
  match polecat_List E (hist st) with
  | Err e =>
      r.1 = Some ("listing polecats: " +:+ e) /\ hist r.2 = hist st /\
      MonitoredPolecats (wit r.2) = MonitoredPolecats (wit st)
  | Ok polecats =>
      sublist (MonitoredPolecats (wit r.2)) (map PolecatName polecats) /\
      ((forall h q, q ∈ polecats -> (session_IsRunning E h (PolecatName q)).1 = true) ->
       MonitoredPolecats (wit r.2) = map PolecatName polecats) /\
      exists rest, hist r.2 = EvSaveState (wit r.2) :: rest
  end.
Proof.
  cbv zeta.
  change (wp (healthCheck E rig hb)
            (fun res st' =>
               follows (only [KMail; KBead; KBond; KSave]) (hist st) (hist st') /\
               TotalChecks (Stats (wit st')) = incr (TotalChecks (Stats (wit st))) /\
               TodayChecks (Stats (wit st')) = incr (TodayChecks (Stats (wit st))) /\
               LastCheckAt (wit st') = Some (time_Now E (hist st)) /\
               Config (wit st') = Config (wit st) /\
               match polecat_List E (hist st) with
               | Err e =>
                   res = Some ("listing polecats: " +:+ e) /\ hist st' = hist st /\
                   MonitoredPolecats (wit st') = MonitoredPolecats (wit st)
               | Ok polecats =>
                   sublist (MonitoredPolecats (wit st')) (map PolecatName polecats) /\
                   ((forall h q, q ∈ polecats ->
                       (session_IsRunning E h (PolecatName q)).1 = true) ->
                    MonitoredPolecats (wit st') = map PolecatName polecats) /\
                   exists rest, hist st' = EvSaveState (wit st') :: rest
               end) st).
  unfold healthCheck, saveState.
  do 8 wp_step. cbv beta. cbn [hist].
  destruct (polecat_List E (hist st)) as [polecats|e].
  - apply wp_bind.
    eapply wp_mono; [apply (healthCheckLoop_spec E rig hb polecats []);
                     apply advances_refl|].
    cbv beta. intros res st1 [[Hs Hf] (l & -> & Hsub & Hall)].
    do 5 wp_step. cbv beta. cbn [hist wit Stats TotalChecks TodayChecks LastCheckAt
                                 Config MonitoredPolecats].
    unfold sameSetup in Hs. cbn [wit Stats TotalChecks TodayChecks LastCheckAt Config] in Hs.
    destruct Hs as (_ & Hc & Hl & Ht & Hd & _).
    split; [|repeat split; try congruence; try assumption; eexists; reflexivity].
    apply follows_cons; [unfold only; simpl; tauto|].
    eapply follows_weaken; [|exact Hf]. intros e. apply only_incl. incl_kinds.
  - apply wp_ret. cbn [hist wit Stats TotalChecks TodayChecks LastCheckAt
                       Config MonitoredPolecats].
    split; [apply follows_refl|]. repeat split.
Qed.


(** *** The phases of a tick *)

Lemma performs_spawnLoop E activeCount maxWorkers spawnDelay total issues :
  forall spawned,
    performs [KSpawn; KSleep]
             (spawnLoop E activeCount maxWorkers spawnDelay total issues spawned).
Proof.
  induction issues as [|issue rest IH]; intros spawned; simpl; performs_by_running.
Qed.
#[local] Hint Resolve performs_spawnLoop : performs.

Lemma performs_autoSpawnForReadyWork E :
  performs [KSpawn; KSleep; KSave] (autoSpawnForReadyWork E).
Proof. unfold autoSpawnForReadyWork. performs_by_running. Qed.
#[local] Hint Resolve performs_autoSpawnForReadyWork : performs.

(** Each phase of a tick after the health check performs its own kinds of
    action and no other, and none of them touches the configuration, the
    counters of the checks or the list of monitored polecats.  The mailbox
    drain sends mail, acknowledges, writes the state file and cleans up;
    the watchdog for pending completions does the same but acknowledges
    nothing; the auto-spawn pass spawns, sleeps and writes the state file,
    and neither sends mail nor cleans up.  None of the three updates the
    handoff bead or bonds an arm. *)
Theorem phases_perform (E : Env) (rig : Rig) :
  performs [KMail; KAck; KSave; KStop; KRemove; KDelete] (processShutdownRequests E rig) /\
  performs [KMail; KSave; KStop; KRemove; KDelete] (checkPendingCompletions E rig) /\
  performs [KSpawn; KSleep; KSave] (autoSpawnForReadyWork E).
Proof.
  split; [apply performs_processShutdownRequests|].
  split; [apply performs_checkPendingCompletions | apply performs_autoSpawnForReadyWork].
Qed.

Lemma bind_snd {A B} (m : M A) (k : A -> M B) st :
  (bind m k st).2 = (k (m st).1 (m st).2).2.
Proof. unfold bind. destruct (m st). reflexivity. Qed.

Lemma checkAndProcess_after_healthCheck E rig ks st1 :
  incl [KMail; KAck; KSave; KStop; KRemove; KDelete] ks ->
  (AutoSpawn (Config (wit st1)) = true -> incl [KSpawn; KSleep] ks) ->
  wp (_ <- processShutdownRequests E rig ;;
      _ <- checkPendingCompletions E rig ;;
      w <- getWitness ;;
      (if AutoSpawn (Config w) then _ <- autoSpawnForReadyWork E ;; ret tt else ret tt) ;;
      hs <- getHandoff ;;
      match hs with
      | Some hs =>
          now <- ask (time_Now E) ;;
          setHandoff (Some {| WorkerStates := WorkerStates hs;
                              PatrolInstanceID := PatrolInstanceID hs;
                              LastPatrol := Some now |})
      | None => ret tt
      end)
     (fun _ st' =>
        advances (only ks) st1 st' /\
        forall hs', handoffState st' = Some hs' ->
                    LastPatrol hs' = Some (time_Now E (hist st')))
     st1.
Proof.
  intros Hks Hspawn.
  pose proof (advances_refl (only ks) st1) as H1.
  assert (Hk : forall K, incl K [KMail; KAck; KSave; KStop; KRemove; KDelete] -> incl K ks)
    by (intros K HK; eapply incl_tran; eassumption).
  apply wp_bind.
  eapply (wp_mono _ (fun _ st' => advances (only ks) st1 st'));
    [eapply performs_wp;
     [apply performs_processShutdownRequests | exact Hks | exact H1]|].
  cbv beta. intros _ st2 H2. apply wp_bind.
  eapply (wp_mono _ (fun _ st' => advances (only ks) st1 st'));
    [eapply performs_wp;
     [apply performs_checkPendingCompletions | apply Hk; incl_kinds | exact H2]|].
  cbv beta. intros _ st3 H3. apply wp_bind, wp_getWitness. cbv beta. apply wp_bind.
  assert (Hauto : wp (if AutoSpawn (Config (wit st3))
                      then _ <- autoSpawnForReadyWork E ;; ret tt else ret tt)
                     (fun _ st' => advances (only ks) st1 st') st3).
  { destruct (AutoSpawn (Config (wit st3))) eqn:Hon.
    - assert (Hs : incl [KSpawn; KSleep] ks).
      { apply Hspawn. destruct H3 as [(_ & Hc & _) _]. rewrite <- Hc. exact Hon. }
      apply wp_bind.
      eapply (wp_mono _ (fun _ st' => advances (only ks) st1 st'));
        [eapply performs_wp; [apply performs_autoSpawnForReadyWork | | exact H3]|].
      + intros k Hkin. simpl in Hkin.
        destruct Hkin as [<- | [<- | [<- | []]]];
          [apply Hs; simpl; tauto | apply Hs; simpl; tauto | apply Hks; simpl; tauto].
      + cbv beta. intros _ st4 H4. apply wp_ret. exact H4.
    - apply wp_ret. exact H3. }
  eapply wp_mono; [exact Hauto|]. cbv beta. intros _ st4 H4.
  apply wp_bind, wp_getHandoff. cbv beta.
  destruct (handoffState st4) as [hs|] eqn:Hhs.
  - apply wp_bind, wp_ask. cbv beta. apply wp_setHandoff.
    split; [adv|]. cbn [handoffState hist]. intros hs' [= <-]. reflexivity.
  - apply wp_ret. split; [exact H4|]. intros hs' Hs'. congruence.
Qed.

(** One tick counts exactly one check and never changes the configuration.
    With auto-spawn switched off, a tick spawns nothing and never sleeps.
    When a handoff record is loaded at the end of the tick, its last patrol
    is the time at which the tick ended. *)
Theorem checkAndProcess_tick (E : Env) (rig : Rig) (hb : string) (st : State) :
  let st' := (checkAndProcess E rig hb st).2 in
  TotalChecks (Stats (wit st')) = incr (TotalChecks (Stats (wit st))) /\
  Config (wit st') = Config (wit st) /\
  (AutoSpawn (Config (wit st)) = false ->
   follows (only [KMail; KAck; KBead; KSave; KStop; KRemove; KDelete; KBond])
           (hist st) (hist st')) /\
  (forall hs', handoffState st' = Some hs' ->
               LastPatrol hs' = Some (time_Now E (hist st'))).
Proof.
  cbv zeta. unfold checkAndProcess. rewrite bind_snd.
  pose proof (healthCheck_setup E rig hb st) as Hhc.
  destruct (healthCheck E rig hb st) as [r1 st1]. cbn [fst snd] in Hhc |- *.
  destruct Hhc as (Hf & Ht & Hc).
  assert (Hall : incl [KMail; KAck; KSave; KStop; KRemove; KDelete]
                      [KMail; KAck; KBead; KSave; KStop; KRemove; KDelete; KBond;
                       KSpawn; KSleep]) by incl_kinds.
  pose proof (checkAndProcess_after_healthCheck E rig _ st1 Hall
                ltac:(intros _; incl_kinds)) as Hrest.
  unfold wp in Hrest. destruct Hrest as [[(_ & Hc' & _ & Ht' & _) _] Hpatrol].
  split; [congruence|]. split; [congruence|]. split; [|exact Hpatrol].
  intros Hoff.
  assert (Hno : incl [KMail; KAck; KSave; KStop; KRemove; KDelete]
                     [KMail; KAck; KBead; KSave; KStop; KRemove; KDelete; KBond])
    by incl_kinds.
  assert (Hnever : AutoSpawn (Config (wit st1)) = true ->
                   incl [KSpawn; KSleep]
                        [KMail; KAck; KBead; KSave; KStop; KRemove; KDelete; KBond])
    by (intros Hon; rewrite Hc, Hoff in Hon; discriminate).
  pose proof (checkAndProcess_after_healthCheck E rig _ st1 Hno Hnever) as Hrest.
  unfold wp in Hrest. destruct Hrest as [[_ Hf'] _].
  eapply follows_trans; [|exact Hf'].
  eapply follows_weaken; [|exact Hf]. intros e. apply only_incl. incl_kinds.
Qed.

(** *** Acknowledging mail *)

Lemma only_notAck ks e : ~ In KAck ks -> only ks e -> notAck e.
Proof. unfold only. destruct e; simpl; tauto. Qed.

Lemma quiet_call ks {A} (m : M A) h0 s :
  performs ks m -> ~ In KAck ks ->
  follows notAck h0 (hist s) ->
  wp m (fun _ s' => follows notAck h0 (hist s')) s.
Proof.
  intros Hm Hk H0. unfold wp. eapply follows_trans; [exact H0|].
  eapply follows_weaken; [|apply Hm]. intros e. apply only_notAck, Hk.
Qed.

Lemma cleanupPolecat_success E rig name st :
  (cleanupPolecat E rig name st).1 = None ->
  exists rest,
    hist (cleanupPolecat E rig name st).2
    = EvDeleteBranch ("polecat/" +:+ name) :: rest ++ hist st /\
    Forall notAck rest.
Proof.
  unfold cleanupPolecat, bind, ask, act, ret. cbv beta iota zeta.
  destruct (git_CheckUncommittedWork E (hist st) (polecatDir rig name)) as [s|e];
    [destruct (Clean s); cbn [negb]|];
    try (destruct (session_IsRunning E (hist st) name) as [[|] [err|]];
         cbv beta iota zeta;
         match goal with
         | |- context [polecat_Remove E ?h name] => destruct (polecat_Remove E h name)
         end);
    cbn [fst snd hist]; intros H; try discriminate H;
    first
      [ exists [EvRemoveWorktree name]; split; [reflexivity|]
      | exists [EvRemoveWorktree name; EvSessionStop name]; split; [reflexivity|] ];
    repeat constructor.
Qed.

(** What follows the recording of the done tag, or the done gate, for a
    polecat [n]: verification, then the nudge or the cleanup, then the
    acknowledgement. *)
Lemma verify_cleanup_ack E rig n id h0 s :
  follows notAck h0 (hist s) ->
  wp (verr <- verifyPolecatState E rig n ;;
      match verr with
      | Some err => _ <- sendNudge E rig n err ;; ret tt
      | None =>
          cerr <- cleanupPolecat E rig n ;;
          match cerr with
          | Some _ => ret tt
          | None => ackMessage id
          end
      end)
     (fun _ s' =>
        follows notAck h0 (hist s') \/
        exists rest,
          hist s' = EvMailAck id :: EvDeleteBranch ("polecat/" +:+ n) :: rest ++ h0 /\
          Forall notAck rest)
     s.
Proof.
  intros H0. apply wp_bind. unfold wp at 1.
  rewrite (surjective_pairing (verifyPolecatState E rig n s)).
  rewrite verifyPolecatState_reads. cbn [fst snd].
  destruct (verifyPolecatState E rig n s).1 as [err|].
  - apply wp_bind.
    eapply wp_mono; [apply (quiet_call [KMail]);
                     [apply performs_sendNudge | simpl; intuition discriminate | exact H0]|].
    cbv beta. intros _ s1 H1. apply wp_ret. left. exact H1.
  - apply wp_bind. unfold wp at 1.
    destruct (cleanupPolecat E rig n s).1 as [cerr|] eqn:Hc.
    + apply wp_ret. left.
      apply (quiet_call [KStop; KRemove; KDelete] (cleanupPolecat E rig n));
        [apply performs_cleanupPolecat | simpl; intuition discriminate | exact H0].
    + destruct (cleanupPolecat_success E rig n s Hc) as (rest & Hh & Hf).
      unfold ackMessage. apply wp_act. right. cbn [hist]. rewrite Hh.
      destruct H0 as (evs & -> & Hevs). exists (rest ++ evs).
      rewrite <- app_assoc. split; [reflexivity | apply Forall_app_2; assumption].
Qed.


(** *** The watchdog's guards *)

(** The watchdog for pending completions leaves a polecat alone, changing
    and doing nothing, when its session does not run, when it has sent its
    done message, when no issue is on record for it, or when its issue is
    not known to be closed. *)
Theorem checkPendingCompletion_leaves_alone (E : Env) (rig : Rig) (p : Polecat)
    (st : State) :
  (session_IsRunning E (hist st) (PolecatName p)).1 = false \/
  hasSentDone (wit st) (PolecatName p) = true \/
  polecat_issue E (hist st) (ClonePath p) = EmptyString \/
  bd_issueClosed E (hist st) (polecat_issue E (hist st) (ClonePath p)) <> Ok true ->
  checkPendingCompletion E rig p st = (tt, st).
Proof.
  intros H. unfold checkPendingCompletion, bind, ask, getWitness, ret.
  cbv beta iota zeta.
  destruct (session_IsRunning E (hist st) (PolecatName p)).1 eqn:Hrun; cbn [negb];
    [|reflexivity].
  destruct (hasSentDone (wit st) (PolecatName p)) eqn:Hdone; [reflexivity|].
  destruct (String.eqb_spec (polecat_issue E (hist st) (ClonePath p)) EmptyString)
    as [Hnone | Hissue]; [reflexivity|].
  destruct (bd_issueClosed E (hist st) (polecat_issue E (hist st) (ClonePath p)))
    as [[|]|e] eqn:Hclosed; try reflexivity.
  exfalso. destruct H as [H | [H | [H | H]]]; congruence.
Qed.

(** The statement above for Joe, whose issue is closed but whose done tag
    is on record. *)
Lemma checkPendingCompletion_leaves_alone_witness :
  checkPendingCompletion (Examples.waitingForJoe Examples.noon) Examples.gastown
    (Examples.polecatAt "Joe") (Examples.initial None ["bd-123"; "done:Joe"])
  = (tt, Examples.initial None ["bd-123"; "done:Joe"]).
Proof.
  apply (checkPendingCompletion_leaves_alone (Examples.waitingForJoe Examples.noon)
           Examples.gastown (Examples.polecatAt "Joe")
           (Examples.initial None ["bd-123"; "done:Joe"])).
  right. left. reflexivity.
Defined.

(** *** The auto-spawn pass and the scratch list *)

Lemma existsb_app_r {A} (f : A -> bool) l1 l2 x :
  In x l2 -> f x = true -> existsb f (l1 ++ l2) = true.
Proof.
  intros Hin Hf. rewrite existsb_app. apply orb_true_iff. right.
  apply existsb_exists. exists x. split; assumption.
Qed.

Lemma spawnLoop_records E activeCount maxWorkers spawnDelay total issues :
  forall spawned st,
    wp (spawnLoop E activeCount maxWorkers spawnDelay total issues spawned)
       (fun _ st' =>
          exists new,
            SpawnedIssues (wit st') = SpawnedIssues (wit st) ++ new /\
            spawnedIDs E (hist st') = spawnedIDs E (hist st) ++ new /\
            Forall (fun id => exists issue, In issue issues /\ ReadyID issue = id) new)
       st.
Proof.
  induction issues as [|issue rest IH]; intros spawned st; simpl.
  - apply wp_ret. exists []. rewrite !app_nil_r. repeat split. constructor.
  - destruct (maxWorkers <=? activeCount + spawned).
    { apply wp_ret. exists []. rewrite !app_nil_r. repeat split. constructor. }
    apply wp_bind, wp_act. cbv beta.
    destruct (gt_spawn E (hist st) (ReadyID issue)) as [e|] eqn:Hspawn.
    + eapply wp_mono; [apply IH|]. cbv beta. cbn [wit hist].
      intros _ st' (new & Hw & Hh & Hin). exists new. split; [exact Hw|]. split.
      * rewrite Hh. simpl. rewrite Hspawn, app_nil_r. reflexivity.
      * eapply Forall_impl; [exact Hin|]. intros id (i & Hi & Hid).
        exists i. split; [right; exact Hi | exact Hid].
    + apply wp_bind, wp_getWitness. cbv beta. apply wp_bind, wp_setWitness. cbv beta.
      apply wp_bind.
      assert (Hrest : forall s,
                wit s = setSpawnedIssues (wit st) (SpawnedIssues (wit st) ++ [ReadyID issue]) ->
                spawnedIDs E (hist s) = spawnedIDs E (hist st) ++ [ReadyID issue] ->
                wp (spawnLoop E activeCount maxWorkers spawnDelay total rest (spawned + 1))
                   (fun _ st' =>
                      exists new,
                        SpawnedIssues (wit st') = SpawnedIssues (wit st) ++ new /\
                        spawnedIDs E (hist st') = spawnedIDs E (hist st) ++ new /\
                        Forall (fun id => exists i, In i (issue :: rest) /\ ReadyID i = id)
                               new)
                   s).
      { intros s Hs Hh0. eapply wp_mono; [apply IH|]. cbv beta.
        intros _ st' (new & Hw & Hh & Hin). exists (ReadyID issue :: new).
        rewrite Hw, Hh, Hs, Hh0. cbn [SpawnedIssues setSpawnedIssues].
        rewrite <- !app_assoc. split; [reflexivity|]. split; [reflexivity|].
        constructor; [exists issue; split; [left; reflexivity | reflexivity]|].
        eapply Forall_impl; [exact Hin|]. intros id (i & Hi & Hid).
        exists i. split; [right; exact Hi | exact Hid]. }
      destruct ((spawned + 1 <? total) && (activeCount + (spawned + 1) <? maxWorkers)).
      * apply wp_act. cbv beta. apply Hrest; [reflexivity|].
        cbn [hist]. simpl. rewrite Hspawn. reflexivity.
      * apply wp_ret. apply Hrest; [reflexivity|].
        cbn [hist]. simpl. rewrite Hspawn. reflexivity.
Qed.

Lemma spawnable_true E h w issue :
  spawnable E h w issue = true ->
  isAlreadySpawned w (ReadyID issue) = false /\
  Type_ issue <> "merge-request" /\ Type_ issue <> "epic" /\
  (IssuePrefix (Config w) <> EmptyString ->
   HasPrefix (ReadyID issue) (IssuePrefix (Config w)) = true) /\
  (EpicID (Config w) <> EmptyString ->
   bd_isChildOfEpic E h (ReadyID issue) (EpicID (Config w)) = Ok true).
Proof.
  unfold spawnable.
  destruct (String.eqb_spec (Type_ issue) "merge-request"); [discriminate|].
  destruct (String.eqb_spec (Type_ issue) "epic"); [discriminate|]. cbn [orb].
  destruct (isAlreadySpawned w (ReadyID issue)); [discriminate|].
  destruct (String.eqb_spec (EpicID (Config w)) EmptyString) as [He|He]; cbn [negb andb].
  - destruct (String.eqb_spec (IssuePrefix (Config w)) EmptyString) as [Hp|Hp];
      cbn [negb andb]; [intros _; repeat split; congruence|].
    destruct (HasPrefix (ReadyID issue) (IssuePrefix (Config w))); [|discriminate].
    intros _. repeat split; congruence.
  - destruct (bd_isChildOfEpic E h (ReadyID issue) (EpicID (Config w))) as [[|]|e];
      cbn [negb]; try discriminate.
    destruct (String.eqb_spec (IssuePrefix (Config w)) EmptyString) as [Hp|Hp];
      cbn [negb andb]; [intros _; repeat split; congruence|].
    destruct (HasPrefix (ReadyID issue) (IssuePrefix (Config w))); [|discriminate].
    intros _. repeat split; congruence.
Qed.

(** An auto-spawn pass records what it spawns: the issues of the spawn
    calls that succeeded are appended to the scratch list, in the order of
    the calls, and nothing else is.  Each of them was ready, was not on the
    scratch list when the pass began, is neither a merge request nor an
    epic, and carries the configured prefix and belongs to the configured
    epic when these are set.  Being on the list afterwards, none of them is
    spawned for by a later pass. *)
Theorem autoSpawn_records_spawned (E : Env) (st : State) :
  let r := autoSpawnForReadyWork E st in
  exists new,
    SpawnedIssues (wit r.2) = SpawnedIssues (wit st) ++ new /\
    spawnedIDs E (hist r.2) = spawnedIDs E (hist st) ++ new /\
    Forall (fun id => isAlreadySpawned (wit st) id = false) new /\
    Forall (fun id => isAlreadySpawned (wit r.2) id = true) new /\
    Forall (fun id =>
              exists issues issue,
                bd_ready E (hist st) = Ok issues /\ In issue issues /\
                ReadyID issue = id /\
                Type_ issue <> "merge-request" /\ Type_ issue <> "epic" /\
                (IssuePrefix (Config (wit st)) <> EmptyString ->
                 HasPrefix id (IssuePrefix (Config (wit st))) = true) /\
                (EpicID (Config (wit st)) <> EmptyString ->
                 bd_isChildOfEpic E (hist st) id (EpicID (Config (wit st))) = Ok true))
           new /\
    forall h issue,
      In (ReadyID issue) new -> spawnable E h (wit r.2) issue = false.
Proof.
  cbv zeta.
  assert (Hmain : exists new,
            SpawnedIssues (wit (autoSpawnForReadyWork E st).2)
            = SpawnedIssues (wit st) ++ new /\
            spawnedIDs E (hist (autoSpawnForReadyWork E st).2)
            = spawnedIDs E (hist st) ++ new /\
            Forall (fun id =>
                      exists issues issue,
                        bd_ready E (hist st) = Ok issues /\ In issue issues /\
                        ReadyID issue = id /\
                        spawnable E (hist st) (wit st) issue = true) new).
  { unfold autoSpawnForReadyWork, bind, ask, getWitness, saveState, act, ret.
    cbv beta iota zeta.
    assert (Hnil : exists new,
              SpawnedIssues (wit st) = SpawnedIssues (wit st) ++ new /\
              spawnedIDs E (hist st) = spawnedIDs E (hist st) ++ new /\
              Forall (fun id =>
                        exists issues issue,
                          bd_ready E (hist st) = Ok issues /\ In issue issues /\
                          ReadyID issue = id /\
                          spawnable E (hist st) (wit st) issue = true) new).
    { exists []. rewrite !app_nil_r. repeat split. constructor. }
    destruct (getActivePolecatCount E (hist st)) as [activeCount|e]; [|exact Hnil].
    cbv beta iota zeta.
    destruct ((if MaxWorkers (Config (wit st)) <=? 0 then 4
               else MaxWorkers (Config (wit st))) <=? activeCount); [exact Hnil|].
    destruct (bd_ready E (hist st)) as [issues|e] eqn:Hready; [|exact Hnil].
    cbv beta iota zeta.
    match goal with
    | |- context [spawnLoop E ?a ?m ?d ?t ?l 0 st] =>
        pose proof (spawnLoop_records E a m d t l 0 st) as Hloop;
        unfold wp in Hloop;
        destruct (spawnLoop E a m d t l 0 st) as [spawned st1]
    end.
    cbn [fst snd] in Hloop. destruct Hloop as (new & Hw & Hh & Hin).
    assert (Hnew : Forall (fun id =>
                             exists issues0 issue,
                               Ok issues = Ok issues0 /\ In issue issues0 /\
                               ReadyID issue = id /\
                               spawnable E (hist st) (wit st) issue = true) new).
    { eapply Forall_impl; [exact Hin|]. intros id (issue & Hi & Hid).
      apply list_elem_of_In, list_elem_of_filter in Hi as [Hs Hi].
      exists issues, issue. repeat split; try assumption.
      apply list_elem_of_In. exact Hi. }
    destruct (0 <? spawned); cbn [fst snd wit hist]; exists new;
      (split; [exact Hw|]); (split; [|exact Hnew]); simpl; exact Hh. }
  destruct Hmain as (new & Hw & Hh & Hnew).
  exists new. split; [exact Hw|]. split; [exact Hh|]. split; [|split; [|split]].
  - eapply Forall_impl; [exact Hnew|]. intros id (issues & issue & _ & _ & <- & Hs).
    apply (spawnable_true E _ _ _ Hs).
  - apply Forall_forall. intros id Hid. unfold isAlreadySpawned. rewrite Hw.
    apply list_elem_of_In in Hid.
    apply (existsb_app_r _ _ _ id Hid). apply String.eqb_refl.
  - eapply Forall_impl; [exact Hnew|].
    intros id (issues & issue & Hr & Hi & Hid & Hs).
    destruct (spawnable_true E _ _ _ Hs) as (_ & Hm & He & Hp & Hc).
    exists issues, issue. rewrite <- Hid. repeat split; assumption.
  - intros h issue Hin. unfold spawnable.
    destruct (String.eqb (Type_ issue) "merge-request" || String.eqb (Type_ issue) "epic");
      [reflexivity|].
    replace (isAlreadySpawned (wit (autoSpawnForReadyWork E st).2) (ReadyID issue))
      with true; [reflexivity|].
    symmetry. unfold isAlreadySpawned. rewrite Hw.
    apply (existsb_app_r _ _ _ (ReadyID issue) Hin). apply String.eqb_refl.
Qed.

(** *** Arms *)

(** [ensurePolecatArm] needs a loaded handoff record with a patrol
    instance: without either it does nothing.  Otherwise it may bond an
    arm and update the handoff bead, and in the record it touches the arm
    id of the named polecat only: the patrol instance and the last patrol
    stay, the entries of the other polecats stay, and an entry that the
    polecat had keeps its nudge count, its last nudge, its last activity
    and its issue. *)
Theorem ensurePolecatArm_keeps_counts (E : Env) (rig : Rig) (hb : string)
    (name : string) (st : State) :
  let st' := (ensurePolecatArm E rig hb name st).2 in
  wit st' = wit st /\
  follows (only [KBond; KBead]) (hist st) (hist st') /\
  (handoffState st = None -> st' = st) /\
  (forall hs, handoffState st = Some hs ->
     (PatrolInstanceID hs = EmptyString -> st' = st) /\
     exists hs',
       handoffState st' = Some hs' /\
       PatrolInstanceID hs' = PatrolInstanceID hs /\ LastPatrol hs' = LastPatrol hs /\
       (forall other, other <> name ->
          WorkerStates hs' !! other = WorkerStates hs !! other) /\
       (forall ws, WorkerStates hs !! name = Some ws ->
          exists ws',
            WorkerStates hs' !! name = Some ws' /\
            NudgeCount ws' = NudgeCount ws /\ LastNudge ws' = LastNudge ws /\
            LastActive ws' = LastActive ws /\ Issue ws' = Issue ws)).
Proof.
  cbv zeta.
  change (wp (ensurePolecatArm E rig hb name)
            (fun _ st' =>
               wit st' = wit st /\
               follows (only [KBond; KBead]) (hist st) (hist st') /\
               (handoffState st = None -> st' = st) /\
               (forall hs, handoffState st = Some hs ->
                  (PatrolInstanceID hs = EmptyString -> st' = st) /\
                  exists hs',
                    handoffState st' = Some hs' /\
                    PatrolInstanceID hs' = PatrolInstanceID hs /\
                    LastPatrol hs' = LastPatrol hs /\
                    (forall other, other <> name ->
                       WorkerStates hs' !! other = WorkerStates hs !! other) /\
                    (forall ws, WorkerStates hs !! name = Some ws ->
                       exists ws',
                         WorkerStates hs' !! name = Some ws' /\
                         NudgeCount ws' = NudgeCount ws /\ LastNudge ws' = LastNudge ws /\
                         LastActive ws' = LastActive ws /\ Issue ws' = Issue ws))) st).
  assert (Hsame : forall hs, handoffState st = Some hs ->
            wit st = wit st /\
            follows (only [KBond; KBead]) (hist st) (hist st) /\
            (handoffState st = None -> st = st) /\
            (forall hs0, handoffState st = Some hs0 ->
               (PatrolInstanceID hs0 = EmptyString -> st = st) /\
               exists hs',
                 handoffState st = Some hs' /\
                 PatrolInstanceID hs' = PatrolInstanceID hs0 /\
                 LastPatrol hs' = LastPatrol hs0 /\
                 (forall other, other <> name ->
                    WorkerStates hs' !! other = WorkerStates hs0 !! other) /\
                 (forall ws, WorkerStates hs0 !! name = Some ws ->
                    exists ws',
                      WorkerStates hs' !! name = Some ws' /\
                      NudgeCount ws' = NudgeCount ws /\ LastNudge ws' = LastNudge ws /\
                      LastActive ws' = LastActive ws /\ Issue ws' = Issue ws))).
  { intros hs Hhs. split; [reflexivity|]. split; [apply follows_refl|].
    split; [reflexivity|]. intros hs0 Hhs0. split; [reflexivity|].
    exists hs0. split; [exact Hhs0|]. repeat split. intros ws Hws. exists ws.
    repeat split. exact Hws. }
  unfold ensurePolecatArm, saveHandoffState.
  apply wp_bind, wp_getHandoff. cbv beta.
  destruct st as [ho w0 h0]. cbn [handoffState wit hist] in *.
  set (st := {| handoffState := ho; wit := w0; hist := h0 |}) in *.
  destruct ho as [hs|].
  2:{ apply wp_ret. split; [reflexivity|]. split; [apply follows_refl|].
      split; [reflexivity | discriminate]. }
  destruct (String.eqb_spec (PatrolInstanceID hs) EmptyString) as [Hno | Hpatrol].
  { apply wp_ret. apply (Hsame hs). reflexivity. }
  cbv zeta. apply wp_bind.
  set (ws0 := default zeroWorkerState (WorkerStates hs !! name)).
  assert (Hws0 : forall ws, WorkerStates hs !! name = Some ws -> ws0 = ws)
    by (intros ws Hws; unfold ws0; rewrite Hws; reflexivity).
  assert (Hfinish : forall s (hs1 : WitnessHandoffState),
            wit s = wit st -> follows (only [KBond; KBead]) (hist st) (hist s) ->
            handoffState s = Some hs1 ->
            PatrolInstanceID hs1 = PatrolInstanceID hs -> LastPatrol hs1 = LastPatrol hs ->
            (forall other, other <> name ->
               WorkerStates hs1 !! other = WorkerStates hs !! other) ->
            (forall ws, WorkerStates hs !! name = Some ws ->
               exists ws',
                 WorkerStates hs1 !! name = Some ws' /\
                 NudgeCount ws' = NudgeCount ws /\ LastNudge ws' = LastNudge ws /\
                 LastActive ws' = LastActive ws /\ Issue ws' = Issue ws) ->
            wit s = wit st /\
            follows (only [KBond; KBead]) (hist st) (hist s) /\
            (Some hs = None -> s = st) /\
            (forall hs0, Some hs = Some hs0 ->
               (PatrolInstanceID hs0 = EmptyString -> s = st) /\
               exists hs',
                 handoffState s = Some hs' /\
                 PatrolInstanceID hs' = PatrolInstanceID hs0 /\
                 LastPatrol hs' = LastPatrol hs0 /\
                 (forall other, other <> name ->
                    WorkerStates hs' !! other = WorkerStates hs0 !! other) /\
                 (forall ws, WorkerStates hs0 !! name = Some ws ->
                    exists ws',
                      WorkerStates hs' !! name = Some ws' /\
                      NudgeCount ws' = NudgeCount ws /\ LastNudge ws' = LastNudge ws /\
                      LastActive ws' = LastActive ws /\ Issue ws' = Issue ws))).
  { intros s hs1 Hw Hf Hs Hp Hl Ho Hn. split; [exact Hw|]. split; [exact Hf|].
    split; [discriminate|]. intros hs0 [= <-]. split; [congruence|].
    exists hs1. repeat split; assumption. }
  assert (Hbond : forall s (hs1 : WitnessHandoffState),
            wit s = wit st -> hist s = hist st -> handoffState s = Some hs1 ->
            PatrolInstanceID hs1 = PatrolInstanceID hs -> LastPatrol hs1 = LastPatrol hs ->
            (forall other, other <> name ->
               WorkerStates hs1 !! other = WorkerStates hs !! other) ->
            (forall ws, WorkerStates hs !! name = Some ws ->
               exists ws',
                 WorkerStates hs1 !! name = Some ws' /\
                 NudgeCount ws' = NudgeCount ws /\ LastNudge ws' = LastNudge ws /\
                 LastActive ws' = LastActive ws /\ Issue ws' = Issue ws) ->
            wp (bonded <- act (fun h => gt_bondArm E h (PatrolInstanceID hs) name)
                              (EvBondArm (PatrolInstanceID hs) name) ;;
                match bonded with
                | Err e => ret (Some ("bonding arm: " +:+ e))
                | Ok armID =>
                    hs2 <- getHandoff ;;
                    (let hs3 := default emptyHandoff hs2 in
                     let ws := default zeroWorkerState (WorkerStates hs3 !! name) in
                     let ws1 := {| Issue := Issue ws; NudgeCount := NudgeCount ws;
                                   LastNudge := LastNudge ws; LastActive := LastActive ws;
                                   ArmID := armID |} in
                     let hs4 := setWorkerStates hs3 (<[name := ws1]> (WorkerStates hs3)) in
                     setHandoff (Some hs4) ;;
                     saved <- act (fun h => bd_update E h (handoffBeadID rig hb)
                                              (handoffDescription E rig hs4))
                                  (EvBdUpdate (handoffBeadID rig hb)
                                     (handoffDescription E rig hs4)) ;;
                     match saved with
                     | Some e => ret (Some ("saving handoff state: " +:+ e))
                     | None => ret None
                     end)
                end)
               (fun _ s' =>
                  wit s' = wit st /\
                  follows (only [KBond; KBead]) (hist st) (hist s') /\
                  (Some hs = None -> s' = st) /\
                  (forall hs0, Some hs = Some hs0 ->
                     (PatrolInstanceID hs0 = EmptyString -> s' = st) /\
                     exists hs',
                       handoffState s' = Some hs' /\
                       PatrolInstanceID hs' = PatrolInstanceID hs0 /\
                       LastPatrol hs' = LastPatrol hs0 /\
                       (forall other, other <> name ->
                          WorkerStates hs' !! other = WorkerStates hs0 !! other) /\
                       (forall ws, WorkerStates hs0 !! name = Some ws ->
                          exists ws',
                            WorkerStates hs' !! name = Some ws' /\
                            NudgeCount ws' = NudgeCount ws /\
                            LastNudge ws' = LastNudge ws /\
                            LastActive ws' = LastActive ws /\ Issue ws' = Issue ws)))
               s).
  { intros s hs1 Hw Hh Hs Hp Hl Ho Hn.
    apply wp_bind, wp_act. cbv beta.
    destruct (gt_bondArm E (hist s) (PatrolInstanceID hs) name) as [armID|e].
    - apply wp_bind, wp_getHandoff. cbv beta. cbn [handoffState]. rewrite Hs.
      cbv zeta. cbn [default]. apply wp_bind, wp_setHandoff. cbv beta.
      apply wp_bind, wp_act. cbv beta.
      assert (Hdone : forall r : option error,
                wp (ret r)
                   (fun _ s' =>
                      wit s' = wit st /\
                      follows (only [KBond; KBead]) (hist st) (hist s') /\
                      (Some hs = None -> s' = st) /\
                      (forall hs0, Some hs = Some hs0 ->
                         (PatrolInstanceID hs0 = EmptyString -> s' = st) /\
                         exists hs',
                           handoffState s' = Some hs' /\
                           PatrolInstanceID hs' = PatrolInstanceID hs0 /\
                           LastPatrol hs' = LastPatrol hs0 /\
                           (forall other, other <> name ->
                              WorkerStates hs' !! other = WorkerStates hs0 !! other) /\
                           (forall ws, WorkerStates hs0 !! name = Some ws ->
                              exists ws',
                                WorkerStates hs' !! name = Some ws' /\
                                NudgeCount ws' = NudgeCount ws /\
                                LastNudge ws' = LastNudge ws /\
                                LastActive ws' = LastActive ws /\
                                Issue ws' = Issue ws)))
                   {| handoffState :=
                        Some (setWorkerStates hs1
                                (<[name :=
                                     {| Issue := Issue (default zeroWorkerState
                                                          (WorkerStates hs1 !! name));
                                        NudgeCount := NudgeCount (default zeroWorkerState
                                                          (WorkerStates hs1 !! name));
                                        LastNudge := LastNudge (default zeroWorkerState
                                                          (WorkerStates hs1 !! name));
                                        LastActive := LastActive (default zeroWorkerState
                                                          (WorkerStates hs1 !! name));
                                        ArmID := armID |}]> (WorkerStates hs1)));
                      wit := wit s;
                      hist := EvBdUpdate (handoffBeadID rig hb)
                                (handoffDescription E rig
                                   (setWorkerStates hs1
                                      (<[name :=
                                           {| Issue := Issue (default zeroWorkerState
                                                          (WorkerStates hs1 !! name));
                                              NudgeCount := NudgeCount (default zeroWorkerState
                                                          (WorkerStates hs1 !! name));
                                              LastNudge := LastNudge (default zeroWorkerState
                                                          (WorkerStates hs1 !! name));
                                              LastActive := LastActive (default zeroWorkerState
                                                          (WorkerStates hs1 !! name));
                                              ArmID := armID |}]> (WorkerStates hs1))))
                              :: EvBondArm (PatrolInstanceID hs) name :: hist s |}).
      { intros r. apply wp_ret. eapply Hfinish; cbn [wit hist handoffState].
        - exact Hw.
        - rewrite Hh. apply follows_cons; [unfold only; simpl; tauto|].
          apply follows_cons; [unfold only; simpl; tauto|]. apply follows_refl.
        - reflexivity.
        - exact Hp.
        - exact Hl.
        - intros other Hother. cbn [WorkerStates setWorkerStates].
          rewrite lookup_insert_ne by congruence. apply Ho, Hother.
        - intros ws Hws. destruct (Hn ws Hws) as (ws' & Hl' & Hc & Hln & Hla & Hi).
          eexists. cbn [WorkerStates setWorkerStates].
          split; [apply lookup_insert_eq|]. rewrite Hl'.
          cbn [default Issue NudgeCount LastNudge LastActive]. repeat split; assumption. }
      match goal with
      | |- wp (match ?x with _ => _ end) _ _ => destruct x
      end; apply Hdone.
    - apply wp_ret. eapply Hfinish; cbn [wit hist handoffState]; try eassumption.
      rewrite Hh. apply follows_cons; [unfold only; simpl; tauto | apply follows_refl]. }
  destruct (String.eqb_spec (ArmID ws0) EmptyString) as [Hnoarm | Harm].
  - apply wp_ret. cbv beta. cbn [negb]. apply wp_bind, wp_ret. cbv beta.
    apply (Hbond st hs); try reflexivity; try assumption.
    intros ws Hws. exists ws. repeat split. exact Hws.
  - apply wp_ask. cbv beta.
    destruct (bd_exists E (hist st) (ArmID ws0)).
    + apply wp_ret. apply (Hsame hs). reflexivity.
    + apply wp_bind, wp_setHandoff. cbv beta.
      eapply Hbond; cbn [wit hist handoffState]; try reflexivity.
      * intros other Hother. cbn [WorkerStates setWorkerStates].
        apply lookup_insert_ne. congruence.
      * intros ws Hws. eexists. cbn [WorkerStates setWorkerStates].
        split; [apply lookup_insert_eq|]. rewrite (Hws0 ws Hws).
        repeat split.
Qed.

(** *** Reading the polecat's name from a message body *)

Lemma extractPolecatName_unfold body :
  extractPolecatName body
  = match matchPolecatAt body with
    | Some name => name
    | None =>
        match body with
        | EmptyString => EmptyString
        | String _ r => extractPolecatName r
        end
    end.
Proof. destruct body; reflexivity. Qed.

Lemma takeNonSpaceRE_noSpace c s : isSpaceRE c = true -> noByte c (takeNonSpaceRE s).
Proof.
  intros Hc. unfold noByte. induction s as [|a s IH]; [reflexivity|].
  cbn [takeNonSpaceRE]. destruct (isSpaceRE a) eqn:Ha; [reflexivity|].
  cbn [IndexByte]. destruct (Ascii.eqb_spec a c) as [-> | _]; [congruence|].
  rewrite IH. reflexivity.
Qed.

Lemma matchPolecatAt_Some s name :
  matchPolecatAt s = Some name ->
  name <> EmptyString /\
  name = takeNonSpaceRE (skipSpaceRE (dropBytes 8 s)) /\
  String.prefix "Polecat:" s = true.
Proof.
  unfold matchPolecatAt. destruct (String.prefix "Polecat:" s); [|discriminate].
  destruct (takeNonSpaceRE (skipSpaceRE (dropBytes 8 s))) as [|c r]; [discriminate|].
  intros [= <-]. repeat split. discriminate.
Qed.

(** The name that [extractPolecatName] returns never has white space in
    it, and a body without the text [Polecat:] gives the empty name, which
    the dispatcher takes for a request that names no polecat. *)
Theorem extractPolecatName_result (body : string) :
  (forall c, isSpaceRE c = true -> noByte c (extractPolecatName body)) /\
  (Contains body "Polecat:" = false -> extractPolecatName body = EmptyString) /\
  (extractPolecatName body <> EmptyString -> Contains body "Polecat:" = true).
Proof.
  assert (Hempty : forall b, Contains b "Polecat:" = false ->
                             extractPolecatName b = EmptyString).
  { induction b as [|a b IH]; intros H; [reflexivity|].
    rewrite extractPolecatName_unfold.
    cbn [Contains] in H. apply orb_false_iff in H as [Hp Hrest].
    unfold matchPolecatAt. rewrite Hp. apply IH, Hrest. }
  split; [|split].
  - intros c Hc. induction body as [|a b IH]; [reflexivity|].
    rewrite extractPolecatName_unfold.
    destruct (matchPolecatAt (String a b)) as [name|] eqn:Hm; [|exact IH].
    apply matchPolecatAt_Some in Hm as (_ & -> & _).
    apply takeNonSpaceRE_noSpace, Hc.
  - apply Hempty.
  - intros Hne. destruct (Contains body "Polecat:") eqn:Hc; [reflexivity|].
    exfalso. apply Hne, Hempty, Hc.
Qed.

Lemma skipSpaceRE_spaces ws s :
  skipSpaceRE ws = EmptyString -> skipSpaceRE (ws +:+ s) = skipSpaceRE s.
Proof.
  induction ws as [|c ws IH]; intros H; [reflexivity|].
  rewrite append_cons. cbn [skipSpaceRE] in *.
  destruct (isSpaceRE c); [apply IH, H | discriminate].
Qed.

Lemma takeNonSpaceRE_name name rest :
  takeNonSpaceRE name = name -> takeNonSpaceRE rest = EmptyString ->
  takeNonSpaceRE (name +:+ rest) = name.
Proof.
  induction name as [|c name IH]; intros Hn Hr; [exact Hr|].
  rewrite append_cons. cbn [takeNonSpaceRE] in *.
  destruct (isSpaceRE c); [discriminate|]. injection Hn as Hn.
  rewrite (IH Hn Hr). reflexivity.
Qed.

(** A body in which the first capital P opens the text [Polecat:], followed
    by any white space, a name without white space, and then white space or
    the end of the body, gives that name. *)
Theorem extractPolecatName_reads (pre ws name rest : string) :
  noByte "P"%char pre ->
  skipSpaceRE ws = EmptyString ->
  name <> EmptyString ->
  takeNonSpaceRE name = name ->
  takeNonSpaceRE rest = EmptyString ->
  extractPolecatName (pre +:+ "Polecat:" +:+ ws +:+ name +:+ rest) = name.
Proof.
  intros Hpre Hws Hne Hname Hrest.
  assert (Hat : matchPolecatAt ("Polecat:" +:+ ws +:+ name +:+ rest) = Some name).
  { unfold matchPolecatAt.
    replace (String.prefix "Polecat:" ("Polecat:" +:+ ws +:+ name +:+ rest)) with true
      by (symmetry; apply prefix_app_r, prefix_refl).
    change (dropBytes 8 ("Polecat:" +:+ ws +:+ name +:+ rest))
      with (ws +:+ name +:+ rest).
    rewrite (skipSpaceRE_spaces ws _ Hws).
    assert (Hskip : skipSpaceRE (name +:+ rest) = name +:+ rest).
    { destruct name as [|c r]; [contradiction|].
      rewrite append_cons. cbn [skipSpaceRE takeNonSpaceRE] in *.
      destruct (isSpaceRE c); [discriminate | reflexivity]. }
    rewrite Hskip, (takeNonSpaceRE_name name rest Hname Hrest).
    destruct name; [contradiction | reflexivity]. }
  unfold noByte in Hpre. induction pre as [|c pre IH].
  - rewrite append_empty, extractPolecatName_unfold, Hat. reflexivity.
  - cbn [IndexByte] in Hpre.
    destruct (Ascii.eqb_spec c "P"%char) as [-> | Hc]; [discriminate|].
    destruct (IndexByte pre "P") eqn:Hi; [discriminate|].
    rewrite append_cons, extractPolecatName_unfold.
    replace (matchPolecatAt (String c (pre +:+ "Polecat:" +:+ ws +:+ name +:+ rest)))
      with (@None string).
    + apply IH. reflexivity.
    + unfold matchPolecatAt.
      change (String.prefix "Polecat:"
                (String c (pre +:+ "Polecat:" +:+ ws +:+ name +:+ rest)))
        with (if ascii_dec "P" c
              then String.prefix "olecat:" (pre +:+ "Polecat:" +:+ ws +:+ name +:+ rest)
              else false).
      destruct (ascii_dec "P" c); [congruence | reflexivity].
Qed.

(** The statement above for the body of a shutdown request. *)
Lemma extractPolecatName_reads_witness :
  extractPolecatName
    ("shutdown requested" +:+ newline +:+ "Polecat: Toast" +:+ newline +:+ "Rig: gastown")
  = "Toast".
Proof.
  exact (extractPolecatName_reads ("shutdown requested" +:+ newline) " " "Toast"
           (newline +:+ "Rig: gastown") eq_refl eq_refl
           ltac:(discriminate) eq_refl eq_refl).
Defined.

(** *** The nudge ladder at work *)

(** The ladder for a polecat without nudges on record and without a
    handoff record: the first stuck observation sends the nudge and the
    count becomes 1. *)
Lemma handleStuckPolecat_transition_witness :
  getNudgeCount
    (handleStuckPolecat Examples.rictusStuck Examples.gastown "witness-handoff" "Rictus"
       (Examples.initial None [])).2 "Rictus"
  = 1.
Proof.
  exact (proj1 (proj1 (handleStuckPolecat_transition Examples.rictusStuck
                         Examples.gastown "witness-handoff" "Rictus"
                         (Examples.initial None []) (or_introl eq_refl))
                  eq_refl)).
Defined.

End WitnessMore.
